(** * Connect Four: engine contract, search, wire schema and page control flow

    The repository renders a Connect Four game on the server.  The pages
    ([page.tsx], the two Astro pages) hold the control flow and the
    serialization boundary; the engine they import
    ([@connect-four/utils/src/ConnectFour]) is described by the design
    document.  This development embeds both and proves the properties the
    design document states about them. *)

From Stdlib Require Import String Ascii ZArith List Bool Lia.
Import ListNotations.
Local Open Scope Z_scope.

(** ** Data model *)

Inductive Color : Type := Red | Yellow.

Definition Color_eqb (a b : Color) : bool :=
  match a, b with
  | Red, Red | Yellow, Yellow => true
  | _, _ => false
  end.

Definition other (c : Color) : Color :=
  match c with Red => Yellow | Yellow => Red end.

(** A cell of the TypeScript engine is [Color | null]. *)
Definition Cell : Type := option Color.
Definition Column : Type := list Cell.
Definition Board : Type := list Column.

Record GameState : Type := mkGameState {
  board : Board;
  currentPlayer : Color;
  isGameOver : bool;
  winner : option Color
}.

Inductive Quality : Type := Bad | Medium | Best.

Inductive EngineError : Type :=
  | InvalidColumn
  | ColumnFull
  | GameAlreadyOver
  | NoLegalMoves.

Inductive Result (A : Type) : Type :=
  | Ok (a : A)
  | Err (e : EngineError).
Arguments Ok {A} a.
Arguments Err {A} e.

Definition COLS : nat := 7.
Definition ROWS : nat := 6.

(** Exactly 7 columns of exactly 6 cells. *)
Definition boardShape (b : Board) : bool :=
  (length b =? COLS)%nat
  && forallb (fun col => (length col =? ROWS)%nat) b.

(** ** The engine *)

Module Engine.

(** Modelled from the spec: the initializer [createInitialState] of the
    engine package, which is not among the sources.  Empty 7 x 6 board, the
    designated first player (red, the human side of the pages), not over,
    no winner. *)
Definition createInitialState : GameState :=
  {| board := repeat (repeat None ROWS) COLS;
     currentPlayer := Red;
     isGameOver := false;
     winner := None |}.

(** Modelled from the spec: the Empty test on a cell of the Board/Cell model
    (section 4.1); the engine package is not among the sources. *)
Definition isEmpty (c : Cell) : bool :=
  match c with None => true | Some _ => false end.

(** Modelled from the spec: the room test of the engine, as sections 4.2
    and 7 word it: a column is full when it has no Empty cell. *)
Definition hasRoom (col : Column) : bool := existsb isEmpty col.

(** Modelled from the spec: the landing row of section 4.1, the lowest
    Empty row index of a column (index 0 is the bottom), found in one pass. *)
Fixpoint landingRow (col : Column) : option nat :=
  match col with
  | [] => None
  | None :: _ => Some O
  | Some _ :: rest => option_map S (landingRow rest)
  end.

(** Modelled from the spec: the immutable update of section 9; the list is
    rebuilt with one position replaced, an index past the end changes
    nothing. *)
Fixpoint replaceNth {A : Type} (n : nat) (x : A) (l : list A) : list A :=
  match l, n with
  | [], _ => []
  | _ :: t, O => x :: t
  | h :: t, S m => h :: replaceNth m x t
  end.

(** Modelled from the spec: placing a piece (section 4.2), a new column
    inside a new board. *)
Definition placeAt (b : Board) (c r : nat) (v : Cell) : Board :=
  replaceNth c (replaceNth r v (nth c b [])) b.

(** Modelled from the spec: reading a cell during the walk of the detector;
    anything off the board reads as no piece. *)
Definition cellAt (b : Board) (c r : Z) : Cell :=
  if (0 <=? c) && (0 <=? r)
  then nth (Z.to_nat r) (nth (Z.to_nat c) b []) None
  else None.

(** Modelled from the spec: the test of section 4.3, a cell of the same
    color as the placed piece. *)
Definition isColor (b : Board) (p : Color) (c r : Z) : bool :=
  match cellAt b c r with
  | Some q => Color_eqb q p
  | None => false
  end.

(** Modelled from the spec: the directional walk of the Win/Draw Detector
    (section 4.3).  From the placed cell, step along (dc, dr) while the next
    cell holds the same color.  No walk on a 7 x 6 board is longer than 6
    steps, so 7 units of fuel never cut one short. *)
Fixpoint countDir (fuel : nat) (b : Board) (p : Color) (c r dc dr : Z) : nat :=
  match fuel with
  | O => O
  | S f =>
      if isColor b p (c + dc) (r + dr)
      then S (countDir f b p (c + dc) (r + dr) dc dr)
      else O
  end.

Definition walkFuel : nat := 7.

(** Modelled from the spec: the four axes of section 4.3: horizontal,
    vertical, diagonal ascending, diagonal descending. *)
Definition axes : list (Z * Z) := [(1, 0); (0, 1); (1, 1); (1, -1)].

(** Modelled from the spec: the count of one axis, the placed piece and
    the two walks away from it (section 4.3). *)
Definition axisCount (b : Board) (p : Color) (c r : Z) (d : Z * Z) : nat :=
  (1 + countDir walkFuel b p c r (fst d) (snd d)
     + countDir walkFuel b p c r (- fst d) (- snd d))%nat.

(** Modelled from the spec: a win is a count of at least 4 on some axis
    (section 4.3). *)
Definition isWinningMove (b : Board) (p : Color) (c r : Z) : bool :=
  existsb (fun d => (4 <=? axisCount b p c r d)%nat) axes.

(** Modelled from the spec: the draw test of section 4.3, every column
    has no remaining Empty cell. *)
Definition boardFull (b : Board) : bool :=
  forallb (fun col => negb (hasRoom col)) b.

Inductive Status : Type := Win (p : Color) | Draw | InProgress.

(** Modelled from the spec: the Win/Draw Detector of section 4.3, anchored
    at the cell that was just placed. *)
Definition detect (b : Board) (p : Color) (c r : Z) : Status :=
  if isWinningMove b p c r then Win p
  else if boardFull b then Draw
  else InProgress.

(** Modelled from the spec: the State Transition [applyMove] of section 4.2
    (the pages call it [placePiece]); the three failures are checked in the
    order the contract lists them. *)
Definition applyMove (s : GameState) (column : Z) : Result GameState :=
  if isGameOver s then Err GameAlreadyOver
  else if (column <? 0) || (6 <? column) then Err InvalidColumn
  else
    match landingRow (nth (Z.to_nat column) (board s) []) with
    | None => Err ColumnFull
    | Some r =>
        let p := currentPlayer s in
        let b' := placeAt (board s) (Z.to_nat column) r (Some p) in
        match detect b' p column (Z.of_nat r) with
        | Win w =>
            Ok {| board := b'; currentPlayer := p;
                  isGameOver := true; winner := Some w |}
        | Draw =>
            Ok {| board := b'; currentPlayer := p;
                  isGameOver := true; winner := None |}
        | InProgress =>
            Ok {| board := b'; currentPlayer := other p;
                  isGameOver := false; winner := None |}
        end
    end.

(** The full-board scan the detector must agree with: four cells in a
    row, from a start cell along one axis, all of color [p]. *)
Definition lineOf4 (b : Board) (p : Color) (c r : Z) (d : Z * Z) : bool :=
  forallb (fun i => isColor b p (c + i * fst d) (r + i * snd d)) [0; 1; 2; 3].

Definition allCells : list (Z * Z) :=
  list_prod [0; 1; 2; 3; 4; 5; 6] [0; 1; 2; 3; 4; 5].

Definition hasFour (b : Board) (p : Color) : bool :=
  existsb (fun cr => existsb (lineOf4 b p (fst cr) (snd cr)) axes) allCells.

(** Playing a sequence of columns; the first failure stops the game. *)
Fixpoint play (s : GameState) (moves : list Z) : Result GameState :=
  match moves with
  | [] => Ok s
  | m :: rest =>
      match applyMove s m with
      | Ok s' => play s' rest
      | Err e => Err e
      end
  end.

Definition stateAfter (ms : list Z) : GameState :=
  match play createInitialState ms with
  | Ok s => s
  | Err _ => createInitialState
  end.

(** A line of four through the cell (c, r) along the axis [d]: the line
    starts [k] cells before it. *)
Definition through (b : Board) (p : Color) (c r : Z) (d : Z * Z) : Prop :=
  exists k, 0 <= k <= 3 /\
            lineOf4 b p (c - k * fst d) (r - k * snd d) d = true.

Definition NoFour (b : Board) : Prop :=
  forall p c r d, In d axes -> lineOf4 b p c r d = false.

(** What every reachable state satisfies: the board has its shape, and
    while the game is on there is no four in a row and a column has room. *)
Definition Inv (s : GameState) : Prop :=
  boardShape (board s) = true /\
  (isGameOver s = false -> NoFour (board s) /\ boardFull (board s) = false).

(** The states a game can be in: the initial one and every successor by
    a move that [applyMove] accepts. *)
Inductive reachable : GameState -> Prop :=
  | reach_init : reachable createInitialState
  | reach_step (s s' : GameState) (c : Z) :
      reachable s -> applyMove s c = Ok s' -> reachable s'.

End Engine.

(** ** The move search *)

(** Scores of the search are JavaScript numbers that start from
    [-Infinity] and [Infinity]; the two infinities are kept apart from the
    finite scores. *)
Inductive Score : Type := NegInf | Fin (z : Z) | PosInf.

Definition Score_leb (a b : Score) : bool :=
  match a, b with
  | NegInf, _ => true
  | _, PosInf => true
  | Fin x, Fin y => x <=? y
  | _, _ => false
  end.

Definition Score_ltb (a b : Score) : bool := negb (Score_leb b a).

Definition Score_max (a b : Score) : Score := if Score_leb a b then b else a.
Definition Score_min (a b : Score) : Score := if Score_leb a b then a else b.

Module Search.
Import Engine.

Definition WIN_SCORE : Z := 1000000.

(** Modelled from the spec: the center-outward search order of section
    4.4. *)
Definition searchOrder : list Z := [3; 2; 4; 1; 5; 0; 6].

(** Modelled from the spec: the legal columns, those with room, in search
    order. *)
Definition legalMoves (s : GameState) : list Z :=
  filter (fun c => hasRoom (nth (Z.to_nat c) (board s) [])) searchOrder.

(** Modelled from the spec: the moves a search explores (section 4.4);
    every one is a locally built successor state. *)
Definition successors (s : GameState) : list (Z * GameState) :=
  flat_map (fun c => match applyMove s c with
                     | Ok s' => [(c, s')]
                     | Err _ => []
                     end) (legalMoves s).

(** Modelled from the spec: terminal scoring of section 4.4; a win is worth
    a large constant less the ply at which it happens, a loss the opposite,
    a draw zero. *)
Definition terminalScore (engine : Color) (s : GameState) (ply : Z) : Z :=
  match winner s with
  | Some w => if Color_eqb w engine then WIN_SCORE - ply else ply - WIN_SCORE
  | None => 0
  end.

(** Modelled from the spec: one maximizing node of the pruned search of
    section 4.4: the running value, the cutoff against beta and the raised
    alpha. *)
Fixpoint abMax (eval : GameState -> Score -> Score -> Score)
    (kids : list GameState) (alpha beta value : Score) : Score :=
  match kids with
  | [] => value
  | k :: rest =>
      let value' := Score_max value (eval k alpha beta) in
      if Score_leb beta value' then value'
      else abMax eval rest (Score_max alpha value') beta value'
  end.

(** Modelled from the spec: one minimizing node, the mirror image. *)
Fixpoint abMin (eval : GameState -> Score -> Score -> Score)
    (kids : list GameState) (alpha beta value : Score) : Score :=
  match kids with
  | [] => value
  | k :: rest =>
      let value' := Score_min value (eval k alpha beta) in
      if Score_leb value' alpha then value'
      else abMin eval rest alpha (Score_min beta value') value'
  end.

(** Modelled from the spec: the root of a search with the tie-break of
    section 4.4: the first column, in search order, whose score is strictly
    above every score before it.  [eval] receives the best score
    so far, which the pruned search uses as its alpha. *)
Fixpoint pickBest (eval : GameState -> Score -> Score)
    (ms : list (Z * GameState)) (bestMove : Z) (bestScore : Score) : Z :=
  match ms with
  | [] => bestMove
  | (c, k) :: rest =>
      let v := eval k bestScore in
      if Score_ltb bestScore v
      then pickBest eval rest c v
      else pickBest eval rest bestMove bestScore
  end.

(** Modelled from the spec: the immediate win of the terminal shortcut of
    section 4.4, the first successor in search order that wins the game for
    the side to move. *)
Definition immediateWin (s : GameState) : option (Z * GameState) :=
  find (fun m => match winner (snd m) with
                 | Some w => Color_eqb w (currentPlayer s)
                 | None => false
                 end) (successors s).

Section Tiers.

(** The heuristic weighting and the two depths are left to the
    implementer by the design document; the search is parametric in them. *)
Variable heuristic : Board -> Color -> Z.
Variable mediumDepth highDepth : nat.

(** Modelled from the spec: fixed-depth minimax of section 4.4.  The engine's
    color maximizes, the opponent minimizes; a terminal position is scored
    at once, a position at the depth limit by the heuristic.  With
    [shortcut], a position where the side to move can win at once is scored
    as that win without looking at the other moves: the maximal score of the
    ply for the engine, the minimal one when the opponent is to move. *)
Fixpoint minimax (shortcut : bool) (engine : Color) (depth : nat) (ply : Z)
    (s : GameState) : Score :=
  if isGameOver s then Fin (terminalScore engine s ply)
  else
    match depth with
    | O => Fin (heuristic (board s) engine)
    | S d =>
        match (if shortcut then immediateWin s else None) with
        | Some (_, k) => Fin (terminalScore engine k (ply + 1))
        | None =>
            let kids := map snd (successors s) in
            if Color_eqb (currentPlayer s) engine
            then fold_left
                   (fun v k => Score_max v (minimax shortcut engine d (ply + 1) k))
                   kids NegInf
            else fold_left
                   (fun v k => Score_min v (minimax shortcut engine d (ply + 1) k))
                   kids PosInf
        end
    end.

(** Modelled from the spec: the search of the High tier, the same minimax
    with the shortcut and with alpha-beta pruning. *)
Fixpoint alphabeta (engine : Color) (depth : nat) (ply : Z) (s : GameState)
    (alpha beta : Score) : Score :=
  if isGameOver s then Fin (terminalScore engine s ply)
  else
    match depth with
    | O => Fin (heuristic (board s) engine)
    | S d =>
        match immediateWin s with
        | Some (_, k) => Fin (terminalScore engine k (ply + 1))
        | None =>
            let kids := map snd (successors s) in
            if Color_eqb (currentPlayer s) engine
            then abMax (alphabeta engine d (ply + 1)) kids alpha beta NegInf
            else abMin (alphabeta engine d (ply + 1)) kids alpha beta PosInf
        end
    end.

(** Modelled from the spec: the root of the unpruned search. *)
Definition searchMinimax (shortcut : bool) (depth : nat) (s : GameState)
    (first : Z) : Z :=
  match (if shortcut then immediateWin s else None) with
  | Some (c, _) => c
  | None =>
      pickBest (fun k _ => minimax shortcut (currentPlayer s)
                             (Nat.pred depth) 1 k)
               (successors s) first NegInf
  end.

(** Modelled from the spec: the root of the pruned search; the best score
    so far is the alpha of the next column. *)
Definition searchAlphaBeta (depth : nat) (s : GameState) (first : Z) : Z :=
  match immediateWin s with
  | Some (c, _) => c
  | None =>
      pickBest (fun k a => alphabeta (currentPlayer s) (Nat.pred depth) 1 k
                             a PosInf)
               (successors s) first NegInf
  end.

(** Modelled from the spec: the test of the Low tier, would [p], moving now
    in column [c], win at once? *)
Definition winsAt (s : GameState) (p : Color) (c : Z) : bool :=
  match applyMove {| board := board s; currentPlayer := p;
                     isGameOver := false; winner := None |} c with
  | Ok s' =>
      match winner s' with
      | Some w => Color_eqb w p
      | None => false
      end
  | Err _ => false
  end.

(** Modelled from the spec: the Low tier of section 4.4: win now, else block
    the opponent's win, else the first legal column from the center out. *)
Definition lowMove (s : GameState) (first : Z) : Z :=
  let cols := map fst (successors s) in
  match find (winsAt s (currentPlayer s)) cols with
  | Some c => c
  | None =>
      match find (winsAt s (other (currentPlayer s))) cols with
      | Some c => c
      | None => first
      end
  end.

(** Modelled from the spec: the Move Search Engine [chooseMove] of section
    4.4 (the pages call it [getComputerMove]). *)
Definition chooseMove (s : GameState) (q : Quality) : Result Z :=
  if isGameOver s then Err GameAlreadyOver
  else
    match legalMoves s with
    | [] => Err NoLegalMoves
    | first :: _ =>
        Ok match q with
           | Bad => lowMove s first
           | Medium => searchMinimax false mediumDepth s first
           | Best => searchAlphaBeta highDepth s first
           end
    end.

(** The reference the pruned search is compared with: the High tier
    without pruning, that is plain minimax of the same depth, evaluation
    (shortcut included) and search order. *)
Definition chooseMoveUnpruned (s : GameState) : Result Z :=
  if isGameOver s then Err GameAlreadyOver
  else
    match legalMoves s with
    | [] => Err NoLegalMoves
    | first :: _ => Ok (searchMinimax true highDepth s first)
    end.

End Tiers.
End Search.

(** ** Wire schema *)

(** A digit from 1 to 9. *)
Inductive NonZeroDigit : Type :=
  | D1 | D2 | D3 | D4 | D5 | D6 | D7 | D8 | D9.

(** A number of the language, named by the decimal that
    [Number.prototype.toString] writes for it: an integer; a number that is
    not an integer, [(10 * tens + last) / 10 ^ places] with its sign, the
    last digit not 0; or one of the two infinities.  The two zeros are one
    value: they are equal under [===], index the same column and are both
    written [0], and nothing in the pages tells them apart.  [NaN] is left
    out: the schemas refuse it, [JSON.parse] returns none, and the pages
    compute no number of their own. *)
Inductive Number : Type :=
  | Integer (z : Z)
  | Fraction (negative : bool) (tens : N) (last : NonZeroDigit)
      (places : positive)
  | PosInfinity
  | NegInfinity.

(** The values [JSON.stringify] is given and [JSON.parse] returns. *)
#[local] Set Warnings "-register-all".
Inductive JSON : Type :=
  | JNull
  | JBool (b : bool)
  | JNumber (n : Number)
  | JString (s : string)
  | JArray (items : list JSON)
  | JObject (fields : list (string * JSON)).

Local Open Scope string_scope.

Fixpoint field (k : string) (o : list (string * JSON)) : option JSON :=
  match o with
  | [] => None
  | (k', v) :: rest => if String.eqb k k' then Some v else field k rest
  end.

(** Two objects with the same value under every key.  In what order the
    keys of a state object come depends on how the page built it (by schema
    validation or by a spread); the schemas read by key. *)
Definition sameFields (v v' : JSON) : Prop :=
  match v, v' with
  | JObject o, JObject o' => forall k, field k o = field k o'
  | _, _ => False
  end.

(** All items of an array must pass the item schema. *)
Fixpoint parseAll {A : Type} (f : JSON -> option A) (l : list JSON)
    : option (list A) :=
  match l with
  | [] => Some []
  | j :: rest =>
      match f j, parseAll f rest with
      | Some a, Some t => Some (a :: t)
      | _, _ => None
      end
  end.

Definition parseArray {A : Type} (f : JSON -> option A) (j : JSON)
    : option (list A) :=
  match j with
  | JArray l => parseAll f l
  | _ => None
  end.

Definition parseBoolean (j : JSON) : option bool :=
  match j with JBool b => Some b | _ => None end.

(** [z.number().nullable()]: [null] or a number; the schema asks neither
    for an integer nor for a finite number. *)
Definition parseNullableNumber (j : JSON) : option (option Number) :=
  match j with
  | JNull => Some None
  | JNumber n => Some (Some n)
  | _ => None
  end.

Definition qualityName (q : Quality) : string :=
  match q with Bad => "bad" | Medium => "medium" | Best => "best" end.

(** [z.enum(["bad", "medium", "best"])] *)
Definition parseQuality (j : JSON) : option Quality :=
  match j with
  | JString s =>
      if String.eqb s "bad" then Some Bad
      else if String.eqb s "medium" then Some Medium
      else if String.eqb s "best" then Some Best
      else None
  | _ => None
  end.

Definition nullableNumberToJSON (n : option Number) : JSON :=
  match n with None => JNull | Some k => JNumber k end.

(** [charAt(0).toUpperCase()] on the ASCII letters the color names use. *)
Definition toUpperCase (a : ascii) : ascii :=
  let n := nat_of_ascii a in
  if (97 <=? n)%nat && (n <=? 122)%nat then ascii_of_nat (n - 32) else a.

(** [s.charAt(0).toUpperCase() + s.slice(1)] *)
Definition capitalize (s : string) : string :=
  match s with
  | EmptyString => EmptyString
  | String a rest => String (toUpperCase a) rest
  end.

(** *** The camelCase variant of the TypeScript pages *)

Module Ts.

Record ExtendedGameState : Type := mkExtended {
  board : Board;
  currentPlayer : Color;
  isGameOver : bool;
  winner : option Color;
  newestPieceColumn : option Number;
  newestComputerPieceColumn : option Number;
  minimaxQuality : Quality
}.

(** The engine reads the four game fields of the object it is handed. *)
Definition baseOf (s : ExtendedGameState) : GameState :=
  mkGameState (board s) (currentPlayer s) (isGameOver s) (winner s).

(** [{ ...g, newestPieceColumn, newestComputerPieceColumn, minimaxQuality }] *)
Definition withExtras (g : GameState)
    (piece computerPiece : option Number)
    (q : Quality) : ExtendedGameState :=
  match g with
  | mkGameState b p over w => mkExtended b p over w piece computerPiece q
  end.

Definition colorName (c : Color) : string :=
  match c with Red => "red" | Yellow => "yellow" end.

Definition cellToJSON (c : Cell) : JSON :=
  match c with None => JNull | Some p => JString (colorName p) end.

Definition winnerToJSON (w : option Color) : JSON :=
  match w with None => JNull | Some p => JString (colorName p) end.

(** The object [JSON.stringify] is given for a state of this variant. *)
Definition toJSON (s : ExtendedGameState) : JSON :=
  JObject
    [ ("board", JArray (map (fun col => JArray (map cellToJSON col)) (board s)));
      ("currentPlayer", JString (colorName (currentPlayer s)));
      ("isGameOver", JBool (isGameOver s));
      ("winner", winnerToJSON (winner s));
      ("newestPieceColumn", nullableNumberToJSON (newestPieceColumn s));
      ("newestComputerPieceColumn",
        nullableNumberToJSON (newestComputerPieceColumn s));
      ("minimaxQuality", JString (qualityName (minimaxQuality s))) ].

(** Modelled from the spec: the color names of the camelCase variant, as
    the page compares cells with them; the schema constants of the engine
    package are not among the sources. *)
Definition parseColor (j : JSON) : option Color :=
  match j with
  | JString s =>
      if String.eqb s "red" then Some Red
      else if String.eqb s "yellow" then Some Yellow
      else None
  | _ => None
  end.

(** Modelled from the spec: a cell of the camelCase variant, [null] or a
    color name. *)
Definition parseCell (j : JSON) : option Cell :=
  match j with
  | JNull => Some None
  | _ => option_map Some (parseColor j)
  end.

(** Modelled from the spec: the winner of the camelCase variant, a color
    name or [null]. *)
Definition parseWinner (j : JSON) : option (option Color) :=
  match j with
  | JNull => Some None
  | _ => option_map Some (parseColor j)
  end.

(** Modelled from the spec: the board of the wire schema of section 6, an
    ordered sequence of 7 columns of 6 cell values each; the schema constant
    [GameStateSchema] of the engine package is not among the sources. *)
Definition parseBoard (j : JSON) : option Board :=
  match parseArray (parseArray parseCell) j with
  | Some b => if boardShape b then Some b else None
  | None => None
  end.

(** [ExtendedGameStateSchema.parse]: the four game fields and the three
    fields the page adds with [GameStateSchema.extend]; a key that is
    missing fails, a key that is not in the schema is dropped. *)
Definition ExtendedGameStateSchema_parse (j : JSON)
    : option ExtendedGameState :=
  match j with
  | JObject o =>
      match field "board" o, field "currentPlayer" o, field "isGameOver" o,
            field "winner" o, field "newestPieceColumn" o,
            field "newestComputerPieceColumn" o, field "minimaxQuality" o with
      | Some jb, Some jp, Some jo, Some jw, Some jn, Some jc, Some jq =>
          match parseBoard jb, parseColor jp, parseBoolean jo, parseWinner jw,
                parseNullableNumber jn, parseNullableNumber jc,
                parseQuality jq with
          | Some b, Some p, Some o', Some w, Some n, Some c, Some q =>
              Some (mkExtended b p o' w n c q)
          | _, _, _, _, _, _, _ => None
          end
      | _, _, _, _, _, _, _ => None
      end
  | _ => None
  end.

End Ts.

(** *** The snake_case variant of the WASM page *)

Module Wasm.

(** ["Empty"] or [{ Filled: "Red" | "Yellow" }] *)
Inductive WasmCell : Type := Empty | Filled (c : Color).

(** [winner] is [.nullable().optional()]: the key may be missing
    ([None]), hold [null] ([Some None]) or name a color. *)
Record ExtendedGameState : Type := mkExtended {
  board : list (list WasmCell);
  current_player : Color;
  is_game_over : bool;
  winner : option (option Color);
  newestPieceColumn : option Number;
  newestComputerPieceColumn : option Number;
  minimaxQuality : Quality
}.

Definition colorName (c : Color) : string :=
  match c with Red => "Red" | Yellow => "Yellow" end.

Definition cellToJSON (c : WasmCell) : JSON :=
  match c with
  | Empty => JString "Empty"
  | Filled p => JObject [("Filled", JString (colorName p))]
  end.

(** [JSON.stringify] leaves out a key whose value is [undefined]. *)
Definition toJSON (s : ExtendedGameState) : JSON :=
  JObject
    ([ ("board", JArray (map (fun col => JArray (map cellToJSON col)) (board s)));
       ("current_player", JString (colorName (current_player s)));
       ("is_game_over", JBool (is_game_over s)) ]
     ++ match winner s with
        | None => []
        | Some None => [("winner", JNull)]
        | Some (Some p) => [("winner", JString (colorName p))]
        end
     ++ [ ("newestPieceColumn", nullableNumberToJSON (newestPieceColumn s));
          ("newestComputerPieceColumn",
            nullableNumberToJSON (newestComputerPieceColumn s));
          ("minimaxQuality", JString (qualityName (minimaxQuality s))) ]).

(** [z.enum(["Red", "Yellow"])] *)
Definition parseColor (j : JSON) : option Color :=
  match j with
  | JString s =>
      if String.eqb s "Red" then Some Red
      else if String.eqb s "Yellow" then Some Yellow
      else None
  | _ => None
  end.

(** [CellSchema]: the union tries the literal first, then the object. *)
Definition parseCell (j : JSON) : option WasmCell :=
  match j with
  | JString s => if String.eqb s "Empty" then Some Empty else None
  | JObject o =>
      match field "Filled" o with
      | Some jc => option_map Filled (parseColor jc)
      | None => None
      end
  | _ => None
  end.

Definition parseWinner (j : option JSON) : option (option (option Color)) :=
  match j with
  | None => Some None
  | Some JNull => Some (Some None)
  | Some j' => option_map (fun c => Some (Some c)) (parseColor j')
  end.

(** [ExtendedGameStateSchema.parse] of the WASM page. *)
Definition ExtendedGameStateSchema_parse (j : JSON)
    : option ExtendedGameState :=
  match j with
  | JObject o =>
      match field "board" o, field "current_player" o, field "is_game_over" o,
            field "newestPieceColumn" o, field "newestComputerPieceColumn" o,
            field "minimaxQuality" o with
      | Some jb, Some jp, Some jo, Some jn, Some jc, Some jq =>
          match parseArray (parseArray parseCell) jb, parseColor jp,
                parseBoolean jo, parseWinner (field "winner" o),
                parseNullableNumber jn, parseNullableNumber jc,
                parseQuality jq with
          | Some b, Some p, Some o', Some w, Some n, Some c, Some q =>
              Some (mkExtended b p o' w n c q)
          | _, _, _, _, _, _, _ => None
          end
      | _, _, _, _, _, _ => None
      end
  | _ => None
  end.

End Wasm.

(** [convertTsToWasmGameState]: the object handed to [JSON.stringify] for
    the WASM page. *)
Definition convertTsToWasmGameState (tsState : Ts.ExtendedGameState) : JSON :=
  JObject
    [ ("board",
        JArray (map (fun column =>
          JArray (map (fun cell : Cell =>
            match cell with
            | None => JString "Empty"
            | Some c => JObject [("Filled", JString (capitalize (Ts.colorName c)))]
            end) column)) (Ts.board tsState)));
      ("current_player",
        JString (capitalize (Ts.colorName (Ts.currentPlayer tsState))));
      ("is_game_over", JBool (Ts.isGameOver tsState));
      ("winner",
        match Ts.winner tsState with
        | Some w => JString (capitalize (Ts.colorName w))
        | None => JNull
        end);
      ("newestPieceColumn", nullableNumberToJSON (Ts.newestPieceColumn tsState));
      ("newestComputerPieceColumn",
        nullableNumberToJSON (Ts.newestComputerPieceColumn tsState));
      ("minimaxQuality", JString (qualityName (Ts.minimaxQuality tsState))) ].

(** The state the WASM page reads out of what the bridge wrote, and the
    way back; the pages have no function for the way back, it is the inverse
    the bridge admits. *)
Definition wasmCellOf (c : Cell) : Wasm.WasmCell :=
  match c with None => Wasm.Empty | Some p => Wasm.Filled p end.

Definition tsCellOf (c : Wasm.WasmCell) : Cell :=
  match c with Wasm.Empty => None | Wasm.Filled p => Some p end.

Definition wasmToTs (ws : Wasm.ExtendedGameState) : Ts.ExtendedGameState :=
  Ts.mkExtended
    (map (map tsCellOf) (Wasm.board ws))
    (Wasm.current_player ws)
    (Wasm.is_game_over ws)
    (match Wasm.winner ws with Some w => w | None => None end)
    (Wasm.newestPieceColumn ws)
    (Wasm.newestComputerPieceColumn ws)
    (Wasm.minimaxQuality ws).

Local Close Scope string_scope.

(** ** The page *)

Module Page.
Import Ts.
Local Open Scope string_scope.
Local Open Scope list_scope.
Local Open Scope Z_scope.

(** The engine operations the page invokes, with the state object each
    one is handed. *)
Inductive Call : Type :=
  | CallGetComputerMove (state : ExtendedGameState) (quality : Quality)
  | CallPlacePiece (state : ExtendedGameState) (column : Z).

Definition callState (c : Call) : ExtendedGameState :=
  match c with
  | CallGetComputerMove st _ => st
  | CallPlacePiece st _ => st
  end.

(** A run of page code: the engine calls made so far, and a value or the
    engine failure that ended the run (the page has no handler for it). *)
Definition Run (A : Type) : Type := (list Call * Result A)%type.

Definition ret {A : Type} (a : A) : Run A := ([], Ok a).

Definition bind {A B : Type} (m : Run A) (f : A -> Run B) : Run B :=
  match m with
  | (log, Ok a) => let '(log', r) := f a in (log ++ log', r)
  | (log, Err e) => (log, Err e)
  end.

Notation "x <- m ;; k" := (bind m (fun x => k))
  (at level 61, m at next level, right associativity).

(** What one request renders: the state on display, the link of every
    cell (none where the cell is not clickable), the three quality links and
    the two links of the engine toggle. *)
Record View : Type := mkView {
  shown : ExtendedGameState;
  cellLinks : list (list (option string));
  qualityLinks : list string;
  engineToggle : string * string
}.

(** The [memoize] cache of [getNextState], keyed by the column. *)
Definition Cache : Type := list (Z * ExtendedGameState).

Fixpoint cacheGet (k : Z) (c : Cache) : option ExtendedGameState :=
  match c with
  | [] => None
  | (k', v) :: rest => if k =? k' then Some v else cacheGet k rest
  end.

Section Flow.

(** The engine package and the two third-party text codecs. *)
Variable createInitialState : GameState.
Variable placePiece : GameState -> Z -> Result GameState.
Variable getComputerMove : GameState -> Quality -> Result Z.
Variable crush : string -> string.
Variable uncrush : string -> option string.
Variable JSON_stringify : JSON -> string.
Variable JSON_parse : string -> option JSON.

Definition callGetComputerMove (gs : ExtendedGameState) (q : Quality) : Run Z :=
  ([CallGetComputerMove gs q], getComputerMove (baseOf gs) q).

Definition callPlacePiece (gs : ExtendedGameState) (column : Z)
    : Run GameState :=
  ([CallPlacePiece gs column], placePiece (baseOf gs) column).

Definition initialState : ExtendedGameState :=
  withExtras createInitialState None None Best.

(** [JSONCrush.crush(JSON.stringify(state))] *)
Definition encodeValue (v : JSON) : string := crush (JSON_stringify v).

Definition encodeState (st : ExtendedGameState) : string :=
  encodeValue (toJSON st).

(** The body of the [try]: any of the three steps may throw. *)
Definition decodeState (text : string) : option ExtendedGameState :=
  match uncrush text with
  | Some json =>
      match JSON_parse json with
      | Some v => ExtendedGameStateSchema_parse v
      | None => None
      end
  | None => None
  end.

(** The [try]/[catch] at the top of the page. *)
Definition loadState (param : option string) : ExtendedGameState :=
  match param with
  | Some text =>
      if String.eqb text EmptyString then initialState
      else
        match decodeState text with
        | Some st => st
        | None => initialState
        end
  | None => initialState
  end.

(** The computer's move, when it is the computer's turn. *)
Definition computerBlock (gameState : ExtendedGameState)
    : Run ExtendedGameState :=
  if negb (isGameOver gameState) && Color_eqb (currentPlayer gameState) Yellow
  then
    computerMove <- callGetComputerMove gameState (minimaxQuality gameState) ;;
    computerState <- callPlacePiece gameState computerMove ;;
    ret (withExtras computerState
           (newestPieceColumn gameState)
           (Some (Integer computerMove))
           (minimaxQuality gameState))
  else ret gameState.

(** The function under [memoize]. *)
Definition nextStateOf (gameState : ExtendedGameState) (column : Z)
    : Run ExtendedGameState :=
  if isGameOver gameState then ret gameState
  else
    playerState <- callPlacePiece gameState column ;;
    ret (withExtras playerState (Some (Integer column)) None
           (minimaxQuality gameState)).

Definition getNextState (gameState : ExtendedGameState) (cache : Cache)
    (column : Z) : Run (ExtendedGameState * Cache) :=
  match cacheGet column cache with
  | Some st => ret (st, cache)
  | None =>
      st <- nextStateOf gameState column ;;
      ret (st, (column, st) :: cache)
  end.

(** Successive calls of [getNextState] within one request. *)
Fixpoint getNextStates (gameState : ExtendedGameState) (cache : Cache)
    (columns : list Z) : Run (list ExtendedGameState * Cache) :=
  match columns with
  | [] => ret ([], cache)
  | c :: rest =>
      r <- getNextState gameState cache c ;;
      rs <- getNextStates gameState (snd r) rest ;;
      ret (fst r :: fst rs, snd rs)
  end.

(** [renderCell], as far as the link of the cell goes. *)
Definition renderCell (gameState : ExtendedGameState) (cache : Cache)
    (cell : Cell) (colIndex : Z) : Run (option string * Cache) :=
  if Engine.isEmpty cell && negb (isGameOver gameState)
  then
    r <- getNextState gameState cache colIndex ;;
    ret (Some (encodeState (fst r)), snd r)
  else ret (None, cache).

Fixpoint renderColumn (gameState : ExtendedGameState) (cache : Cache)
    (colIndex : Z) (column : Column) : Run (list (option string) * Cache) :=
  match column with
  | [] => ret ([], cache)
  | cell :: rest =>
      r <- renderCell gameState cache cell colIndex ;;
      rs <- renderColumn gameState (snd r) colIndex rest ;;
      ret (fst r :: fst rs, snd rs)
  end.

Fixpoint renderBoard (gameState : ExtendedGameState) (cache : Cache)
    (colIndex : Z) (columns : Board)
    : Run (list (list (option string)) * Cache) :=
  match columns with
  | [] => ret ([], cache)
  | column :: rest =>
      r <- renderColumn gameState cache colIndex column ;;
      rs <- renderBoard gameState (snd r) (colIndex + 1) rest ;;
      ret (fst r :: fst rs, snd rs)
  end.

Definition renderQualityLink (gameState : ExtendedGameState) (quality : Quality)
    : string :=
  encodeState (mkExtended (board gameState) (currentPlayer gameState)
                 (isGameOver gameState) (winner gameState)
                 (newestPieceColumn gameState)
                 (newestComputerPieceColumn gameState) quality).

Definition renderEngineToggle (gameState : ExtendedGameState)
    : string * string :=
  (encodeState gameState,
   encodeValue (convertTsToWasmGameState gameState)).

(** One request, from the URL parameter to the rendered view. *)
Definition render (param : option string) : Run View :=
  gameState <- computerBlock (loadState param) ;;
  cells <- renderBoard gameState [] 0 (board gameState) ;;
  ret (mkView gameState (fst cells)
         (map (renderQualityLink gameState) [Bad; Medium; Best])
         (renderEngineToggle gameState)).

(** The two codecs lose nothing of the value [v]: the text written for it
    is read back as [v]. *)
Definition textLossless (v : JSON) : Prop :=
  exists text,
    uncrush (crush (JSON_stringify v)) = Some text /\
    JSON_parse text = Some v.

(** The WASM page writes and reads its own variant the same way. *)
Definition encodeWasmState (st : Wasm.ExtendedGameState) : string :=
  encodeValue (Wasm.toJSON st).

Definition decodeWasmState (text : string) : option Wasm.ExtendedGameState :=
  match uncrush text with
  | Some json =>
      match JSON_parse json with
      | Some v => Wasm.ExtendedGameStateSchema_parse v
      | None => None
      end
  | None => None
  end.

End Flow.

(** Two sample states and a stand-in for the text codecs that is lossless
    on them, to run the round trip on. *)
Definition sampleTs : ExtendedGameState :=
  withExtras (Engine.stateAfter [3; 3; 4]) (Some (Integer 4))
    (Some (Integer 3)) Medium.

Definition sampleWasm : Wasm.ExtendedGameState :=
  Wasm.mkExtended
    [[Wasm.Filled Red; Wasm.Filled Yellow]; [Wasm.Empty; Wasm.Empty]]
    Yellow false None (Some (Integer 0)) None Bad.

Definition sampleStringify (v : JSON) : string :=
  match v with
  | JObject (_ :: ("currentPlayer", _) :: _) => "ts"
  | _ => "wasm"
  end.

Definition sampleParse (text : string) : option JSON :=
  if String.eqb text "ts" then Some (toJSON sampleTs)
  else Some (Wasm.toJSON sampleWasm).

End Page.

(** ** The rest of the page: cell classes, prefetch links, the board hash *)

Module PageView.
Import Ts Page.
Local Open Scope string_scope.
Local Open Scope list_scope.
Local Open Scope Z_scope.

(** [Array.prototype.findIndex]: the first index whose element passes,
    or -1. *)
Fixpoint findIndex {A : Type} (pred : A -> bool) (l : list A) : Z :=
  match l with
  | [] => -1
  | x :: rest =>
      if pred x then 0
      else let i := findIndex pred rest in if i <? 0 then -1 else i + 1
  end.

(** [cell !== null] *)
Definition isPiece (cell : Cell) : bool := negb (Engine.isEmpty cell).

(** [board[column]?.findIndex((cell) => cell !== null)]: undefined when
    the board has no such column. *)
Definition pieceRowIn (b : Board) (column : Z) : option Z :=
  if column <? 0 then None
  else option_map (findIndex isPiece) (nth_error b (Z.to_nat column)).

(** The test [isNewPiece] of [renderCell], for either of the two newest
    columns.  A number that is not an integer is no index of the board and
    equal to no [colIndex]. *)
Definition isNewPieceAt (b : Board) (newest : option Number)
    (rowIndex colIndex : Z) : bool :=
  match newest with
  | Some (Integer column) =>
      match pieceRowIn b column with
      | None => false
      | Some pieceRow => (colIndex =? column) && (rowIndex =? 5 - pieceRow)
      end
  | _ => false
  end.

Definition cellColor (cell : Cell) : string :=
  match cell with
  | Some Red => "bg-red-500"
  | Some Yellow => "bg-yellow-500"
  | None => "bg-white"
  end.

(** The animation class of [renderCell]: the computer's assignment comes
    second and overwrites the player's. *)
Definition animationClass (gameState : ExtendedGameState)
    (rowIndex colIndex : Z) : string :=
  let afterPlayer :=
    if isNewPieceAt (board gameState) (newestPieceColumn gameState)
         rowIndex colIndex
    then "animate-slide-down" else "" in
  if isNewPieceAt (board gameState) (newestComputerPieceColumn gameState)
       rowIndex colIndex
  then "animate-computer-slide-down" else afterPlayer.

(** The call site: [renderCell(cell, 5 - rowIndex, colIndex)] for the cell
    at index [rowIndex] of column [colIndex]. *)
Definition cellAnimation (gameState : ExtendedGameState)
    (arrayIndex colIndex : Z) : string :=
  animationClass gameState (5 - arrayIndex) colIndex.

(** [isActive] of [renderQualityLink]. *)
Definition Quality_eqb (a b : Quality) : bool :=
  match a, b with
  | Bad, Bad | Medium, Medium | Best, Best => true
  | _, _ => false
  end.

Definition qualityLinkActive (gameState : ExtendedGameState) (quality : Quality)
    : bool :=
  Quality_eqb (minimaxQuality gameState) quality.

Section Prefetch.

Variable placePiece : GameState -> Z -> Result GameState.
Variable crush : string -> string.
Variable JSON_stringify : JSON -> string.

(** [generatePrefetchLinks] of the Astro page: nothing on a finished game,
    else the next state of each of the seven columns, full or not. *)
Definition generatePrefetchLinks (gameState : ExtendedGameState) (cache : Cache)
    : Run (list string) :=
  if isGameOver gameState then ret []
  else
    r <- getNextStates placePiece gameState cache [0; 1; 2; 3; 4; 5; 6] ;;
    ret (map (encodeState crush JSON_stringify) (fst r)).

(** The link of one cell without the cache: what [renderCell] would
    compute if [getNextState] were not memoized. *)
Definition cellLink (gameState : ExtendedGameState) (cell : Cell) (colIndex : Z)
    : Result (option string) :=
  if Engine.isEmpty cell && negb (isGameOver gameState)
  then
    match placePiece (baseOf gameState) colIndex with
    | Ok playerState =>
        Ok (Some (encodeState crush JSON_stringify
                    (withExtras playerState (Some (Integer colIndex)) None
                       (minimaxQuality gameState))))
    | Err e => Err e
    end
  else Ok None.

Fixpoint columnLinks (gameState : ExtendedGameState) (colIndex : Z)
    (column : Column) : Result (list (option string)) :=
  match column with
  | [] => Ok []
  | cell :: rest =>
      match cellLink gameState cell colIndex with
      | Ok l =>
          match columnLinks gameState colIndex rest with
          | Ok ls => Ok (l :: ls)
          | Err e => Err e
          end
      | Err e => Err e
      end
  end.

Fixpoint boardLinks (gameState : ExtendedGameState) (colIndex : Z)
    (columns : Board) : Result (list (list (option string))) :=
  match columns with
  | [] => Ok []
  | column :: rest =>
      match columnLinks gameState colIndex column with
      | Ok l =>
          match boardLinks gameState (colIndex + 1) rest with
          | Ok ls => Ok (l :: ls)
          | Err e => Err e
          end
      | Err e => Err e
      end
  end.

End Prefetch.

(** The columns [placePiece] was called on, in the order of the calls. *)
Definition placedColumns (log : list Call) : list Z :=
  flat_map (fun c => match c with
                     | CallPlacePiece _ column => [column]
                     | CallGetComputerMove _ _ => []
                     end) log.

(** *** [getGameStateHash] *)

(** [ToInt32]: the integer wrapped into the signed 32-bit range. *)
Definition toInt32 (z : Z) : Z :=
  (z + 2147483648) mod 4294967296 - 2147483648.

(** [hash << 5] *)
Definition shiftLeft32 (hash n : Z) : Z := toInt32 (Z.shiftl (toInt32 hash) n).

(** [((hash << 5) - hash + char.charCodeAt(0)) | 0] *)
Definition hashStep (hash : Z) (char : ascii) : Z :=
  toInt32 (shiftLeft32 hash 5 - hash + Z.of_nat (nat_of_ascii char)).

(** [str.split("").reduce(..., 0)] *)
Definition hashOf (str : string) : Z :=
  fold_left hashStep (list_ascii_of_string str) 0.

Definition hexDigit (d : Z) : ascii :=
  if d <? 10 then ascii_of_nat (48 + Z.to_nat d)
  else ascii_of_nat (87 + Z.to_nat d).

(** The digits of a non-negative number in base 16, most significant
    first; 8 digits are enough for the magnitude of a 32-bit integer. *)
Fixpoint hexDigits (fuel : nat) (n : Z) (acc : string) : string :=
  match fuel with
  | O => acc
  | S f =>
      if n <? 16 then String (hexDigit n) acc
      else hexDigits f (n / 16) (String (hexDigit (n mod 16)) acc)
  end.

(** [Number.prototype.toString(16)] on an integer. *)
Definition toString16 (n : Z) : string :=
  if n <? 0 then String "-" (hexDigits 8 (- n) EmptyString)
  else hexDigits 8 n EmptyString.

(** [getGameStateHash]: the first six characters of the hash of the
    serialized board, in hexadecimal. *)
Definition getGameStateHash (JSON_stringify : JSON -> string)
    (state : ExtendedGameState) : string :=
  let str :=
    JSON_stringify
      (JArray (map (fun col => JArray (map cellToJSON col)) (board state))) in
  substring 0 6 (toString16 (hashOf str)).

(** The polynomial the hash is the 32-bit image of. *)
Definition polynomial31 (str : string) : Z :=
  fold_left (fun acc c => 31 * acc + Z.of_nat (nat_of_ascii c))
            (list_ascii_of_string str) 0.

(** Reading a hexadecimal digit back. *)
Definition hexDigitValue (a : ascii) : Z :=
  let n := Z.of_nat (nat_of_ascii a) in
  if n <? 58 then n - 48 else n - 87.

Definition hexMagnitude (s : string) : Z :=
  fold_left (fun acc a => 16 * acc + hexDigitValue a)
            (list_ascii_of_string s) 0.

(** [parseInt(s, 16)] on a numeral of lower-case digits with its sign. *)
Definition hexValue (s : string) : Z :=
  match s with
  | String "-" digits => - hexMagnitude digits
  | _ => hexMagnitude s
  end.

End PageView.

(** ** The edge timer *)

(** [EdgeTimer]: a static map from a label to a clock reading, and two
    asynchronous operations that each report to [/api/time].  The readings
    of [Date.now()] and whether the [fetch] failed are inputs; the requests
    sent and the console lines are the effects.  Clock readings are whole
    milliseconds, on which the arithmetic of the source is exact. *)
Module EdgeTimer.
Local Open Scope list_scope.
Local Open Scope Z_scope.

Record Timers : Type := mkTimers {
  timers : list (string * Z);
  fetchStartTime : option Z
}.

Definition noTimers : Timers := mkTimers [] None.

(** [Map.prototype.get], [set] and [delete]. *)
Fixpoint mapGet (label : string) (m : list (string * Z)) : option Z :=
  match m with
  | [] => None
  | (k, v) :: rest => if String.eqb k label then Some v else mapGet label rest
  end.

Fixpoint mapSet (label : string) (v : Z) (m : list (string * Z))
    : list (string * Z) :=
  match m with
  | [] => [(label, v)]
  | (k, x) :: rest =>
      if String.eqb k label then (k, v) :: rest
      else (k, x) :: mapSet label v rest
  end.

Definition mapDelete (label : string) (m : list (string * Z))
    : list (string * Z) :=
  filter (fun kv => negb (String.eqb (fst kv) label)) m.

Inductive Effect : Type :=
  | Fetch (time : Z) (duration : option Z)
  | ConsoleError
  | ConsoleWarn (label : string).

(** What the [catch] around a [fetch] leaves behind. *)
Definition caught (fetchFailed : bool) : list Effect :=
  if fetchFailed then [ConsoleError] else [].

(** [timeStart] up to its [await]: the reading is kept and reported. *)
Definition timeStart_begin (startTime : Z) (st : Timers)
    : Timers * list Effect :=
  (mkTimers (timers st) (Some startTime), [Fetch startTime None]).

(** [timeStart] after its [await], with the second reading. *)
Definition timeStart_resume (label : string) (startTime fetchEndTime : Z)
    (fetchFailed : bool) (st : Timers) : Timers * list Effect :=
  let fetchDuration := fetchEndTime - startTime in
  (mkTimers (mapSet label (startTime + fetchDuration) (timers st))
            (fetchStartTime st),
   caught fetchFailed).

(** [timeEnd]: all it does to the map comes before its [await]. *)
Definition timeEnd (label : string) (endTime : Z) (fetchFailed : bool)
    (st : Timers) : Timers * list Effect * Z :=
  match mapGet label (timers st) with
  | None => (st, [ConsoleWarn label], 0)
  | Some startTime =>
      let duration := endTime - startTime in
      (mkTimers (mapDelete label (timers st)) (fetchStartTime st),
       Fetch endTime (Some duration) :: caught fetchFailed,
       duration)
  end.

(** The steps of the calls in flight, in the order the event loop runs
    them. *)
Inductive TimerEvent : Type :=
  | StartBegins (startTime : Z)
  | StartResumes (label : string) (startTime fetchEndTime : Z)
      (fetchFailed : bool)
  | Ends (label : string) (endTime : Z) (fetchFailed : bool).

Definition timerStep (ev : TimerEvent) (st : Timers)
    : Timers * list Effect :=
  match ev with
  | StartBegins startTime => timeStart_begin startTime st
  | StartResumes label startTime fetchEndTime fetchFailed =>
      timeStart_resume label startTime fetchEndTime fetchFailed st
  | Ends label endTime fetchFailed =>
      fst (timeEnd label endTime fetchFailed st)
  end.

Fixpoint timerRun (evs : list TimerEvent) (st : Timers)
    : Timers * list Effect :=
  match evs with
  | [] => (st, [])
  | ev :: rest =>
      let '(st1, effects1) := timerStep ev st in
      let '(st2, effects2) := timerRun rest st1 in
      (st2, effects1 ++ effects2)
  end.

(** The label an event writes or deletes, if any. *)
Definition labelOf (ev : TimerEvent) : option string :=
  match ev with
  | StartBegins _ => None
  | StartResumes label _ _ _ => Some label
  | Ends label _ _ => Some label
  end.

Definition isStart (ev : TimerEvent) : bool :=
  match ev with StartResumes _ _ _ _ => true | _ => false end.

Definition isReport (e : Effect) : bool :=
  match e with Fetch _ (Some _) => true | _ => false end.

End EdgeTimer.

(** ** The loader of the WASM engine *)

(** [ConnectFourWasm]: the static fields of the class, and [init] as the
    event loop runs it.  The one instance ever made is the value of
    [instance], held with its [wasmModule] field. *)
Module ConnectFourWasm.
Local Open Scope list_scope.

Section Loader.

(** What [initWasm] resolves to, the class of the WASM build, and the
    object [new ConnectFour()] makes. *)
Variable InitOutput : Type.
Variable ConnectFour : Type.
Variable newConnectFour : ConnectFour.

(** [loading] stands for the suspended call of [initializeWasm]: it holds
    from the call of [initWasm] until that promise settles. *)
Record Statics : Type := mkStatics {
  instance : option (option InitOutput);
  game : option ConnectFour;
  loading : bool
}.

Definition initialStatics : Statics := mkStatics None None false.

Inductive Reply : Type :=
  | Resolves
  | Awaits
  | Rejects
  | NoReply.

(** [init] up to its [await]; the number is how often [initWasm] was
    called.  [initializeWasm] calls it when [wasmModule] is not set. *)
Definition init (st : Statics) : Statics * nat * Reply :=
  match instance st with
  | None =>
      let wasmModule : option InitOutput := None in
      match wasmModule with
      | None => (mkStatics (Some wasmModule) (game st) true, 1%nat, Awaits)
      | Some _ => (mkStatics (Some wasmModule) (game st) false, 0%nat, Resolves)
      end
  | Some _ => (st, 0%nat, Resolves)
  end.

(** The promise of [initWasm] settles: with the module, and
    [initializeWasm] and then [init] go on, or with a rejection, which
    both pass on. *)
Definition settle (result : option InitOutput) (st : Statics)
    : Statics * nat * Reply :=
  if loading st then
    match result with
    | Some output =>
        (mkStatics (Some (Some output)) (Some newConnectFour) false, 0%nat,
         Resolves)
    | None => (mkStatics (instance st) (game st) false, 0%nat, Rejects)
    end
  else (st, 0%nat, NoReply).

Inductive InitEvent : Type :=
  | Init
  | Settles (result : option InitOutput).

Definition initStep (ev : InitEvent) (st : Statics) : Statics * nat * Reply :=
  match ev with
  | Init => init st
  | Settles result => settle result st
  end.

Fixpoint initRun (evs : list InitEvent) (st : Statics)
    : Statics * nat * list Reply :=
  match evs with
  | [] => (st, 0%nat, [])
  | ev :: rest =>
      let '(st1, calls1, reply) := initStep ev st in
      let '(st2, calls2, replies) := initRun rest st1 in
      (st2, (calls1 + calls2)%nat, reply :: replies)
  end.

(** A static method: [ConnectFourWasm.game.method(...)], a [TypeError]
    while [game] is undefined. *)
Inductive Outcome (A : Type) : Type :=
  | Returned (a : A)
  | TypeError.

Definition delegate {A : Type} (method : ConnectFour -> A) (st : Statics)
    : Outcome A :=
  match game st with
  | Some g => Returned A (method g)
  | None => TypeError A
  end.

Definition isInit (ev : InitEvent) : bool :=
  match ev with Init => true | Settles _ => false end.

End Loader.

Arguments mkStatics {InitOutput ConnectFour}.
Arguments instance {InitOutput ConnectFour}.
Arguments game {InitOutput ConnectFour}.
Arguments loading {InitOutput ConnectFour}.
Arguments initialStatics {InitOutput ConnectFour}.
Arguments init {InitOutput ConnectFour}.
Arguments settle {InitOutput ConnectFour}.
Arguments Init {InitOutput}.
Arguments Settles {InitOutput}.
Arguments initStep {InitOutput ConnectFour}.
Arguments initRun {InitOutput ConnectFour}.
Arguments Returned {A}.
Arguments TypeError {A}.
Arguments delegate {InitOutput ConnectFour A}.
Arguments isInit {InitOutput}.

End ConnectFourWasm.

(** ** The WASM page *)

(** The page of the WASM engine, from the URL parameter to the state on
    display.  The engine is handed the state object of the page as it is,
    and what it returns is spread into the next state. *)
Module WasmPage.
Import Wasm.
Local Open Scope list_scope.
Local Open Scope Z_scope.

(** What [create_initial_state] and [place_piece] return. *)
Record GameStateJS : Type := mkGameStateJS {
  js_board : list (list WasmCell);
  js_current_player : Color;
  js_is_game_over : bool;
  js_winner : option (option Color)
}.

(** [{ ...g, newestPieceColumn, newestComputerPieceColumn, minimaxQuality }] *)
Definition withExtras (g : GameStateJS)
    (piece computerPiece : option Number)
    (q : Quality) : ExtendedGameState :=
  mkExtended (js_board g) (js_current_player g) (js_is_game_over g)
    (js_winner g) piece computerPiece q.

Inductive Call : Type :=
  | CallGetComputerMove (state : ExtendedGameState) (quality : Quality)
  | CallPlacePiece (state : ExtendedGameState) (column : Z).

(** The state object a call hands to the engine. *)
Definition handedState (c : Call) : ExtendedGameState :=
  match c with
  | CallGetComputerMove st _ => st
  | CallPlacePiece st _ => st
  end.

Definition Run (A : Type) : Type := (list Call * Result A)%type.

Definition ret {A : Type} (a : A) : Run A := ([], Ok a).

Definition bind {A B : Type} (m : Run A) (f : A -> Run B) : Run B :=
  match m with
  | (log, Ok a) => let '(log', r) := f a in (log ++ log', r)
  | (log, Err e) => (log, Err e)
  end.

Section Flow.

Variable create_initial_state : GameStateJS.
Variable place_piece : ExtendedGameState -> Z -> Result GameStateJS.
Variable get_computer_move : ExtendedGameState -> Quality -> Result Z.
Variable uncrush : string -> option string.
Variable JSON_parse : string -> option JSON.

Definition initialState : ExtendedGameState :=
  withExtras create_initial_state None None Best.

(** The [try]/[catch] at the top of the page. *)
Definition loadState (param : option string) : ExtendedGameState :=
  match param with
  | Some text =>
      if String.eqb text EmptyString then initialState
      else
        match Page.decodeWasmState uncrush JSON_parse text with
        | Some st => st
        | None => initialState
        end
  | None => initialState
  end.

(** The computer's move, when it is the computer's turn. *)
Definition computerBlock (gameState : ExtendedGameState)
    : Run ExtendedGameState :=
  if negb (is_game_over gameState)
     && Color_eqb (current_player gameState) Yellow
  then
    bind ([CallGetComputerMove gameState (minimaxQuality gameState)],
          get_computer_move gameState (minimaxQuality gameState))
      (fun computerMove =>
         bind ([CallPlacePiece gameState computerMove],
               place_piece gameState computerMove)
           (fun computerState =>
              ret (withExtras computerState
                     (newestPieceColumn gameState)
                     (Some (Integer computerMove))
                     (minimaxQuality gameState))))
  else ret gameState.

(** The function under [memoize]. *)
Definition nextStateOf (gameState : ExtendedGameState) (column : Z)
    : Run ExtendedGameState :=
  if is_game_over gameState then ret gameState
  else
    bind ([CallPlacePiece gameState column], place_piece gameState column)
      (fun playerState =>
         ret (withExtras playerState (Some (Integer column)) None
                (minimaxQuality gameState))).

End Flow.

End WasmPage.

(** ** The text of a value *)

(** [JSON.stringify] and [JSON.parse] on the values above, as the language
    defines them.  A text is a list of 8-bit characters; a string holds the
    code units up to U+00FF. *)
Module Json.
Local Open Scope char_scope.
Local Open Scope list_scope.

(** *** Decimal digits *)

Definition digitChar (d : N) : ascii := ascii_of_N (48 + d).

Fixpoint digitsFuel (fuel : nat) (n : N) (acc : list ascii) : list ascii :=
  match fuel with
  | O => acc
  | S f =>
      if (n <? 10)%N then digitChar n :: acc
      else digitsFuel f (n / 10)%N (digitChar (n mod 10)%N :: acc)
  end.

(** The decimal digits of a natural number, most significant first. *)
Definition digitsOf (n : N) : list ascii :=
  digitsFuel (S (N.size_nat n)) n [].

Definition isDigit (c : ascii) : bool :=
  ((48 <=? N_of_ascii c) && (N_of_ascii c <=? 57))%N.

Definition valueOfDigits (ds : list ascii) : N :=
  fold_left (fun acc c => (10 * acc + (N_of_ascii c - 48))%N) ds 0%N.

(** *** Numbers *)

Definition lastDigit (d : NonZeroDigit) : N :=
  match d with
  | D1 => 1 | D2 => 2 | D3 => 3 | D4 => 4 | D5 => 5
  | D6 => 6 | D7 => 7 | D8 => 8 | D9 => 9
  end%N.

Definition nonZeroDigit (n : N) : NonZeroDigit :=
  match n with
  | 1 => D1 | 2 => D2 | 3 => D3 | 4 => D4 | 5 => D5
  | 6 => D6 | 7 => D7 | 8 => D8 | _ => D9
  end%N.

(** A natural number without its trailing zeros, and how many it had. *)
Fixpoint stripZeros (fuel : nat) (m : N) : N * nat :=
  match fuel with
  | O => (m, O)
  | S f =>
      if ((m mod 10 =? 0) && negb (m =? 0))%N
      then let '(s, t) := stripZeros f (m / 10)%N in (s, S t)
      else (m, O)
  end.

(** [1.5e+21]: the first digit, the others after a point, the exponent
    with its sign. *)
Definition exponentForm (ds : list ascii) (e : Z) : list ascii :=
  match ds with
  | [] => []
  | d :: more =>
      d :: (match more with [] => [] | _ => "." :: more end)
        ++ "e" :: (if (e <? 0)%Z then "-" else "+")
        :: digitsOf (Z.abs_N e)
  end.

(** [Number::toString]: the digits [s] are written for a number
    [s * 10 ^ (n - k)], [k] their count. *)
Definition decimalText (s : N) (n : Z) : list ascii :=
  let ds := digitsOf s in
  let k := Z.of_nat (length ds) in
  if ((k <=? n) && (n <=? 21))%Z then ds ++ repeat "0" (Z.to_nat (n - k))
  else if ((0 <? n) && (n <=? 21))%Z
  then firstn (Z.to_nat n) ds ++ "." :: skipn (Z.to_nat n) ds
  else if ((-6 <? n) && (n <=? 0))%Z
  then "0" :: "." :: repeat "0" (Z.to_nat (- n)) ++ ds
  else exponentForm ds (n - 1).

(** The text of a finite number; none for an infinity. *)
Definition numberText (x : Number) : option (list ascii) :=
  match x with
  | Integer 0 => Some ["0"]
  | Integer z =>
      let '(s, t) := stripZeros (N.size_nat (Z.abs_N z)) (Z.abs_N z) in
      let n := (Z.of_nat (length (digitsOf s)) + Z.of_nat t)%Z in
      Some ((if (z <? 0)%Z then ["-"] else []) ++ decimalText s n)
  | Fraction negative tens last places =>
      let s := (10 * tens + lastDigit last)%N in
      let n := (Z.of_nat (length (digitsOf s)) - Z.pos places)%Z in
      Some ((if negative then ["-"] else []) ++ decimalText s n)
  | PosInfinity => None
  | NegInfinity => None
  end.

(** *** Strings *)

(** The quotation mark. *)
Definition quoteMark : ascii := ascii_of_N 34.

Definition hexChar (d : N) : ascii :=
  if (d <? 10)%N then ascii_of_N (48 + d) else ascii_of_N (87 + d).

(** [QuoteJSONString], one character. *)
Definition quoteChar (c : ascii) : list ascii :=
  let n := N_of_ascii c in
  if (n =? 8)%N then ["\"; "b"]
  else if (n =? 9)%N then ["\"; "t"]
  else if (n =? 10)%N then ["\"; "n"]
  else if (n =? 12)%N then ["\"; "f"]
  else if (n =? 13)%N then ["\"; "r"]
  else if (n =? 34)%N then ["\"; quoteMark]
  else if (n =? 92)%N then ["\"; "\"]
  else if (n <? 32)%N
  then ["\"; "u"; "0"; "0"; hexChar (n / 16)%N; hexChar (n mod 16)%N]
  else [c].

Definition quote (s : string) : list ascii :=
  quoteMark :: flat_map quoteChar (list_ascii_of_string s) ++ [quoteMark].

(** *** Writing *)

Fixpoint joinWith (sep : ascii) (parts : list (list ascii)) : list ascii :=
  match parts with
  | [] => []
  | [p] => p
  | p :: more => p ++ sep :: joinWith sep more
  end.

(** [SerializeJSONProperty]: an infinity is written [null]. *)
Fixpoint write (v : JSON) : list ascii :=
  match v with
  | JNull => ["n"; "u"; "l"; "l"]
  | JBool true => ["t"; "r"; "u"; "e"]
  | JBool false => ["f"; "a"; "l"; "s"; "e"]
  | JNumber x =>
      match numberText x with
      | Some text => text
      | None => ["n"; "u"; "l"; "l"]
      end
  | JString s => quote s
  | JArray items => "[" :: joinWith "," (map write items) ++ ["]"]
  | JObject fields =>
      "{" :: joinWith ","
               (map (fun kv => quote (fst kv) ++ ":" :: write (snd kv)) fields)
          ++ ["}"]
  end.

Definition stringify (v : JSON) : string := string_of_list_ascii (write v).

(** The value [JSON.parse] gives back for what was written: an infinity
    has become [null]. *)
Fixpoint written (v : JSON) : JSON :=
  match v with
  | JNumber PosInfinity => JNull
  | JNumber NegInfinity => JNull
  | JArray items => JArray (map written items)
  | JObject fields => JObject (map (fun kv => (fst kv, written (snd kv))) fields)
  | _ => v
  end.

(** No object of the value has a key twice, as in every object of the
    language. *)
Fixpoint distinct (keys : list string) : bool :=
  match keys with
  | [] => true
  | k :: more => negb (existsb (String.eqb k) more) && distinct more
  end.

Fixpoint uniqueKeys (v : JSON) : bool :=
  match v with
  | JArray items => forallb uniqueKeys items
  | JObject fields =>
      distinct (map fst fields)
      && forallb (fun kv => uniqueKeys (snd kv)) fields
  | _ => true
  end.

(** *** Reading *)

Definition isWhitespace (c : ascii) : bool :=
  let n := N_of_ascii c in
  ((n =? 32) || (n =? 9) || (n =? 10) || (n =? 13))%N.

Fixpoint skipWhitespace (s : list ascii) : list ascii :=
  match s with
  | c :: rest => if isWhitespace c then skipWhitespace rest else s
  | [] => []
  end.

(** The longest run of digits at the head of a text. *)
Fixpoint spanDigits (s : list ascii) : list ascii * list ascii :=
  match s with
  | c :: rest =>
      if isDigit c
      then let '(ds, rest') := spanDigits rest in (c :: ds, rest')
      else ([], s)
  | [] => ([], [])
  end.

(** The number [m * 10 ^ scale], with the sign: an integer, or a fraction
    with its last digit not 0. *)
Fixpoint reduceFraction (negative : bool) (m : N) (places : nat) : Number :=
  match places with
  | O => Integer (if negative then - Z.of_N m else Z.of_N m)
  | S fewer =>
      if (m mod 10 =? 0)%N then reduceFraction negative (m / 10)%N fewer
      else Fraction negative (m / 10)%N (nonZeroDigit (m mod 10)%N)
             (Pos.of_succ_nat fewer)
  end.

Definition decimalNumber (negative : bool) (m : N) (scale : Z) : Number :=
  if (m =? 0)%N then Integer 0
  else if (0 <=? scale)%Z
  then Integer ((if negative then -1 else 1) * Z.of_N m * 10 ^ scale)
  else reduceFraction negative m (Z.to_nat (- scale)).

Definition leadingZero (ds : list ascii) : bool :=
  match ds with
  | c :: _ :: _ => Ascii.eqb c "0"
  | _ => false
  end.

(** The fraction of a numeral: a point and at least one digit, or
    nothing. *)
Definition parseFraction (s : list ascii)
    : option (list ascii * list ascii) :=
  match s with
  | c :: rest =>
      if Ascii.eqb c "."
      then match spanDigits rest with
           | ([], _) => None
           | (ds, rest') => Some (ds, rest')
           end
      else Some ([], s)
  | [] => Some ([], [])
  end.

(** The exponent of a numeral: [e] or [E], an optional sign and at least
    one digit, or nothing. *)
Definition parseExponent (s : list ascii) : option (Z * list ascii) :=
  match s with
  | c :: rest =>
      if Ascii.eqb c "e" || Ascii.eqb c "E"
      then
        let '(negative, rest1) :=
          match rest with
          | sign :: rest' =>
              if Ascii.eqb sign "-" then (true, rest')
              else if Ascii.eqb sign "+" then (false, rest')
              else (false, rest)
          | [] => (false, rest)
          end in
        match spanDigits rest1 with
        | ([], _) => None
        | (ds, rest') =>
            Some ((if negative then - Z.of_N (valueOfDigits ds)
                   else Z.of_N (valueOfDigits ds))%Z, rest')
        end
      else Some (0%Z, s)
  | [] => Some (0%Z, [])
  end.

(** A numeral without its sign: an integer part without a superfluous
    leading zero, a fraction, an exponent.  It is read as the decimal it
    denotes.  The language goes on to take the nearest number it has (an
    infinity beyond the largest one); that step is not modelled: it changes
    nothing for a numeral that [Number::toString] wrote, which is the
    number that was written. *)
Definition parseDecimal (negative : bool) (s : list ascii)
    : option (Number * list ascii) :=
  match spanDigits s with
  | ([], _) => None
  | (whole, s2) =>
      if leadingZero whole then None
      else
        match parseFraction s2 with
        | None => None
        | Some (fraction, s3) =>
            match parseExponent s3 with
            | None => None
            | Some (e, s4) =>
                Some (decimalNumber negative
                        (valueOfDigits (whole ++ fraction))
                        (e - Z.of_nat (length fraction)),
                      s4)
            end
        end
  end.

(** A numeral, with an optional minus sign. *)
Definition parseNumber (s : list ascii) : option (Number * list ascii) :=
  match s with
  | c :: rest =>
      if Ascii.eqb c "-" then parseDecimal true rest
      else parseDecimal false s
  | [] => None
  end.

Definition hexDigitOf (c : ascii) : option N :=
  let n := N_of_ascii c in
  if ((48 <=? n) && (n <=? 57))%N then Some (n - 48)%N
  else if ((97 <=? n) && (n <=? 102))%N then Some (n - 87)%N
  else if ((65 <=? n) && (n <=? 70))%N then Some (n - 55)%N
  else None.

(** The character an escape stands for, the letter [u] apart. *)
Definition unescape (c : ascii) : option ascii :=
  let n := N_of_ascii c in
  if (n =? 34)%N then Some quoteMark
  else if (n =? 92)%N then Some "\"
  else if (n =? 47)%N then Some "/"
  else if (n =? 98)%N then Some (ascii_of_N 8)
  else if (n =? 102)%N then Some (ascii_of_N 12)
  else if (n =? 110)%N then Some (ascii_of_N 10)
  else if (n =? 114)%N then Some (ascii_of_N 13)
  else if (n =? 116)%N then Some (ascii_of_N 9)
  else None.

(** The characters of a string up to its closing quote.  An escape
    beyond U+00FF has no character in a text of this model and is
    refused. *)
Fixpoint parseChars (s : list ascii) : option (list ascii * list ascii) :=
  match s with
  | [] => None
  | c :: rest =>
      if Ascii.eqb c quoteMark then Some ([], rest)
      else if Ascii.eqb c "\" then
        match rest with
        | e :: rest1 =>
            if Ascii.eqb e "u" then
              match rest1 with
              | h1 :: h2 :: h3 :: h4 :: rest2 =>
                  match hexDigitOf h1, hexDigitOf h2, hexDigitOf h3,
                        hexDigitOf h4 with
                  | Some a, Some b, Some c', Some d =>
                      if ((a =? 0) && (b =? 0))%N then
                        match parseChars rest2 with
                        | Some (cs, rest') =>
                            Some (ascii_of_N (16 * c' + d) :: cs, rest')
                        | None => None
                        end
                      else None
                  | _, _, _, _ => None
                  end
              | _ => None
              end
            else
              match unescape e with
              | Some c' =>
                  match parseChars rest1 with
                  | Some (cs, rest') => Some (c' :: cs, rest')
                  | None => None
                  end
              | None => None
              end
        | [] => None
        end
      else if (N_of_ascii c <? 32)%N then None
      else
        match parseChars rest with
        | Some (cs, rest') => Some (c :: cs, rest')
        | None => None
        end
  end.

(** [CreateDataProperty] on the object under construction: a key that is
    there already keeps its place and takes the new value. *)
Fixpoint setField (k : string) (v : JSON) (o : list (string * JSON))
    : list (string * JSON) :=
  match o with
  | [] => [(k, v)]
  | (k', v') :: rest =>
      if String.eqb k k' then (k', v) :: rest
      else (k', v') :: setField k v rest
  end.

(** The text after a word, when the text starts with it. *)
Fixpoint startsWith (word s : list ascii) : option (list ascii) :=
  match word with
  | [] => Some s
  | w :: more =>
      match s with
      | c :: rest => if Ascii.eqb c w then startsWith more rest else None
      | [] => None
      end
  end.

(** A value and the text that is left; [fuel] bounds the nesting and the
    number of items. *)
Fixpoint parseValue (fuel : nat) (s : list ascii)
    : option (JSON * list ascii) :=
  match fuel with
  | O => None
  | S f =>
      match skipWhitespace s with
      | [] => None
      | c :: rest =>
          if Ascii.eqb c "n" then
            option_map (fun r => (JNull, r)) (startsWith ["u"; "l"; "l"] rest)
          else if Ascii.eqb c "t" then
            option_map (fun r => (JBool true, r))
              (startsWith ["r"; "u"; "e"] rest)
          else if Ascii.eqb c "f" then
            option_map (fun r => (JBool false, r))
              (startsWith ["a"; "l"; "s"; "e"] rest)
          else if Ascii.eqb c quoteMark then
            match parseChars rest with
            | Some (cs, rest') => Some (JString (string_of_list_ascii cs), rest')
            | None => None
            end
          else if Ascii.eqb c "[" then
            match skipWhitespace rest with
            | c' :: rest' =>
                if Ascii.eqb c' "]" then Some (JArray [], rest')
                else
                  match parseElements f rest with
                  | Some (items, rest'') => Some (JArray items, rest'')
                  | None => None
                  end
            | [] => None
            end
          else if Ascii.eqb c "{" then
            match skipWhitespace rest with
            | c' :: rest' =>
                if Ascii.eqb c' "}" then Some (JObject [], rest')
                else
                  match parseMembers f [] rest with
                  | Some (fields, rest'') => Some (JObject fields, rest'')
                  | None => None
                  end
            | [] => None
            end
          else
            match parseNumber (c :: rest) with
            | Some (x, rest') => Some (JNumber x, rest')
            | None => None
            end
      end
  end
with parseElements (fuel : nat) (s : list ascii)
    : option (list JSON * list ascii) :=
  match fuel with
  | O => None
  | S f =>
      match parseValue f s with
      | Some (v, rest) =>
          match skipWhitespace rest with
          | c :: rest' =>
              if Ascii.eqb c "," then
                match parseElements f rest' with
                | Some (vs, rest'') => Some (v :: vs, rest'')
                | None => None
                end
              else if Ascii.eqb c "]" then Some ([v], rest')
              else None
          | [] => None
          end
      | None => None
      end
  end
with parseMembers (fuel : nat) (seen : list (string * JSON))
    (s : list ascii) : option (list (string * JSON) * list ascii) :=
  match fuel with
  | O => None
  | S f =>
      match skipWhitespace s with
      | q :: s1 =>
          if Ascii.eqb q quoteMark then
            match parseChars s1 with
            | Some (cs, s2) =>
                match skipWhitespace s2 with
                | colon :: s3 =>
                    if Ascii.eqb colon ":" then
                      match parseValue f s3 with
                      | Some (v, s4) =>
                          let fields :=
                            setField (string_of_list_ascii cs) v seen in
                          match skipWhitespace s4 with
                          | c :: s5 =>
                              if Ascii.eqb c "," then parseMembers f fields s5
                              else if Ascii.eqb c "}" then Some (fields, s5)
                              else None
                          | [] => None
                          end
                      | None => None
                      end
                    else None
                | [] => None
                end
            | None => None
            end
          else None
      | [] => None
      end
  end.

(** [JSON.parse]: one value, and nothing but white space after it. *)
Definition parse (text : string) : option JSON :=
  let s := list_ascii_of_string text in
  match parseValue (S (length s)) s with
  | Some (v, rest) =>
      match skipWhitespace rest with
      | [] => Some v
      | _ :: _ => None
      end
  | None => None
  end.

End Json.

(** ** States on the wire *)

(** [objectFor v o]: [o] is an object of the language with the fields of
    [v], its keys in any order and each key once. *)
Definition objectFor (v o : JSON) : Prop :=
  sameFields o v /\ Json.uniqueKeys o = true.

(** A column number as it is read back: [JSON.stringify] has written
    [null] for an infinity. *)
Definition writtenColumn (n : option Number) : option Number :=
  match n with
  | Some PosInfinity => None
  | Some NegInfinity => None
  | _ => n
  end.

Definition isFinite (n : option Number) : bool :=
  match n with
  | Some PosInfinity => false
  | Some NegInfinity => false
  | _ => true
  end.

Definition tsWritten (s : Ts.ExtendedGameState) : Ts.ExtendedGameState :=
  Ts.mkExtended (Ts.board s) (Ts.currentPlayer s) (Ts.isGameOver s)
    (Ts.winner s)
    (writtenColumn (Ts.newestPieceColumn s))
    (writtenColumn (Ts.newestComputerPieceColumn s))
    (Ts.minimaxQuality s).

Definition wasmWritten (s : Wasm.ExtendedGameState)
    : Wasm.ExtendedGameState :=
  Wasm.mkExtended (Wasm.board s) (Wasm.current_player s)
    (Wasm.is_game_over s) (Wasm.winner s)
    (writtenColumn (Wasm.newestPieceColumn s))
    (writtenColumn (Wasm.newestComputerPieceColumn s))
    (Wasm.minimaxQuality s).

(** A state the schema accepts that holds an infinity, and the state it
    is read back as. *)
Definition infiniteColumnState : Ts.ExtendedGameState :=
  Ts.withExtras Engine.createInitialState (Some PosInfinity) None Best.

Definition nullColumnState : Ts.ExtendedGameState :=
  Ts.withExtras Engine.createInitialState None None Best.

(** * Proofs *)

Module EngineFacts.
Import Engine.
Local Open Scope Z_scope.

(** ** Columns and cells *)

Lemma Color_eqb_eq (a b : Color) : Color_eqb a b = true <-> a = b.
Proof. destruct a, b; simpl; split; intro H; congruence. Qed.

Lemma Color_eqb_refl (a : Color) : Color_eqb a a = true.
Proof. now destruct a. Qed.

Lemma landingRow_None (col : Column) :
  landingRow col = None <-> ~ In None col.
Proof.
  induction col as [|[p|] rest IH]; simpl.
  - tauto.
  - destruct (landingRow rest); simpl.
    + split; [discriminate|]. intro H. exfalso.
      destruct IH as [_ IH]. 
      assert (A : ~ In None rest) by (intro A; apply H; now right).
      apply IH in A. discriminate.
    + split; [|reflexivity]. intros _ [A|A]; [discriminate|].
      now apply IH.
  - split; [discriminate | intro H; exfalso; apply H; now left].
Qed.

Lemma landingRow_Some (col : Column) (r : nat) :
  landingRow col = Some r ->
  (r < length col)%nat /\ nth r col (Some Red) = None.
Proof.
  revert r; induction col as [|[p|] rest IH]; simpl; intros r H.
  - discriminate.
  - destruct (landingRow rest) as [r'|]; simpl in H; [|discriminate].
    injection H as <-. destruct (IH r' eq_refl). split; [lia|assumption].
  - injection H as <-. split; [lia|reflexivity].
Qed.

Lemma hasRoom_landingRow (col : Column) :
  hasRoom col = true <-> exists r, landingRow col = Some r.
Proof.
  induction col as [|[p|] rest IH]; simpl.
  - split; [discriminate | intros [r H]; discriminate].
  - rewrite IH. split; intros [r H].
    + rewrite H. now exists (S r).
    + destruct (landingRow rest) as [r'|]; [now exists r' | discriminate].
  - split; [now exists O | reflexivity].
Qed.

Lemma replaceNth_length {A : Type} (n : nat) (x : A) (l : list A) :
  length (replaceNth n x l) = length l.
Proof.
  revert n; induction l as [|h t IH]; intros [|n]; simpl; auto.
Qed.

Lemma nth_replaceNth_same {A : Type} (n : nat) (x d : A) (l : list A) :
  (n < length l)%nat -> nth n (replaceNth n x l) d = x.
Proof.
  revert n; induction l as [|h t IH]; intros [|n]; simpl; intro H;
    try lia; auto. apply IH. lia.
Qed.

Lemma nth_replaceNth_other {A : Type} (n m : nat) (x d : A) (l : list A) :
  m <> n -> nth m (replaceNth n x l) d = nth m l d.
Proof.
  revert n m; induction l as [|h t IH]; intros [|n] [|m]; simpl; intro H;
    try congruence; auto.
Qed.

Lemma In_replaceNth {A : Type} (n : nat) (x y : A) (l : list A) :
  In y (replaceNth n x l) -> ((n < length l)%nat /\ y = x) \/ In y l.
Proof.
  revert n; induction l as [|h t IH]; intros [|n]; simpl; try tauto.
  - intros [H|H]; auto. left. split; [lia|auto].
  - intros [H|H]; auto. destruct (IH _ H) as [[L E]|Hin]; auto.
    left. split; [lia|auto].
Qed.

Lemma cellAt_placeAt_same (b : Board) (c r : nat) (v : Cell) :
  (c < length b)%nat -> (r < length (nth c b []))%nat ->
  cellAt (placeAt b c r v) (Z.of_nat c) (Z.of_nat r) = v.
Proof.
  intros Hc Hr. unfold cellAt, placeAt.
  replace ((0 <=? Z.of_nat c) && (0 <=? Z.of_nat r)) with true
    by (symmetry; apply andb_true_iff; split; apply Z.leb_le; lia).
  rewrite !Nat2Z.id.
  rewrite nth_replaceNth_same by assumption.
  now apply nth_replaceNth_same.
Qed.

Lemma cellAt_placeAt_other (b : Board) (c r : nat) (v : Cell) (x y : Z) :
  (x <> Z.of_nat c \/ y <> Z.of_nat r) ->
  cellAt (placeAt b c r v) x y = cellAt b x y.
Proof.
  intros H. unfold cellAt, placeAt.
  destruct ((0 <=? x) && (0 <=? y)) eqn:E; [|reflexivity].
  apply andb_true_iff in E. destruct E as [Ex Ey].
  apply Z.leb_le in Ex. apply Z.leb_le in Ey.
  destruct (Nat.eq_dec (Z.to_nat x) c) as [Hx|Hx].
  - rewrite Hx.
    destruct (Nat.lt_ge_cases c (length b)) as [L|L].
    + rewrite nth_replaceNth_same by assumption.
      apply nth_replaceNth_other. lia.
    + rewrite (nth_overflow (replaceNth c _ b) [])
        by (rewrite replaceNth_length; assumption).
      now rewrite (nth_overflow b [] L).
  - now rewrite nth_replaceNth_other.
Qed.

Lemma isColor_placeAt_other (b : Board) (c r : nat) (v : Cell) (p : Color)
    (x y : Z) :
  (x <> Z.of_nat c \/ y <> Z.of_nat r) ->
  isColor (placeAt b c r v) p x y = isColor b p x y.
Proof.
  intro H. unfold isColor. now rewrite cellAt_placeAt_other.
Qed.

Lemma boardShape_spec (b : Board) :
  boardShape b = true <->
  length b = COLS /\ forall col, In col b -> length col = ROWS.
Proof.
  unfold boardShape. rewrite andb_true_iff, Nat.eqb_eq, forallb_forall.
  split; intros [H1 H2]; split; auto; intros col Hin.
  - apply Nat.eqb_eq. auto.
  - apply Nat.eqb_eq. auto.
Qed.

Lemma boardShape_placeAt (b : Board) (c r : nat) (v : Cell) :
  boardShape b = true -> boardShape (placeAt b c r v) = true.
Proof.
  rewrite !boardShape_spec. intros [H1 H2]. unfold placeAt. split.
  - now rewrite replaceNth_length.
  - intros col Hin. apply In_replaceNth in Hin.
    destruct Hin as [[L ->]|Hin]; auto.
    rewrite replaceNth_length. apply H2. now apply nth_In.
Qed.

Lemma isColor_true (b : Board) (p : Color) (c r : Z) :
  isColor b p c r = true <-> cellAt b c r = Some p.
Proof.
  unfold isColor. destruct (cellAt b c r) as [q|].
  - rewrite Color_eqb_eq. split; congruence.
  - split; discriminate.
Qed.

Lemma cellAt_in_bounds (b : Board) (c r : Z) (p : Color) :
  boardShape b = true -> cellAt b c r = Some p ->
  0 <= c < 7 /\ 0 <= r < 6.
Proof.
  rewrite boardShape_spec. intros [H1 H2]. unfold cellAt.
  destruct ((0 <=? c) && (0 <=? r)) eqn:E; [|discriminate].
  apply andb_true_iff in E. destruct E as [Ec Er].
  apply Z.leb_le in Ec. apply Z.leb_le in Er. intro H.
  destruct (Nat.lt_ge_cases (Z.to_nat c) (length b)) as [L|L].
  - pose proof (H2 _ (nth_In b [] L)) as H3.
    destruct (Nat.lt_ge_cases (Z.to_nat r) (length (nth (Z.to_nat c) b [])))
      as [L'|L'].
    + unfold COLS, ROWS in *. lia.
    + rewrite nth_overflow in H by exact L'. discriminate.
  - rewrite (nth_overflow b [] L) in H. destruct (Z.to_nat r); discriminate.
Qed.

(** ** The detector and the full-board scan *)

(** The walk reaches at least [n] cells exactly when the [n] cells next to
    the start, along the direction, all hold the color. *)
Lemma countDir_ge (b : Board) (p : Color) (dc dr : Z) (fuel : nat) :
  forall (n : nat) (c r : Z), (n <= fuel)%nat ->
  ((n <= countDir fuel b p c r dc dr)%nat <->
   forall i, 1 <= i <= Z.of_nat n ->
             isColor b p (c + i * dc) (r + i * dr) = true).
Proof.
  induction fuel as [|f IH]; intros n c r Hn.
  - assert (n = O) by lia. subst n. simpl. split; [intros _ i Hi; lia | lia].
  - destruct n as [|n].
    + split; [intros _ i Hi; lia | lia].
    + simpl countDir.
      destruct (isColor b p (c + dc) (r + dr)) eqn:E.
      * rewrite <- Nat.succ_le_mono. rewrite (IH n (c + dc) (r + dr)) by lia.
        split; intros H i Hi.
        -- destruct (Z.eq_dec i 1) as [->|Hne].
           ++ now rewrite !Z.mul_1_l.
           ++ replace (c + i * dc) with (c + dc + (i - 1) * dc) by ring.
              replace (r + i * dr) with (r + dr + (i - 1) * dr) by ring.
              apply H. lia.
        -- replace (c + dc + i * dc) with (c + (i + 1) * dc) by ring.
           replace (r + dr + i * dr) with (r + (i + 1) * dr) by ring.
           apply H. lia.
      * split; [lia|]. intro H. specialize (H 1 ltac:(lia)).
        rewrite !Z.mul_1_l in H. congruence.
Qed.

(** Fuel is no limit.  A walk that stopped before the fuel ran out is the
    same with more fuel, and a walk from a cell of a 7 x 6 board stops within
    6 steps. *)
Lemma countDir_stable (b : Board) (p : Color) (dc dr : Z) (fuel : nat) :
  forall (c r : Z) (extra : nat),
    (countDir fuel b p c r dc dr < fuel)%nat ->
    countDir (fuel + extra) b p c r dc dr = countDir fuel b p c r dc dr.
Proof.
  induction fuel as [|f IH]; intros c r extra H; [simpl in H; lia|].
  simpl in *. destruct (isColor b p (c + dc) (r + dr)); [|reflexivity].
  f_equal. apply IH. lia.
Qed.

Lemma countDir_short (b : Board) (p : Color) (c r dc dr : Z) :
  boardShape b = true -> 0 <= c < 7 -> 0 <= r < 6 -> dc <> 0 \/ dr <> 0 ->
  (countDir walkFuel b p c r dc dr < walkFuel)%nat.
Proof.
  intros Hs Hc Hr Hd. unfold walkFuel.
  destruct (Nat.lt_ge_cases (countDir 7 b p c r dc dr) 7) as [L|L];
    [exact L|exfalso].
  pose proof (proj1 (countDir_ge b p dc dr 7 7 c r (Nat.le_refl 7)) L) as A.
  specialize (A 7 ltac:(lia)). apply isColor_true in A.
  apply (cellAt_in_bounds _ _ _ _ Hs) in A. lia.
Qed.

Lemma In_0123 (i : Z) : In i [0; 1; 2; 3] <-> 0 <= i <= 3.
Proof. simpl. lia. Qed.

Lemma lineOf4_spec (b : Board) (p : Color) (c r : Z) (d : Z * Z) :
  lineOf4 b p c r d = true <->
  forall i, 0 <= i <= 3 ->
            isColor b p (c + i * fst d) (r + i * snd d) = true.
Proof.
  unfold lineOf4. rewrite forallb_forall.
  split; intros H i Hi; apply H; now apply In_0123.
Qed.

Ltac same_cell H :=
  match type of H with
  | isColor ?b ?p ?x ?y = true =>
      match goal with
      | |- isColor b p ?x' ?y' = true =>
          replace x' with x by ring; replace y' with y by ring; exact H
      end
  end.

(** The directional walk of the detector finds a run of four on an axis
    exactly when a line of four on that axis passes through the placed
    cell. *)
Lemma axis_win_iff (b : Board) (p : Color) (c r : Z) (d : Z * Z) :
  isColor b p c r = true ->
  ((4 <= axisCount b p c r d)%nat <-> through b p c r d).
Proof.
  intro Hc. destruct d as [dc dr]. unfold axisCount, through, walkFuel.
  simpl fst; simpl snd. split.
  - intro H.
    set (a := countDir 7 b p c r dc dr) in *.
    set (bk := countDir 7 b p c r (- dc) (- dr)) in *.
    pose (kb := Nat.min bk 3).
    assert (Hb : (kb <= bk)%nat) by (unfold kb; lia).
    assert (Ha : (3 - kb <= a)%nat) by (unfold kb; lia).
    assert (K7 : (kb <= 7)%nat) by (unfold kb; lia).
    assert (K7' : (3 - kb <= 7)%nat) by lia.
    pose proof (proj1 (countDir_ge b p (- dc) (- dr) 7 kb c r K7) Hb) as Hb'.
    pose proof (proj1 (countDir_ge b p dc dr 7 (3 - kb) c r K7') Ha) as Ha'.
    clear Hb Ha. rename Hb' into Hb. rename Ha' into Ha.
    exists (Z.of_nat kb). split; [unfold kb; lia|].
    apply lineOf4_spec. simpl fst; simpl snd. intros i Hi.
    destruct (Z.compare_spec i (Z.of_nat kb)) as [E|L|G].
    + subst i. same_cell Hc.
    + pose proof (Hb (Z.of_nat kb - i) ltac:(lia)) as X. same_cell X.
    + pose proof (Ha (i - Z.of_nat kb) ltac:(unfold kb in *; lia)) as X.
      same_cell X.
  - intros (k & Hk & H). rewrite lineOf4_spec in H. simpl fst in H; simpl snd in H.
    assert (Ha : (Z.to_nat (3 - k) <= countDir 7 b p c r dc dr)%nat).
    { apply countDir_ge; [lia|]. intros i Hi.
      pose proof (H (k + i) ltac:(lia)) as X. same_cell X. }
    assert (Hb : (Z.to_nat k <= countDir 7 b p c r (- dc) (- dr))%nat).
    { apply countDir_ge; [lia|]. intros i Hi.
      pose proof (H (k - i) ltac:(lia)) as X. same_cell X. }
    lia.
Qed.

Lemma isWinningMove_iff (b : Board) (p : Color) (c r : Z) :
  isColor b p c r = true ->
  (isWinningMove b p c r = true <->
   exists d, In d axes /\ through b p c r d).
Proof.
  intro Hc. unfold isWinningMove. rewrite existsb_exists.
  split; intros (d & Hd & H); exists d; split; auto.
  - apply Nat.leb_le in H. now apply axis_win_iff in H.
  - apply Nat.leb_le. now apply axis_win_iff.
Qed.

Lemma hasFour_iff (b : Board) (p : Color) :
  boardShape b = true ->
  (hasFour b p = true <->
   exists c r d, In d axes /\ lineOf4 b p c r d = true).
Proof.
  intro Hs. unfold hasFour. rewrite existsb_exists. split.
  - intros ([c r] & _ & H). apply existsb_exists in H.
    destruct H as (d & Hd & H). now exists c, r, d.
  - intros (c & r & d & Hd & H). exists (c, r). split.
    + pose proof H as H0. rewrite lineOf4_spec in H0.
      specialize (H0 0 ltac:(lia)). rewrite !Z.mul_0_l, !Z.add_0_r in H0.
      apply isColor_true in H0.
      destruct (cellAt_in_bounds _ _ _ _ Hs H0) as [Bc Br].
      unfold allCells. apply in_prod; simpl; lia.
    + apply existsb_exists. now exists d.
Qed.

Lemma existsb_false {A : Type} (f : A -> bool) (l : list A) :
  existsb f l = false -> forall x, In x l -> f x = false.
Proof.
  intros H x Hin. destruct (f x) eqn:E; [|reflexivity].
  rewrite <- H. symmetry. apply existsb_exists. now exists x.
Qed.

(** After a piece is placed, a line of four either was already there or
    passes through the new piece and has its color. *)
Lemma line_after_place (b : Board) (c r : nat) (p q : Color) (x y : Z)
    (d : Z * Z) :
  (c < length b)%nat -> (r < length (nth c b []))%nat ->
  lineOf4 (placeAt b c r (Some p)) q x y d = true ->
  lineOf4 b q x y d = true \/
  (q = p /\ through (placeAt b c r (Some p)) p (Z.of_nat c) (Z.of_nat r) d).
Proof.
  intros Hc Hr H.
  pose (hit := fun i => (x + i * fst d =? Z.of_nat c)
                        && (y + i * snd d =? Z.of_nat r)).
  destruct (existsb hit [0; 1; 2; 3]) eqn:E.
  - right. apply existsb_exists in E. destruct E as (i & Hi & E).
    apply In_0123 in Hi. unfold hit in E. apply andb_true_iff in E.
    destruct E as [Ex Ey]. apply Z.eqb_eq in Ex. apply Z.eqb_eq in Ey.
    assert (q = p) as ->.
    { rewrite lineOf4_spec in H. specialize (H i Hi). rewrite Ex, Ey in H.
      apply isColor_true in H. rewrite cellAt_placeAt_same in H by assumption.
      congruence. }
    split; [reflexivity|]. exists i. split; [assumption|].
    replace (Z.of_nat c - i * fst d) with x by lia.
    replace (Z.of_nat r - i * snd d) with y by lia. exact H.
  - left. rewrite lineOf4_spec in *. intros i Hi.
    rewrite <- (isColor_placeAt_other b c r (Some p)); [now apply H|].
    pose proof (existsb_false _ _ E i (proj2 (In_0123 i) Hi)) as F.
    unfold hit in F. apply andb_false_iff in F.
    destruct F as [F|F]; apply Z.eqb_neq in F; auto.
Qed.

Lemma landingRow_in_board (b : Board) (c r : nat) :
  landingRow (nth c b []) = Some r ->
  (c < length b)%nat /\ (r < length (nth c b []))%nat.
Proof.
  intro H. destruct (landingRow_Some _ _ H) as [L _]. split; [|exact L].
  destruct (Nat.lt_ge_cases c (length b)) as [Lc|Lc]; [exact Lc|].
  rewrite (nth_overflow b [] Lc) in L. simpl in L. lia.
Qed.

(** ** Reachable states *)

(** What a successful move looks like. *)
Lemma applyMove_Ok (s s' : GameState) (column : Z) :
  applyMove s column = Ok s' ->
  isGameOver s = false /\ 0 <= column <= 6 /\
  exists r,
    landingRow (nth (Z.to_nat column) (board s) []) = Some r /\
    board s' = placeAt (board s) (Z.to_nat column) r (Some (currentPlayer s)) /\
    if isWinningMove (board s') (currentPlayer s) column (Z.of_nat r)
    then isGameOver s' = true /\ winner s' = Some (currentPlayer s)
         /\ currentPlayer s' = currentPlayer s
    else winner s' = None /\ isGameOver s' = boardFull (board s')
         /\ currentPlayer s' =
            if boardFull (board s') then currentPlayer s
            else other (currentPlayer s).
Proof.
  unfold applyMove. destruct (isGameOver s); [discriminate|].
  destruct ((column <? 0) || (6 <? column)) eqn:E; [discriminate|].
  apply orb_false_iff in E. destruct E as [E1 E2].
  apply Z.ltb_ge in E1. apply Z.ltb_ge in E2.
  destruct (landingRow (nth (Z.to_nat column) (board s) [])) as [r|] eqn:L;
    [|discriminate].
  unfold detect. intro H. split; [reflexivity|]. split; [lia|]. exists r.
  split; [reflexivity|].
  destruct (isWinningMove _ _ _ _) eqn:W.
  - injection H as <-. simpl. rewrite W. auto.
  - destruct (boardFull _) eqn:F; injection H as <-; simpl; rewrite W, F; auto.
Qed.

Lemma cellAt_In (b : Board) (c r : Z) (p : Color) :
  cellAt b c r = Some p -> exists col, In col b /\ In (Some p) col.
Proof.
  unfold cellAt. destruct ((0 <=? c) && (0 <=? r)); [|discriminate].
  intro H.
  destruct (Nat.lt_ge_cases (Z.to_nat c) (length b)) as [L|L].
  - exists (nth (Z.to_nat c) b []). split; [now apply nth_In|].
    destruct (Nat.lt_ge_cases (Z.to_nat r) (length (nth (Z.to_nat c) b [])))
      as [L'|L'].
    + rewrite <- H. now apply nth_In.
    + rewrite nth_overflow in H by exact L'. discriminate.
  - rewrite (nth_overflow b [] L) in H. destruct (Z.to_nat r); discriminate.
Qed.

Lemma Inv_initial : Inv createInitialState.
Proof.
  split; [reflexivity|]. intros _. split; [|reflexivity].
  intros p c r d _. destruct (lineOf4 _ p c r d) eqn:E; [exfalso|reflexivity].
  rewrite lineOf4_spec in E. specialize (E 0 ltac:(lia)).
  apply isColor_true in E. apply cellAt_In in E.
  destruct E as (col & H1 & H2). unfold createInitialState, board in H1.
  apply repeat_spec in H1. subst col. apply repeat_spec in H2. discriminate.
Qed.

Lemma placed_isColor (b : Board) (column : Z) (r : nat) (p : Color) :
  0 <= column ->
  landingRow (nth (Z.to_nat column) b []) = Some r ->
  isColor (placeAt b (Z.to_nat column) r (Some p)) p column (Z.of_nat r) = true.
Proof.
  intros Hc L. apply landingRow_in_board in L. destruct L as [L1 L2].
  apply isColor_true.
  rewrite <- (Z2Nat.id column) at 2 by assumption.
  now apply cellAt_placeAt_same.
Qed.

Lemma Inv_step (s s' : GameState) (c : Z) :
  Inv s -> applyMove s c = Ok s' -> Inv s'.
Proof.
  intros [Hs Hn] H. apply applyMove_Ok in H.
  destruct H as (Hover & Hc & r & L & Hb & Hw).
  specialize (Hn Hover). destruct Hn as [Hn _].
  split; [rewrite Hb; now apply boardShape_placeAt|].
  intro Hover'. rewrite Hb in *.
  destruct (isWinningMove _ _ _ _) eqn:W.
  - destruct Hw as [Hw _]. congruence.
  - destruct Hw as (_ & Hw & _). split; [|congruence].
    intros q x y d Hd.
    destruct (lineOf4 _ q x y d) eqn:E; [exfalso|reflexivity].
    destruct (landingRow_in_board _ _ _ L) as [L1 L2].
    apply line_after_place in E; try assumption.
    destruct E as [E|[-> E]].
    + rewrite (Hn q x y d Hd) in E. discriminate.
    + rewrite Z2Nat.id in E by lia.
      assert (isWinningMove
                (placeAt (board s) (Z.to_nat c) r (Some (currentPlayer s)))
                (currentPlayer s) c (Z.of_nat r) = true).
      { apply isWinningMove_iff; [apply placed_isColor; [lia|assumption]|].
        now exists d. }
      congruence.
Qed.

Lemma reachable_Inv (s : GameState) : reachable s -> Inv s.
Proof.
  induction 1 as [|s s' c _ IH H]; [apply Inv_initial|].
  exact (Inv_step s s' c IH H).
Qed.

Lemma NoFour_hasFour (b : Board) (p : Color) :
  boardShape b = true -> NoFour b -> hasFour b p = false.
Proof.
  intros Hs Hn. destruct (hasFour b p) eqn:E; [exfalso|reflexivity].
  apply hasFour_iff in E; [|assumption].
  destruct E as (c & r & d & Hd & E). rewrite (Hn p c r d Hd) in E.
  discriminate.
Qed.

(** One move: the game is won by the mover exactly when the move put four
    of the mover's pieces in a row on the board. *)
Lemma win_iff_four (s s' : GameState) (c : Z) :
  reachable s -> applyMove s c = Ok s' ->
  (isGameOver s' = true /\ winner s' = Some (currentPlayer s) <->
   hasFour (board s') (currentPlayer s) = true).
Proof.
  intros R H. pose proof (reachable_Inv s R) as [Hs Hn].
  pose proof (Inv_step s s' c (conj Hs Hn) H) as [Hs' _].
  apply applyMove_Ok in H. destruct H as (Hover & Hc & r & L & Hb & Hw).
  specialize (Hn Hover). destruct Hn as [Hn _].
  rewrite hasFour_iff by assumption.
  pose proof (placed_isColor (board s) c r (currentPlayer s) (proj1 Hc) L) as P.
  rewrite <- Hb in P.
  destruct (isWinningMove _ _ _ _) eqn:W.
  - destruct Hw as (H1 & H2 & _). split; [intros _|auto].
    apply isWinningMove_iff in W; [|assumption].
    destruct W as (d & Hd & k & Hk & W). eauto.
  - destruct Hw as (H1 & _). split; [intros [_ H2]; congruence|].
    intros (x & y & d & Hd & E). exfalso.
    destruct (landingRow_in_board _ _ _ L) as [L1 L2].
    rewrite Hb in E. apply line_after_place in E; try assumption.
    destruct E as [E|[_ E]].
    + rewrite (Hn _ x y d Hd) in E. discriminate.
    + rewrite Z2Nat.id in E by lia. rewrite <- Hb in E.
      assert (isWinningMove (board s') (currentPlayer s) c (Z.of_nat r) = true).
      { apply isWinningMove_iff; [assumption|]. now exists d. }
      congruence.
Qed.

Lemma play_app (s : GameState) (ms ns : list Z) :
  play s (ms ++ ns) =
  match play s ms with
  | Ok t => play t ns
  | Err e => Err e
  end.
Proof.
  revert s; induction ms as [|m ms IH]; intro s; simpl; [reflexivity|].
  destruct (applyMove s m); [apply IH | reflexivity].
Qed.

Lemma reachable_play (s t : GameState) (ms : list Z) :
  reachable s -> play s ms = Ok t -> reachable t.
Proof.
  revert s; induction ms as [|m ms IH]; intros s R; simpl.
  - now intros [= <-].
  - destruct (applyMove s m) as [s1|e] eqn:E; [|discriminate].
    apply IH. exact (reach_step s s1 m R E).
Qed.

Lemma play_prefix_alive (s s' : GameState) (pre suf : list Z) :
  reachable s -> play s (pre ++ suf) = Ok s' -> suf <> [] ->
  exists t, play s pre = Ok t /\ isGameOver t = false /\
            forall q, hasFour (board t) q = false.
Proof.
  intros R H Hsuf. rewrite play_app in H.
  destruct (play s pre) as [t|e] eqn:E; [|discriminate].
  exists t. split; [reflexivity|].
  destruct suf as [|m rest]; [congruence|]. simpl in H.
  destruct (applyMove t m) as [t'|e] eqn:A; [|discriminate].
  apply applyMove_Ok in A. destruct A as [Hover _].
  split; [assumption|]. intro q.
  destruct (reachable_Inv t (reachable_play _ _ _ R E)) as [Hs Hn].
  apply NoFour_hasFour; [assumption|]. now apply Hn.
Qed.

(** C1. A win is reported exactly on the completing move.  For every
    legal sequence of moves from the initial state, the state produced by the
    last move is over with the mover as winner if and only if the board now
    holds four of the mover's pieces in a row on one of the four axes; every
    earlier state of the sequence is not over and holds no four in a row of
    either color.  The moves 0, 0, 1, 1, 2, 2, 3 end the game with the
    first player as winner. *)
Theorem win_reported_on_completing_move :
  (forall (ms : list Z) (col : Z) (s' : GameState),
     play createInitialState (ms ++ [col]) = Ok s' ->
     exists s,
       play createInitialState ms = Ok s /\
       applyMove s col = Ok s' /\
       (isGameOver s' = true /\ winner s' = Some (currentPlayer s) <->
        hasFour (board s') (currentPlayer s) = true) /\
       (forall pre suf, ms ++ [col] = pre ++ suf -> suf <> [] ->
          exists t, play createInitialState pre = Ok t /\
                    isGameOver t = false /\
                    forall q, hasFour (board t) q = false)) /\
  (exists s7,
     play createInitialState [0; 0; 1; 1; 2; 2; 3] = Ok s7 /\
     isGameOver s7 = true /\
     winner s7 = Some (currentPlayer createInitialState)).
Proof.
  split.
  - intros ms col s' H. pose proof H as H0. rewrite play_app in H0.
    destruct (play createInitialState ms) as [s|e] eqn:E; [|discriminate].
    simpl in H0. destruct (applyMove s col) as [t|e] eqn:A; [|discriminate].
    injection H0 as ->. exists s. split; [reflexivity|]. split; [exact A|].
    split.
    + apply (win_iff_four s s' col); [|exact A].
      exact (reachable_play _ _ _ reach_init E).
    + intros pre suf Heq Hsuf. rewrite Heq in H.
      exact (play_prefix_alive _ _ _ _ reach_init H Hsuf).
  - eexists. split; [vm_compute; reflexivity|]. split; reflexivity.
Qed.

Lemma win_reported_on_completing_move_witness :
  exists s,
    play createInitialState [0; 0; 1; 1; 2; 2] = Ok s /\
    applyMove s 3 = Ok (stateAfter [0; 0; 1; 1; 2; 2; 3]) /\
    (isGameOver (stateAfter [0; 0; 1; 1; 2; 2; 3]) = true /\
     winner (stateAfter [0; 0; 1; 1; 2; 2; 3]) = Some (currentPlayer s) <->
     hasFour (board (stateAfter [0; 0; 1; 1; 2; 2; 3])) (currentPlayer s) = true).
Proof.
  destruct (proj1 win_reported_on_completing_move
              [0; 0; 1; 1; 2; 2] 3 (stateAfter [0; 0; 1; 1; 2; 2; 3])
              eq_refl) as (s & H1 & H2 & H3 & _).
  exists s. auto.
Defined.

(** The detector on each of the four axes, and not a move too early. *)
Example horizontal_win :
  isGameOver (stateAfter [0; 0; 1; 1; 2; 2]) = false /\
  winner (stateAfter [0; 0; 1; 1; 2; 2; 3]) = Some Red.
Proof. split; reflexivity. Qed.

Example vertical_win :
  isGameOver (stateAfter [0; 1; 0; 1; 0; 1]) = false /\
  winner (stateAfter [0; 1; 0; 1; 0; 1; 0]) = Some Red.
Proof. split; reflexivity. Qed.

Example ascending_win :
  isGameOver (stateAfter [0; 1; 1; 2; 2; 3; 2; 3; 3; 6]) = false /\
  winner (stateAfter [0; 1; 1; 2; 2; 3; 2; 3; 3; 6; 3]) = Some Red.
Proof. split; reflexivity. Qed.

Example descending_win :
  isGameOver (stateAfter [6; 5; 5; 4; 4; 3; 4; 3; 3; 0]) = false /\
  winner (stateAfter [6; 5; 5; 4; 4; 3; 4; 3; 3; 0; 3]) = Some Red.
Proof. split; reflexivity. Qed.

Example yellow_win :
  winner (stateAfter [6; 0; 6; 1; 5; 2; 5; 3]) = Some Yellow /\
  play createInitialState [6; 0; 6; 1; 5; 2; 5; 3; 4] = Err GameAlreadyOver.
Proof. split; reflexivity. Qed.

(** A full board without four in a row is a draw, on the last move. *)
Definition drawnGame : list Z :=
  repeat 0 6 ++ repeat 1 6 ++ repeat 2 6 ++ [6]
  ++ repeat 3 6 ++ repeat 4 6 ++ repeat 5 6 ++ repeat 6 5.

Example full_board_draw :
  isGameOver (stateAfter (removelast drawnGame)) = false /\
  isGameOver (stateAfter drawnGame) = true /\
  winner (stateAfter drawnGame) = None /\
  boardFull (board (stateAfter drawnGame)) = true.
Proof. repeat split; reflexivity. Qed.

(** C2. The failures of [applyMove], in the order of the contract: a
    terminal state fails with GameAlreadyOver; otherwise an index outside
    [0, 6] fails with InvalidColumn; otherwise a column without an Empty cell
    fails with ColumnFull; otherwise the move succeeds with a new state whose
    board is the old one with the mover's piece in the lowest Empty cell of
    the column, every other cell as it was.  The input state is a value and
    is not touched. *)
Theorem applyMove_contract (s : GameState) (column : Z) :
  (isGameOver s = true -> applyMove s column = Err GameAlreadyOver) /\
  (isGameOver s = false -> column < 0 \/ 6 < column ->
   applyMove s column = Err InvalidColumn) /\
  (isGameOver s = false -> 0 <= column <= 6 ->
   ~ In None (nth (Z.to_nat column) (board s) []) ->
   applyMove s column = Err ColumnFull) /\
  (isGameOver s = false -> 0 <= column <= 6 ->
   In None (nth (Z.to_nat column) (board s) []) ->
   exists s' r,
     applyMove s column = Ok s' /\
     cellAt (board s) column r = None /\
     cellAt (board s') column r = Some (currentPlayer s) /\
     forall x y, x <> column \/ y <> r ->
                 cellAt (board s') x y = cellAt (board s) x y).
Proof.
  split; [|split; [|split]].
  - unfold applyMove. now intros ->.
  - unfold applyMove. intros -> H.
    replace ((column <? 0) || (6 <? column)) with true; [reflexivity|].
    symmetry. apply orb_true_iff. destruct H; [left|right]; now apply Z.ltb_lt.
  - unfold applyMove. intros -> H Hfull.
    replace ((column <? 0) || (6 <? column)) with false
      by (symmetry; apply orb_false_iff; split; apply Z.ltb_ge; lia).
    apply landingRow_None in Hfull. now rewrite Hfull.
  - intros Hover H Hroom.
    destruct (landingRow (nth (Z.to_nat column) (board s) [])) as [r|] eqn:L;
      [|apply landingRow_None in L; contradiction].
    destruct (landingRow_in_board _ _ _ L) as [L1 L2].
    destruct (landingRow_Some _ _ L) as [_ L3].
    assert (exists s', applyMove s column = Ok s' /\
              board s' = placeAt (board s) (Z.to_nat column) r
                           (Some (currentPlayer s))) as (s' & A & Hb).
    { unfold applyMove. rewrite Hover.
      replace ((column <? 0) || (6 <? column)) with false
        by (symmetry; apply orb_false_iff; split; apply Z.ltb_ge; lia).
      rewrite L. destruct (detect _ _ _ _); eexists; split; reflexivity. }
    exists s', (Z.of_nat r). split; [exact A|].
    rewrite Hb. split; [|split].
    + unfold cellAt.
      replace ((0 <=? column) && (0 <=? Z.of_nat r)) with true
        by (symmetry; apply andb_true_iff; split; apply Z.leb_le; lia).
      rewrite Nat2Z.id. rewrite <- L3. now apply nth_indep.
    + rewrite <- (Z2Nat.id column) at 2 by lia. now apply cellAt_placeAt_same.
    + intros x y Hxy. apply cellAt_placeAt_other. lia.
Qed.

Lemma applyMove_contract_witness :
  exists s' r,
    applyMove createInitialState 3 = Ok s' /\
    cellAt (board createInitialState) 3 r = None /\
    cellAt (board s') 3 r = Some Red /\
    forall x y, x <> 3 \/ y <> r ->
                cellAt (board s') x y = cellAt (board createInitialState) x y.
Proof.
  apply (proj2 (proj2 (proj2 (applyMove_contract createInitialState 3)))).
  - reflexivity.
  - lia.
  - simpl. auto.
Defined.

End EngineFacts.

Module SearchFacts.
Import Engine Search EngineFacts.
Local Open Scope Z_scope.

(** ** Pruning does not change the choice *)

(** What a pruned value [v] tells about the exact value [m] under the
    window (alpha, beta): an exact value at or below alpha is reported at or
    below alpha, one at or above beta at or above beta, one strictly inside
    the window exactly. *)
Definition agrees (v m alpha beta : Score) : Prop :=
  (Score_leb m alpha = true -> Score_leb v alpha = true) /\
  (Score_leb beta m = true -> Score_leb beta v = true) /\
  (Score_ltb alpha m = true -> Score_ltb m beta = true -> v = m).

(** The state of the loop of a maximizing node that has not cut off:
    [v] the running pruned value, [u] the running exact maximum, [alpha0]
    the alpha the node was entered with. *)
Definition maxLoop (alpha0 beta v u : Score) : Prop :=
  (v = NegInf /\ u = NegInf) \/
  (Score_ltb v beta = true /\ Score_ltb u beta = true /\
   (Score_leb u alpha0 = true -> Score_leb v alpha0 = true) /\
   (Score_ltb alpha0 u = true -> v = u)).

(** The same for a minimizing node. *)
Definition minLoop (alpha beta0 v u : Score) : Prop :=
  (v = PosInf /\ u = PosInf) \/
  (Score_ltb alpha v = true /\ Score_ltb alpha u = true /\
   (Score_leb beta0 u = true -> Score_leb beta0 v = true) /\
   (Score_ltb u beta0 = true -> v = u)).

Definition val (x : Score) : Z :=
  match x with Fin z => z | _ => 0 end.

(** Scores whose finite values lie within [-B, B] embed in the integers,
    the infinities just outside the interval. *)
Definition emb (B : Z) (x : Score) : Z :=
  match x with NegInf => - B - 1 | Fin z => z | PosInf => B + 1 end.

Definition within (B : Z) (x : Score) : Prop := - B <= val x <= B.

Lemma emb_range (B : Z) (x : Score) :
  within B x -> - B - 1 <= emb B x <= B + 1.
Proof. unfold within. destruct x; simpl; lia. Qed.

Lemma emb_leb_true (B : Z) (a b : Score) :
  within B a -> within B b ->
  (Score_leb a b = true <-> emb B a <= emb B b).
Proof.
  unfold within. destruct a, b; simpl; rewrite ?Z.leb_le; intros; split;
    intros; try lia; try reflexivity; try discriminate.
Qed.

Lemma emb_leb_false (B : Z) (a b : Score) :
  within B a -> within B b ->
  (Score_leb a b = false <-> emb B b < emb B a).
Proof.
  unfold within. destruct a, b; simpl; rewrite ?Z.leb_gt; intros; split;
    intros; try lia; try reflexivity; try discriminate.
Qed.

Lemma emb_eq (B : Z) (a b : Score) :
  within B a -> within B b -> (a = b <-> emb B a = emb B b).
Proof.
  unfold within. destruct a, b; simpl; intros; split; intros;
    try lia; try reflexivity; try discriminate; congruence.
Qed.

(** Facts about the order of scores are decided by [lia] on the images
    of the scores; the bound is the sum of the finite values at hand. *)
Ltac score_bound acc :=
  match goal with
  | x : Score |- _ =>
      lazymatch acc with
      | context [val x] => fail
      | _ => score_bound (acc + Z.abs (val x))
      end
  | _ => acc
  end.

Ltac score :=
  unfold agrees, maxLoop, minLoop, Score_ltb, Score_max, Score_min in *;
  rewrite ?negb_true_iff, ?negb_false_iff in *;
  repeat match goal with
         | |- context [if Score_leb ?a ?b then _ else _] =>
             let E := fresh "E" in destruct (Score_leb a b) eqn:E
         | H : context [if Score_leb ?a ?b then _ else _] |- _ =>
             let E := fresh "E" in destruct (Score_leb a b) eqn:E
         end;
  let b := score_bound 0 in
  let B := fresh "B" in
  pose (B := b);
  assert (0 <= B) by (unfold B; lia);
  repeat match goal with
         | x : Score |- _ =>
             lazymatch goal with
             | _ : within B x |- _ => fail
             | _ => assert (within B x) by (unfold within, B; lia)
             end
         end;
  assert (within B NegInf) by (unfold within; simpl; lia);
  assert (within B PosInf) by (unfold within; simpl; lia);
  repeat match goal with
         | x : Score |- _ =>
             lazymatch goal with
             | _ : - B - 1 <= emb B x <= B + 1 |- _ => fail
             | H : within B x |- _ => pose proof (emb_range B x H)
             end
         end;
  repeat match goal with
         | H : context [Score_leb ?a ?b = true] |- _ =>
             rewrite (emb_leb_true B a b) in H by assumption
         | H : context [Score_leb ?a ?b = false] |- _ =>
             rewrite (emb_leb_false B a b) in H by assumption
         | H : context [@eq Score ?a ?b] |- _ =>
             rewrite (emb_eq B a b) in H by assumption
         | |- context [Score_leb ?a ?b = true] =>
             rewrite (emb_leb_true B a b) by assumption
         | |- context [Score_leb ?a ?b = false] =>
             rewrite (emb_leb_false B a b) by assumption
         | |- context [@eq Score ?a ?b] =>
             rewrite (emb_eq B a b) by assumption
         end;
  clearbody B; simpl emb in *; lia.

Lemma agrees_refl (v alpha beta : Score) : agrees v v alpha beta.
Proof. unfold agrees. tauto. Qed.

Lemma maxLoop_final (alpha0 beta v u : Score) :
  maxLoop alpha0 beta v u -> agrees v u alpha0 beta.
Proof. intro H. score. Qed.

Lemma maxLoop_step (alpha0 beta v u x m : Score) :
  maxLoop alpha0 beta v u ->
  agrees x m (Score_max alpha0 v) beta ->
  Score_leb beta (Score_max v x) = false ->
  maxLoop alpha0 beta (Score_max v x) (Score_max u m).
Proof. intros H1 H2 H3. right. score. Qed.

Lemma maxLoop_alpha (alpha0 v x : Score) :
  Score_max (Score_max alpha0 v) (Score_max v x) =
  Score_max alpha0 (Score_max v x).
Proof. score. Qed.

Lemma maxLoop_cut (alpha0 beta v u x m U : Score) :
  maxLoop alpha0 beta v u ->
  agrees x m (Score_max alpha0 v) beta ->
  Score_leb beta (Score_max v x) = true ->
  Score_leb (Score_max u m) U = true ->
  agrees (Score_max v x) U alpha0 beta.
Proof. intros H1 H2 H3 H4. score. Qed.

Lemma minLoop_final (alpha beta0 v u : Score) :
  minLoop alpha beta0 v u -> agrees v u alpha beta0.
Proof. intro H. score. Qed.

Lemma minLoop_step (alpha beta0 v u x m : Score) :
  minLoop alpha beta0 v u ->
  agrees x m alpha (Score_min beta0 v) ->
  Score_leb (Score_min v x) alpha = false ->
  minLoop alpha beta0 (Score_min v x) (Score_min u m).
Proof. intros H1 H2 H3. right. score. Qed.

Lemma minLoop_beta (beta0 v x : Score) :
  Score_min (Score_min beta0 v) (Score_min v x) =
  Score_min beta0 (Score_min v x).
Proof. score. Qed.

Lemma minLoop_cut (alpha beta0 v u x m U : Score) :
  minLoop alpha beta0 v u ->
  agrees x m alpha (Score_min beta0 v) ->
  Score_leb (Score_min v x) alpha = true ->
  Score_leb U (Score_min u m) = true ->
  agrees (Score_min v x) U alpha beta0.
Proof. intros H1 H2 H3 H4. score. Qed.

Lemma Score_leb_refl (a : Score) : Score_leb a a = true.
Proof. destruct a; simpl; auto. apply Z.leb_refl. Qed.

Lemma Score_leb_trans (a b c : Score) :
  Score_leb a b = true -> Score_leb b c = true -> Score_leb a c = true.
Proof. intros. score. Qed.

Lemma Score_max_ge (a b : Score) : Score_leb a (Score_max a b) = true.
Proof. score. Qed.

Lemma Score_min_le (a b : Score) : Score_leb (Score_min a b) a = true.
Proof. score. Qed.

Section Pruning.

Variable eval : GameState -> Score -> Score -> Score.
Variable exact : GameState -> Score.

Lemma fold_max_ge (kids : list GameState) (u : Score) :
  Score_leb u (fold_left (fun v k => Score_max v (exact k)) kids u) = true.
Proof.
  revert u; induction kids as [|k rest IH]; intro u; simpl.
  - apply Score_leb_refl.
  - eapply Score_leb_trans; [apply Score_max_ge | apply IH].
Qed.

Lemma fold_min_le (kids : list GameState) (u : Score) :
  Score_leb (fold_left (fun v k => Score_min v (exact k)) kids u) u = true.
Proof.
  revert u; induction kids as [|k rest IH]; intro u; simpl.
  - apply Score_leb_refl.
  - eapply Score_leb_trans; [apply IH | apply Score_min_le].
Qed.

(** A maximizing node: whatever the window, the pruned value stands in
    the relation [agrees] to the exact maximum. *)
Lemma abMax_agrees (kids : list GameState) :
  (forall k a b, In k kids -> agrees (eval k a b) (exact k) a b) ->
  forall alpha0 beta v u,
    maxLoop alpha0 beta v u ->
    agrees (abMax eval kids (Score_max alpha0 v) beta v)
           (fold_left (fun w k => Score_max w (exact k)) kids u)
           alpha0 beta.
Proof.
  induction kids as [|k rest IH]; intros Hk alpha0 beta v u J; simpl.
  - now apply maxLoop_final.
  - pose proof (Hk k (Score_max alpha0 v) beta (or_introl eq_refl)) as A.
    destruct (Score_leb beta (Score_max v (eval k (Score_max alpha0 v) beta)))
      eqn:C.
    + eapply maxLoop_cut; eauto. apply fold_max_ge.
    + rewrite maxLoop_alpha. apply IH.
      * intros k' a b Hin. apply Hk. now right.
      * now apply maxLoop_step.
Qed.

Lemma abMin_agrees (kids : list GameState) :
  (forall k a b, In k kids -> agrees (eval k a b) (exact k) a b) ->
  forall alpha beta0 v u,
    minLoop alpha beta0 v u ->
    agrees (abMin eval kids alpha (Score_min beta0 v) v)
           (fold_left (fun w k => Score_min w (exact k)) kids u)
           alpha beta0.
Proof.
  induction kids as [|k rest IH]; intros Hk alpha beta0 v u J; simpl.
  - now apply minLoop_final.
  - pose proof (Hk k alpha (Score_min beta0 v) (or_introl eq_refl)) as A.
    destruct (Score_leb (Score_min v (eval k alpha (Score_min beta0 v))) alpha)
      eqn:C.
    + eapply minLoop_cut; eauto. apply fold_min_le.
    + rewrite minLoop_beta. apply IH.
      * intros k' a b Hin. apply Hk. now right.
      * now apply minLoop_step.
Qed.

End Pruning.

Lemma Score_max_NegInf_r (a : Score) : Score_max a NegInf = a.
Proof. now destruct a. Qed.

Lemma Score_min_PosInf_r (a : Score) : Score_min a PosInf = a.
Proof. now destruct a. Qed.

Section Tiers.

Variable heuristic : Board -> Color -> Z.

(** The pruned search and the plain search agree on every position, for
    every window. *)
Lemma alphabeta_agrees (engine : Color) (depth : nat) :
  forall (ply : Z) (s : GameState) (alpha beta : Score),
    agrees (alphabeta heuristic engine depth ply s alpha beta)
           (minimax heuristic true engine depth ply s) alpha beta.
Proof.
  induction depth as [|d IH]; intros ply s alpha beta; simpl;
    destruct (isGameOver s); try apply agrees_refl.
  destruct (immediateWin s) as [[c k]|]; [apply agrees_refl|].
  destruct (Color_eqb (currentPlayer s) engine).
  - rewrite <- (Score_max_NegInf_r alpha) at 1.
    apply abMax_agrees; [|left; auto].
    intros k a b _. apply IH.
  - rewrite <- (Score_min_PosInf_r beta) at 1.
    apply abMin_agrees; [|left; auto].
    intros k a b _. apply IH.
Qed.

Lemma root_agrees (v m a : Score) :
  agrees v m a PosInf ->
  Score_ltb a v = Score_ltb a m /\ (Score_ltb a m = true -> v = m).
Proof.
  intro H. split.
  - destruct (Score_ltb a m) eqn:E; score.
  - intro E. score.
Qed.

Lemma pickBest_pruned (evalAB : GameState -> Score -> Score)
    (exact : GameState -> Score) (ms : list (Z * GameState)) :
  (forall k a, agrees (evalAB k a) (exact k) a PosInf) ->
  forall bestMove bestScore,
    pickBest evalAB ms bestMove bestScore =
    pickBest (fun k _ => exact k) ms bestMove bestScore.
Proof.
  intro H. induction ms as [|[c k] rest IH]; intros bm bs; simpl;
    [reflexivity|].
  destruct (root_agrees _ _ _ (H k bs)) as [E1 E2]. rewrite E1.
  destruct (Score_ltb bs (exact k)) eqn:E.
  - rewrite (E2 eq_refl). apply IH.
  - apply IH.
Qed.

Lemma searchAlphaBeta_minimax (depth : nat) (s : GameState) (first : Z) :
  searchAlphaBeta heuristic depth s first
  = searchMinimax heuristic true depth s first.
Proof.
  unfold searchAlphaBeta, searchMinimax.
  destruct (immediateWin s) as [[c k]|]; [reflexivity|].
  apply pickBest_pruned. intros k a. apply alphabeta_agrees.
Qed.

End Tiers.

(** C7. At the Best quality the column chosen by the alpha-beta search is
    the column unpruned minimax of the same depth, evaluation and
    center-outward order chooses, on every state, whatever the heuristic and
    the depth. *)
Theorem pruning_keeps_choice (heuristic : Board -> Color -> Z)
    (mediumDepth highDepth : nat) (s : GameState) :
  chooseMove heuristic mediumDepth highDepth s Best =
  chooseMoveUnpruned heuristic highDepth s.
Proof.
  unfold chooseMove, chooseMoveUnpruned.
  destruct (isGameOver s); [reflexivity|].
  destruct (legalMoves s) as [|first rest]; [reflexivity|].
  now rewrite searchAlphaBeta_minimax.
Qed.

(** ** The chosen column is legal *)

Lemma searchOrder_range (c : Z) : In c searchOrder <-> 0 <= c <= 6.
Proof. unfold searchOrder. simpl. lia. Qed.

Lemma hasRoom_In (col : Column) : hasRoom col = true <-> In None col.
Proof.
  unfold hasRoom. rewrite existsb_exists. split.
  - intros ([p|] & Hin & H); [discriminate | exact Hin].
  - intro H. now exists None.
Qed.

Lemma legalMoves_In (s : GameState) (c : Z) :
  In c (legalMoves s) <->
  0 <= c <= 6 /\ In None (nth (Z.to_nat c) (board s) []).
Proof.
  unfold legalMoves. now rewrite filter_In, searchOrder_range, hasRoom_In.
Qed.

Lemma successors_In (s : GameState) (c : Z) (k : GameState) :
  In (c, k) (successors s) -> In c (legalMoves s) /\ applyMove s c = Ok k.
Proof.
  unfold successors. rewrite in_flat_map. intros (c' & Hin & H).
  destruct (applyMove s c') as [s'|e] eqn:E; simpl in H; [|contradiction].
  destruct H as [[= <- <-]|[]]. auto.
Qed.

Lemma successors_fst (s : GameState) (c : Z) :
  In c (map fst (successors s)) -> In c (legalMoves s).
Proof.
  rewrite in_map_iff. intros ([c' k] & <- & Hin).
  now apply successors_In in Hin.
Qed.

Lemma pickBest_In (eval : GameState -> Score -> Score)
    (ms : list (Z * GameState)) :
  forall bestMove bestScore,
    pickBest eval ms bestMove bestScore = bestMove \/
    In (pickBest eval ms bestMove bestScore) (map fst ms).
Proof.
  induction ms as [|[c k] rest IH]; intros bm bs; simpl; [now left|].
  destruct (Score_ltb bs (eval k bs)).
  - destruct (IH c (eval k bs)) as [->|H]; auto.
  - destruct (IH bm bs) as [->|H]; auto.
Qed.

Section Legal.

Variable heuristic : Board -> Color -> Z.
Variable mediumDepth highDepth : nat.

Lemma lowMove_In (s : GameState) (first : Z) :
  lowMove s first = first \/ In (lowMove s first) (map fst (successors s)).
Proof.
  unfold lowMove. cbv zeta.
  destruct (find (winsAt s (currentPlayer s)) _) as [c|] eqn:F1.
  { right. apply find_some in F1. tauto. }
  destruct (find (winsAt s (other (currentPlayer s))) _) as [c|] eqn:F2.
  { right. apply find_some in F2. tauto. }
  now left.
Qed.

Lemma chooseMove_In (s : GameState) (q : Quality) (c : Z) :
  chooseMove heuristic mediumDepth highDepth s q = Ok c ->
  In c (legalMoves s).
Proof.
  unfold chooseMove. destruct (isGameOver s); [discriminate|].
  destruct (legalMoves s) as [|first rest] eqn:L; [discriminate|].
  intros [= <-].
  assert (F : In first (legalMoves s)) by (rewrite L; now left).
  rewrite <- L.
  destruct q.
  - destruct (lowMove_In s first) as [->|H]; [exact F|].
    now apply successors_fst.
  - unfold searchMinimax.
    destruct (pickBest_In (fun k _ => minimax heuristic false (currentPlayer s)
                                        (Nat.pred mediumDepth) 1 k)
                (successors s) first NegInf) as [->|H]; [exact F|].
    now apply successors_fst.
  - unfold searchAlphaBeta.
    destruct (immediateWin s) as [[c k]|] eqn:W.
    + apply find_some in W. destruct W as [W _].
      now apply successors_In in W.
    + destruct (pickBest_In (fun k a => alphabeta heuristic (currentPlayer s)
                                          (Nat.pred highDepth) 1 k a PosInf)
                  (successors s) first NegInf) as [->|H]; [exact F|].
      now apply successors_fst.
Qed.

End Legal.

Lemma boardFull_false (b : Board) :
  boardFull b = false -> exists col, In col b /\ In None col.
Proof.
  unfold boardFull. induction b as [|col rest IH]; simpl; [discriminate|].
  destruct (hasRoom col) eqn:H; simpl.
  - intros _. exists col. split; [now left | now apply hasRoom_In].
  - intro F. destruct (IH F) as (col' & H1 & H2). exists col'. auto.
Qed.

(** While a reachable game is on, some column has room. *)
Lemma reachable_has_move (s : GameState) :
  reachable s -> isGameOver s = false -> legalMoves s <> [].
Proof.
  intros R Hover. destruct (reachable_Inv s R) as [Hs Hn].
  destruct (Hn Hover) as [_ F]. apply boardFull_false in F.
  destruct F as (col & H1 & H2).
  apply boardShape_spec in Hs. destruct Hs as [Hlen _].
  destruct (In_nth _ _ [] H1) as (i & Hi & Hnth).
  assert (In (Z.of_nat i) (legalMoves s)) as Hin.
  { apply legalMoves_In. unfold COLS in Hlen.
    assert (i < 7)%nat by (rewrite <- Hlen; exact Hi). split; [lia|].
    rewrite Nat2Z.id. subst col. exact H2. }
  intro E. rewrite E in Hin. contradiction.
Qed.

(** C3. For every reachable state that is not over, at every quality,
    [chooseMove] returns a column index in [0, 6] whose column still has an
    Empty cell; on a terminal state it fails with GameAlreadyOver; on a
    state that is not over whose columns are all full it fails with
    NoLegalMoves. *)
Theorem chooseMove_contract (heuristic : Board -> Color -> Z)
    (mediumDepth highDepth : nat) (s : GameState) (q : Quality) :
  (reachable s -> isGameOver s = false ->
   exists c, chooseMove heuristic mediumDepth highDepth s q = Ok c /\
             0 <= c <= 6 /\ In None (nth (Z.to_nat c) (board s) [])) /\
  (isGameOver s = true ->
   chooseMove heuristic mediumDepth highDepth s q = Err GameAlreadyOver) /\
  (isGameOver s = false ->
   (forall c, 0 <= c <= 6 -> ~ In None (nth (Z.to_nat c) (board s) [])) ->
   chooseMove heuristic mediumDepth highDepth s q = Err NoLegalMoves).
Proof.
  split; [|split].
  - intros R Hover. pose proof (reachable_has_move s R Hover) as L.
    destruct (chooseMove heuristic mediumDepth highDepth s q) as [c|e] eqn:E.
    + exists c. split; [reflexivity|].
      apply legalMoves_In. eapply chooseMove_In; eauto.
    + exfalso. unfold chooseMove in E. rewrite Hover in E.
      destruct (legalMoves s); [congruence|discriminate].
  - unfold chooseMove. now intros ->.
  - unfold chooseMove. intros -> H.
    destruct (legalMoves s) as [|c rest] eqn:L; [reflexivity|].
    assert (Hin : In c (legalMoves s)) by (rewrite L; now left).
    apply legalMoves_In in Hin. destruct Hin as [Hc Hroom].
    exfalso. exact (H c Hc Hroom).
Qed.

Definition zeroHeuristic : Board -> Color -> Z := fun _ _ => 0.

(** A small heuristic to run the tiers with: the engine's pieces in the
    center column count for it, the opponent's against it. *)
Definition centerHeuristic (b : Board) (engine : Color) : Z :=
  fold_left (fun acc cell =>
               match cell with
               | Some p => if Color_eqb p engine then acc + 1 else acc - 1
               | None => acc
               end) (nth 3 b []) 0.

Example best_opens_in_the_center :
  chooseMove centerHeuristic 2 4 createInitialState Best = Ok 3.
Proof. vm_compute. reflexivity. Qed.

Example best_takes_the_win :
  chooseMove centerHeuristic 2 4 (stateAfter [0; 6; 0; 6; 0; 6]) Best = Ok 0.
Proof. vm_compute. reflexivity. Qed.

Example medium_blocks_the_win :
  chooseMove centerHeuristic 2 4 (stateAfter [0; 6; 0; 6; 0]) Medium = Ok 0.
Proof. vm_compute. reflexivity. Qed.

Example bad_blocks_the_win :
  chooseMove centerHeuristic 2 4 (stateAfter [0; 0; 1; 1; 2]) Bad = Ok 3.
Proof. vm_compute. reflexivity. Qed.

Example no_move_when_over :
  chooseMove centerHeuristic 2 4 (stateAfter drawnGame) Best
  = Err GameAlreadyOver.
Proof. vm_compute. reflexivity. Qed.

Lemma chooseMove_contract_witness :
  exists c,
    chooseMove zeroHeuristic 2 4 (stateAfter [0; 0; 1; 1; 2]) Best = Ok c /\
    0 <= c <= 6 /\
    In None (nth (Z.to_nat c) (board (stateAfter [0; 0; 1; 1; 2])) []).
Proof.
  apply (proj1 (chooseMove_contract zeroHeuristic 2 4
                  (stateAfter [0; 0; 1; 1; 2]) Best)).
  - apply (reachable_play createInitialState _ [0; 0; 1; 1; 2] reach_init).
    reflexivity.
  - reflexivity.
Defined.

End SearchFacts.

Module JsonFacts.
Import Json.
Local Open Scope list_scope.

(** ** Decimal digits *)

Lemma digitChar_code (d : N) :
  (d < 10)%N -> N_of_ascii (digitChar d) = (48 + d)%N.
Proof. intro H. unfold digitChar. apply N_ascii_embedding. lia. Qed.

Lemma digitChar_isDigit (d : N) : (d < 10)%N -> isDigit (digitChar d) = true.
Proof.
  intro H. unfold isDigit. rewrite digitChar_code by exact H.
  apply andb_true_iff. split; apply N.leb_le; lia.
Qed.

Definition valueFrom (v : N) (ds : list ascii) : N :=
  fold_left (fun acc c => (10 * acc + (N_of_ascii c - 48))%N) ds v.

Lemma valueOfDigits_from (ds : list ascii) : valueOfDigits ds = valueFrom 0 ds.
Proof. reflexivity. Qed.

Lemma valueFrom_app (ds more : list ascii) (v : N) :
  valueFrom v (ds ++ more) = valueFrom (valueFrom v ds) more.
Proof. unfold valueFrom. apply fold_left_app. Qed.

Lemma valueFrom_shift (ds : list ascii) :
  forall v, valueFrom v ds
            = (v * 10 ^ N.of_nat (length ds) + valueFrom 0 ds)%N.
Proof.
  induction ds as [|c ds IH]; intro v.
  - simpl. lia.
  - change (valueFrom v (c :: ds))
      with (valueFrom (10 * v + (N_of_ascii c - 48))%N ds).
    change (valueFrom 0 (c :: ds))
      with (valueFrom (10 * 0 + (N_of_ascii c - 48))%N ds).
    rewrite (IH (10 * v + (N_of_ascii c - 48))%N).
    rewrite (IH (10 * 0 + (N_of_ascii c - 48))%N).
    replace (N.of_nat (length (c :: ds))) with (N.succ (N.of_nat (length ds)))
      by (simpl length; lia).
    rewrite N.pow_succ_r by lia. lia.
Qed.

Lemma valueOfDigits_app (ds more : list ascii) :
  valueOfDigits (ds ++ more)
  = (valueOfDigits ds * 10 ^ N.of_nat (length more) + valueOfDigits more)%N.
Proof.
  rewrite !valueOfDigits_from, valueFrom_app. apply valueFrom_shift.
Qed.

Lemma valueOfDigits_zeros (j : nat) : valueOfDigits (repeat "0"%char j) = 0%N.
Proof.
  induction j as [|j IH]; [reflexivity|].
  change (repeat "0"%char (S j)) with (["0"%char] ++ repeat "0"%char j).
  rewrite valueOfDigits_app, IH. reflexivity.
Qed.

Lemma isDigit_zeros (j : nat) : Forall (fun c => isDigit c = true) (repeat "0"%char j).
Proof. induction j; simpl; constructor; auto. Qed.

(** The digits written for a positive number: a first digit that is not 0,
    further digits, and the number as their value. *)
Lemma digitsFuel_spec (fuel : nat) :
  forall n acc,
    (0 < n < 10 ^ N.of_nat fuel)%N ->
    exists d ds,
      digitsFuel fuel n acc = digitChar d :: ds ++ acc /\
      (1 <= d <= 9)%N /\
      Forall (fun c => isDigit c = true) ds /\
      valueOfDigits (digitChar d :: ds) = n.
Proof.
  induction fuel as [|f IH]; intros n acc H.
  - simpl in H. lia.
  - simpl digitsFuel. destruct (N.ltb_spec n 10) as [L|L].
    + exists n, []. split; [reflexivity|]. split; [lia|]. split; [constructor|].
      unfold valueOfDigits. simpl. rewrite digitChar_code by exact L. lia.
    + assert (B : (0 < n / 10 < 10 ^ N.of_nat f)%N).
      { replace (N.of_nat (S f)) with (N.succ (N.of_nat f)) in H by lia.
        rewrite N.pow_succ_r in H by lia. split.
        - apply N.div_str_pos. lia.
        - apply N.Div0.div_lt_upper_bound; lia. }
      destruct (IH (n / 10)%N (digitChar (n mod 10) :: acc) B)
        as (d & ds & E & D & F & V).
      assert (M : (n mod 10 < 10)%N) by (apply N.mod_lt; lia).
      exists d, (ds ++ [digitChar (n mod 10)]). split.
      { rewrite E. rewrite <- app_assoc. reflexivity. }
      split; [exact D|]. split.
      { apply Forall_app. split; [exact F|].
        constructor; [now apply digitChar_isDigit | constructor]. }
      change (digitChar d :: ds ++ [digitChar (n mod 10)])
        with ((digitChar d :: ds) ++ [digitChar (n mod 10)]).
      rewrite valueOfDigits_app, V.
      unfold valueOfDigits at 1. simpl fold_left.
      rewrite digitChar_code by exact M. simpl length.
      pose proof (N.div_mod n 10 ltac:(lia)) as Q.
      replace (10 ^ N.of_nat 1)%N with 10%N by reflexivity.
      revert Q. generalize (n mod 10)%N (n / 10)%N. intros r q Q. lia.
Qed.

Lemma size_bound (p : positive) : (N.pos p < 2 ^ N.of_nat (Pos.size_nat p))%N.
Proof.
  induction p as [p IH|p IH|]; simpl Pos.size_nat.
  - replace (N.of_nat (S (Pos.size_nat p))) with (N.succ (N.of_nat (Pos.size_nat p))) by lia.
    rewrite N.pow_succ_r by lia. lia.
  - replace (N.of_nat (S (Pos.size_nat p))) with (N.succ (N.of_nat (Pos.size_nat p))) by lia.
    rewrite N.pow_succ_r by lia. lia.
  - simpl. lia.
Qed.

Lemma pow2_le_pow10 (k : nat) : (2 ^ N.of_nat k <= 10 ^ N.of_nat k)%N.
Proof. apply N.pow_le_mono_l. lia. Qed.

Lemma digits_fuel_enough (n : N) : (n < 10 ^ N.of_nat (S (N.size_nat n)))%N.
Proof.
  replace (N.of_nat (S (N.size_nat n))) with (N.succ (N.of_nat (N.size_nat n))) by lia.
  rewrite N.pow_succ_r by lia.
  destruct n as [|p]; [simpl; lia|].
  simpl N.size_nat. pose proof (size_bound p). pose proof (pow2_le_pow10 (Pos.size_nat p)).
  lia.
Qed.

Lemma digitsOf_spec (n : N) :
  (0 < n)%N ->
  exists d ds,
    digitsOf n = digitChar d :: ds /\
    (1 <= d <= 9)%N /\
    Forall (fun c => isDigit c = true) ds /\
    valueOfDigits (digitChar d :: ds) = n.
Proof.
  intro H. unfold digitsOf.
  destruct (digitsFuel_spec (S (N.size_nat n)) n []
              (conj H (digits_fuel_enough n))) as (d & ds & E & D & F & V).
  exists d, ds. rewrite E, app_nil_r. auto.
Qed.

Lemma digitsOf_digits (n : N) :
  (0 < n)%N ->
  Forall (fun c => isDigit c = true) (digitsOf n) /\
  valueOfDigits (digitsOf n) = n /\ digitsOf n <> [].
Proof.
  intro H. destruct (digitsOf_spec n H) as (d & ds & E & D & F & V).
  rewrite E. split; [|split; [exact V | discriminate]].
  constructor; [apply digitChar_isDigit; lia | exact F].
Qed.

(** ** Runs of digits *)

(** The text does not go on with a digit. *)
Definition noDigitAhead (rest : list ascii) : Prop :=
  match rest with
  | [] => True
  | c :: _ => isDigit c = false
  end.

Lemma spanDigits_app (ds rest : list ascii) :
  Forall (fun c => isDigit c = true) ds -> noDigitAhead rest ->
  spanDigits (ds ++ rest) = (ds, rest).
Proof.
  intros F N. induction F as [|c ds C F IH]; cbn [spanDigits app].
  - destruct rest as [|c rest]; [reflexivity|].
    cbn [noDigitAhead] in N. cbn [spanDigits]. now rewrite N.
  - now rewrite C, IH.
Qed.

(** ** Numerals *)

(** The text goes on with nothing a numeral could take. *)
Definition delimited (rest : list ascii) : Prop :=
  match rest with
  | [] => True
  | c :: _ =>
      isDigit c = false /\ Ascii.eqb c "." = false /\
      Ascii.eqb c "e" = false /\ Ascii.eqb c "E" = false
  end.

Lemma delimited_noDigitAhead (rest : list ascii) :
  delimited rest -> noDigitAhead rest.
Proof. destruct rest; simpl; tauto. Qed.

Lemma parseFraction_none (rest : list ascii) :
  delimited rest -> parseFraction rest = Some ([], rest).
Proof.
  destruct rest as [|c rest]; [reflexivity|]. intros (_ & P & _).
  unfold parseFraction. now rewrite P.
Qed.

Lemma parseExponent_none (rest : list ascii) :
  delimited rest -> parseExponent rest = Some (0%Z, rest).
Proof.
  destruct rest as [|c rest]; [reflexivity|]. intros (_ & _ & E1 & E2).
  unfold parseExponent. now rewrite E1, E2.
Qed.

Lemma parseFraction_some (ds rest : list ascii) :
  Forall (fun c => isDigit c = true) ds -> ds <> [] -> noDigitAhead rest ->
  parseFraction ("."%char :: ds ++ rest) = Some (ds, rest).
Proof.
  intros F N A. unfold parseFraction.
  change (Ascii.eqb "." ".") with true. cbv iota.
  rewrite (spanDigits_app ds rest F A).
  destruct ds; [contradiction | reflexivity].
Qed.

Lemma isDigit_not_sign (c : ascii) :
  isDigit c = true -> Ascii.eqb c "-" = false /\ Ascii.eqb c "+" = false.
Proof.
  destruct c as [[] [] [] [] [] [] [] []]; intro H;
    try discriminate H; split; reflexivity.
Qed.

Lemma parseExponent_some (e : Z) (rest : list ascii) :
  e <> 0%Z -> noDigitAhead rest ->
  parseExponent
    ("e"%char :: (if (e <? 0)%Z then "-"%char else "+"%char)
              :: digitsOf (Z.abs_N e) ++ rest)
  = Some (e, rest).
Proof.
  intros N A. unfold parseExponent.
  change (Ascii.eqb "e" "e" || Ascii.eqb "e" "E") with true. cbv iota.
  destruct (digitsOf_digits (Z.abs_N e) ltac:(lia)) as (F & V & NE).
  destruct (Z.ltb_spec e 0) as [L|L].
  - change (Ascii.eqb "-" "-") with true. cbv iota beta.
    rewrite (spanDigits_app _ rest F A).
    destruct (digitsOf (Z.abs_N e)) as [|c ds] eqn:E; [contradiction|].
    rewrite V. f_equal. f_equal. lia.
  - change (Ascii.eqb "+" "-") with false.
    change (Ascii.eqb "+" "+") with true. cbv iota beta.
    rewrite (spanDigits_app _ rest F A).
    destruct (digitsOf (Z.abs_N e)) as [|c ds] eqn:E; [contradiction|].
    rewrite V. f_equal. f_equal. lia.
Qed.

Lemma digitChar_not_zero (d : N) :
  (1 <= d <= 9)%N -> Ascii.eqb (digitChar d) "0" = false.
Proof.
  intro H.
  assert (K : (d = 1 \/ d = 2 \/ d = 3 \/ d = 4 \/ d = 5 \/ d = 6 \/ d = 7
               \/ d = 8 \/ d = 9)%N) by lia.
  repeat (destruct K as [->|K]; [reflexivity|]). now subst.
Qed.

Lemma leadingZero_digits (d : N) (more : list ascii) :
  (1 <= d <= 9)%N -> leadingZero (digitChar d :: more) = false.
Proof.
  intro H. destruct more; [reflexivity|]. simpl. now apply digitChar_not_zero.
Qed.

(** The parts of a numeral, found one after the other. *)
Lemma parseDecimal_parts (negative : bool)
    (whole fraction s s2 s3 s4 : list ascii) (e : Z) :
  spanDigits s = (whole, s2) -> whole <> [] -> leadingZero whole = false ->
  parseFraction s2 = Some (fraction, s3) ->
  parseExponent s3 = Some (e, s4) ->
  parseDecimal negative s
  = Some (decimalNumber negative (valueOfDigits (whole ++ fraction))
            (e - Z.of_nat (length fraction)), s4).
Proof.
  intros S N L F E. unfold parseDecimal. rewrite S.
  destruct whole as [|c whole]; [contradiction|].
  rewrite L, F, E. reflexivity.
Qed.

Lemma decimalNumber_scaled (negative : bool) (s : N) (j : nat) :
  (0 < s)%N ->
  decimalNumber negative (s * 10 ^ N.of_nat j) 0
  = decimalNumber negative s (Z.of_nat j).
Proof.
  intro H. unfold decimalNumber.
  assert (P : (0 < 10 ^ N.of_nat j)%N).
  { apply N.neq_0_lt_0. apply N.pow_nonzero. lia. }
  replace (s * 10 ^ N.of_nat j =? 0)%N with false
    by (symmetry; apply N.eqb_neq; lia).
  replace (s =? 0)%N with false by (symmetry; apply N.eqb_neq; lia).
  change (0 <=? 0)%Z with true.
  replace (0 <=? Z.of_nat j)%Z with true by (symmetry; apply Z.leb_le; lia).
  cbv iota. f_equal.
  rewrite N2Z.inj_mul, N2Z.inj_pow, nat_N_Z.
  change (10 ^ 0)%Z with 1%Z. change (Z.of_N 10) with 10%Z. ring.
Qed.

Lemma Forall_firstn_skipn {A : Type} (P : A -> Prop) (n : nat) (l : list A) :
  Forall P l -> Forall P (firstn n l) /\ Forall P (skipn n l).
Proof.
  intro F. rewrite <- (firstn_skipn n l) in F. now apply Forall_app in F.
Qed.

(** A numeral written by [Number::toString] is read as the decimal that
    was written. *)
Lemma parseDecimal_decimalText (negative : bool) (s : N) (n : Z)
    (rest : list ascii) :
  (0 < s)%N -> delimited rest ->
  parseDecimal negative (decimalText s n ++ rest)
  = Some (decimalNumber negative s (n - Z.of_nat (length (digitsOf s))),
          rest).
Proof.
  intros H D. pose proof (delimited_noDigitAhead rest D) as A.
  destruct (digitsOf_spec s H) as (d & more & E & Dd & F & V).
  assert (Fd : Forall (fun c => isDigit c = true) (digitChar d :: more))
    by (constructor; [apply digitChar_isDigit; lia | exact F]).
  unfold decimalText. rewrite E. cbv zeta.
  set (k := Z.of_nat (length (digitChar d :: more))).
  assert (Hk : (1 <= k)%Z) by (unfold k; simpl length; lia).
  destruct ((k <=? n)%Z && (n <=? 21)%Z) eqn:C6.
  { (* digits and zeros *)
    apply andb_true_iff in C6. destruct C6 as [C6 _]. apply Z.leb_le in C6.
    set (j := Z.to_nat (n - k)).
    rewrite (parseDecimal_parts negative
               ((digitChar d :: more) ++ repeat "0"%char j) [] _ rest rest rest 0).
    - rewrite app_nil_r, valueOfDigits_app, V, valueOfDigits_zeros.
      rewrite repeat_length, N.add_0_r. simpl length.
      rewrite decimalNumber_scaled by exact H. f_equal. f_equal.
      f_equal. unfold j. lia.
    - apply spanDigits_app; [|exact A].
      apply Forall_app. split; [exact Fd | apply isDigit_zeros].
    - discriminate.
    - simpl app. now apply leadingZero_digits.
    - now apply parseFraction_none.
    - now apply parseExponent_none. }
  destruct ((0 <? n)%Z && (n <=? 21)%Z) eqn:C7.
  { (* a point among the digits *)
    apply andb_true_iff in C7. destruct C7 as [C7 C7']. apply Z.ltb_lt in C7.
    apply Z.leb_le in C7'.
    assert (Lt : (n < k)%Z).
    { apply andb_false_iff in C6. destruct C6 as [C6|C6];
        [apply Z.leb_gt in C6; lia | apply Z.leb_gt in C6; lia]. }
    set (ds := digitChar d :: more) in *.
    set (m := Z.to_nat n).
    destruct (Forall_firstn_skipn _ m ds Fd) as [F1 F2].
    assert (Lm : (1 <= m < length ds)%nat) by (unfold m, k in *; lia).
    rewrite <- app_assoc.
    change (("."%char :: skipn m ds) ++ rest)
      with ("."%char :: skipn m ds ++ rest).
    rewrite (parseDecimal_parts negative (firstn m ds) (skipn m ds) _
               ("."%char :: skipn m ds ++ rest) rest rest 0).
    - rewrite firstn_skipn, V, length_skipn. do 3 f_equal.
      unfold k, m in *. lia.
    - apply spanDigits_app; [exact F1 | reflexivity].
    - destruct m as [|m']; [lia | discriminate].
    - destruct m as [|m']; [lia|]. unfold ds. simpl firstn.
      now apply leadingZero_digits.
    - apply parseFraction_some; [exact F2| |exact A].
      intro Z0. apply (f_equal (@length ascii)) in Z0.
      rewrite length_skipn in Z0. change (length (@nil ascii)) with 0%nat in Z0.
      lia.
    - now apply parseExponent_none. }
  destruct ((-6 <? n)%Z && (n <=? 0)%Z) eqn:C8.
  { (* zeros after the point, then the digits *)
    apply andb_true_iff in C8. destruct C8 as [_ C8]. apply Z.leb_le in C8.
    set (ds := digitChar d :: more) in *.
    set (j := Z.to_nat (- n)).
    change (("0"%char :: "."%char :: repeat "0"%char j ++ ds) ++ rest)
      with (["0"%char] ++ "."%char :: (repeat "0"%char j ++ ds) ++ rest).
    rewrite (parseDecimal_parts negative ["0"%char] (repeat "0"%char j ++ ds)
               _ ("."%char :: (repeat "0"%char j ++ ds) ++ rest) rest rest 0).
    - rewrite !valueOfDigits_app, valueOfDigits_zeros, V.
      rewrite length_app, repeat_length.
      change (valueOfDigits ["0"%char]) with 0%N.
      replace (0 * 10 ^ N.of_nat (j + length ds) + (0 * 10 ^ N.of_nat (length ds) + s))%N
        with s by lia.
      do 3 f_equal. unfold k, j in *. lia.
    - apply spanDigits_app; [|reflexivity].
      constructor; [reflexivity | constructor].
    - discriminate.
    - reflexivity.
    - apply parseFraction_some; [| |exact A].
      + apply Forall_app. split; [apply isDigit_zeros | exact Fd].
      + unfold ds. destruct (repeat "0"%char j); discriminate.
    - now apply parseExponent_none. }
  (* the exponent form *)
  assert (Ne : (n - 1 <> 0)%Z).
  { apply andb_false_iff in C6. apply andb_false_iff in C7.
    apply andb_false_iff in C8.
    destruct (Z.ltb_spec 0 n), (Z.leb_spec n 21), (Z.ltb_spec (-6) n),
      (Z.leb_spec n 0), (Z.leb_spec k n);
      try lia; destruct C6, C7, C8; discriminate. }
  unfold exponentForm.
  destruct more as [|c more].
  - (* one digit *)
    change (([] : list ascii) ++ ?x) with x. cbn [app].
    rewrite (parseDecimal_parts negative [digitChar d] [] _
               ("e"%char :: (if (n - 1 <? 0)%Z then "-"%char else "+"%char)
                         :: digitsOf (Z.abs_N (n - 1)) ++ rest)
               ("e"%char :: (if (n - 1 <? 0)%Z then "-"%char else "+"%char)
                         :: digitsOf (Z.abs_N (n - 1)) ++ rest)
               rest (n - 1)).
    + rewrite app_nil_r, V. do 3 f_equal. unfold k. simpl length. lia.
    + apply (spanDigits_app [digitChar d]); [|reflexivity].
      constructor; [apply digitChar_isDigit; lia | constructor].
    + discriminate.
    + reflexivity.
    + reflexivity.
    + now apply parseExponent_some.
  - (* a digit, a point, the others *)
    cbn [app]. rewrite <- app_assoc. cbn [app].
    rewrite (parseDecimal_parts negative [digitChar d] (c :: more) _
               ("."%char :: (c :: more)
                  ++ "e"%char :: (if (n - 1 <? 0)%Z then "-"%char else "+"%char)
                  :: digitsOf (Z.abs_N (n - 1)) ++ rest)
               ("e"%char :: (if (n - 1 <? 0)%Z then "-"%char else "+"%char)
                         :: digitsOf (Z.abs_N (n - 1)) ++ rest)
               rest (n - 1)).
    + change ([digitChar d] ++ c :: more) with (digitChar d :: c :: more).
      rewrite V. do 3 f_equal. unfold k. simpl length. lia.
    + apply (spanDigits_app [digitChar d]); [|reflexivity].
      constructor; [apply digitChar_isDigit; lia | constructor].
    + discriminate.
    + reflexivity.
    + apply parseFraction_some; [exact F | discriminate | reflexivity].
    + now apply parseExponent_some.
Qed.

Lemma stripZeros_spec (fuel : nat) :
  forall m,
    (0 < m < 10 ^ N.of_nat fuel)%N ->
    (m = fst (stripZeros fuel m) * 10 ^ N.of_nat (snd (stripZeros fuel m)))%N /\
    (0 < fst (stripZeros fuel m))%N /\
    (fst (stripZeros fuel m) mod 10 <> 0)%N.
Proof.
  induction fuel as [|f IH]; intros m H.
  - simpl in H. lia.
  - cbn [stripZeros].
    destruct (N.eqb_spec (m mod 10) 0) as [Z0|Z0].
    + replace (m =? 0)%N with false by (symmetry; apply N.eqb_neq; lia).
      cbn [andb negb].
      pose proof (N.div_mod m 10 ltac:(lia)) as Q. rewrite Z0 in Q.
      assert (B : (0 < m / 10 < 10 ^ N.of_nat f)%N).
      { replace (N.of_nat (S f)) with (N.succ (N.of_nat f)) in H by lia.
        rewrite N.pow_succ_r in H by lia.
        revert Q H. generalize (m / 10)%N. intros q Q H. lia. }
      destruct (IH (m / 10)%N B) as (E & P & R).
      destruct (stripZeros f (m / 10)) as [s t]. cbn [fst snd] in *.
      split; [|split; assumption].
      replace (N.of_nat (S t)) with (N.succ (N.of_nat t)) by lia.
      rewrite N.pow_succ_r by lia.
      revert Q E. generalize (m / 10)%N (10 ^ N.of_nat t)%N. intros q p Q E.
      subst q. lia.
    + cbn [andb fst snd]. split; [|split].
      * change (10 ^ N.of_nat 0)%N with 1%N. lia.
      * lia.
      * exact Z0.
Qed.

Lemma stripZeros_number (m : N) :
  (0 < m)%N ->
  (m = fst (stripZeros (N.size_nat m) m)
       * 10 ^ N.of_nat (snd (stripZeros (N.size_nat m) m)))%N /\
  (0 < fst (stripZeros (N.size_nat m) m))%N.
Proof.
  intro H.
  assert (B : (m < 10 ^ N.of_nat (N.size_nat m))%N).
  { destruct m as [|p]; [lia|]. simpl N.size_nat.
    pose proof (size_bound p). pose proof (pow2_le_pow10 (Pos.size_nat p)).
    lia. }
  destruct (stripZeros_spec (N.size_nat m) m (conj H B)) as (E & P & _).
  now split.
Qed.

(** A numeral starts with a digit. *)
Lemma decimalText_head (s : N) (n : Z) :
  (0 < s)%N ->
  exists c tail, decimalText s n = c :: tail /\ isDigit c = true.
Proof.
  intro H. destruct (digitsOf_spec s H) as (d & more & E & Dd & F & V).
  assert (Dg : isDigit (digitChar d) = true) by (apply digitChar_isDigit; lia).
  unfold decimalText. rewrite E. cbv zeta.
  set (k := Z.of_nat (length (digitChar d :: more))).
  destruct ((k <=? n)%Z && (n <=? 21)%Z).
  { cbn [app]. eexists; eexists; split; [reflexivity | exact Dg]. }
  destruct ((0 <? n)%Z && (n <=? 21)%Z) eqn:C7.
  { apply andb_true_iff in C7. destruct C7 as [C7 _]. apply Z.ltb_lt in C7.
    destruct (Z.to_nat n) as [|m] eqn:M; [lia|]. cbn [firstn app].
    eexists; eexists; split; [reflexivity | exact Dg]. }
  destruct ((-6 <? n)%Z && (n <=? 0)%Z).
  { eexists; eexists; split; [reflexivity | reflexivity]. }
  unfold exponentForm. cbn [app].
  eexists; eexists; split; [reflexivity | exact Dg].
Qed.

Lemma parseNumber_unsigned (s : N) (n : Z) (rest : list ascii) :
  (0 < s)%N ->
  parseNumber (decimalText s n ++ rest)
  = parseDecimal false (decimalText s n ++ rest).
Proof.
  intro H. destruct (decimalText_head s n H) as (c & tail & E & D).
  rewrite E. cbn [app parseNumber].
  now rewrite (proj1 (isDigit_not_sign c D)).
Qed.

Lemma parseNumber_signed (negative : bool) (s : N) (n : Z)
    (rest : list ascii) :
  (0 < s)%N ->
  parseNumber (((if negative then ["-"%char] else []) ++ decimalText s n)
                 ++ rest)
  = parseDecimal negative (decimalText s n ++ rest).
Proof.
  intro H. destruct negative.
  - reflexivity.
  - now apply parseNumber_unsigned.
Qed.

Lemma lastDigit_range (d : NonZeroDigit) : (1 <= lastDigit d <= 9)%N.
Proof. destruct d; simpl; lia. Qed.

Lemma nonZeroDigit_lastDigit (d : NonZeroDigit) :
  nonZeroDigit (lastDigit d) = d.
Proof. now destruct d. Qed.

(** A number that is written is read back as itself. *)
Lemma parseNumber_numberText (x : Number) (text rest : list ascii) :
  numberText x = Some text -> delimited rest ->
  parseNumber (text ++ rest) = Some (x, rest).
Proof.
  intros T D. destruct x as [z|negative tens last places| |];
    try discriminate T.
  - (* an integer *)
    destruct (Z.eq_dec z 0) as [->|NZ].
    + injection T as <-. cbn [app parseNumber].
      change (Ascii.eqb "0" "-") with false. cbv iota.
      rewrite (parseDecimal_parts false ["0"%char] [] _ rest rest rest 0).
      * reflexivity.
      * apply (spanDigits_app ["0"%char]);
          [constructor; [reflexivity | constructor]
          | now apply delimited_noDigitAhead].
      * discriminate.
      * reflexivity.
      * now apply parseFraction_none.
      * now apply parseExponent_none.
    + assert (P : (0 < Z.abs_N z)%N) by lia.
      destruct (stripZeros_number (Z.abs_N z) P) as [E S0].
      assert (T' : Some ((if (z <? 0)%Z then ["-"%char] else [])
                         ++ decimalText
                              (fst (stripZeros (N.size_nat (Z.abs_N z)) (Z.abs_N z)))
                              (Z.of_nat (length (digitsOf
                                 (fst (stripZeros (N.size_nat (Z.abs_N z)) (Z.abs_N z)))))
                               + Z.of_nat (snd (stripZeros (N.size_nat (Z.abs_N z)) (Z.abs_N z)))))
                  = Some text).
      { rewrite <- T. unfold numberText.
        destruct (stripZeros (N.size_nat (Z.abs_N z)) (Z.abs_N z)) as [s t].
        destruct z; [contradiction | reflexivity | reflexivity]. }
      injection T' as <-.
      destruct (stripZeros (N.size_nat (Z.abs_N z)) (Z.abs_N z)) as [s t].
      cbn [fst snd] in *.
      rewrite (parseNumber_signed (z <? 0)%Z s _ rest S0).
      rewrite (parseDecimal_decimalText _ s _ rest S0 D).
      f_equal. f_equal.
      replace (Z.of_nat (length (digitsOf s)) + Z.of_nat t
               - Z.of_nat (length (digitsOf s)))%Z with (Z.of_nat t) by lia.
      unfold decimalNumber.
      replace (s =? 0)%N with false by (symmetry; apply N.eqb_neq; lia).
      replace (0 <=? Z.of_nat t)%Z with true by (symmetry; apply Z.leb_le; lia).
      f_equal.
      assert (A : Z.abs z = (Z.of_N s * 10 ^ Z.of_nat t)%Z).
      { rewrite <- N2Z.inj_abs_N, E, N2Z.inj_mul, N2Z.inj_pow, nat_N_Z.
        reflexivity. }
      destruct (Z.ltb_spec z 0) as [L|L]; lia.
  - (* not an integer *)
    pose proof (lastDigit_range last) as R.
    assert (Et : text
                 = (if negative then ["-"%char] else [])
                   ++ decimalText (10 * tens + lastDigit last)%N
                        (Z.of_nat (length (digitsOf
                                     (10 * tens + lastDigit last)%N))
                         - Z.pos places))
      by (unfold numberText in T; cbv zeta in T; congruence).
    subst text. clear T.
    set (s := (10 * tens + lastDigit last)%N).
    assert (S0 : (0 < s)%N) by (unfold s; lia).
    rewrite (parseNumber_signed negative s _ rest S0).
    rewrite (parseDecimal_decimalText _ s _ rest S0 D).
    f_equal. f_equal.
    replace (Z.of_nat (length (digitsOf s)) - Z.pos places
             - Z.of_nat (length (digitsOf s)))%Z with (Z.neg places) by lia.
    unfold decimalNumber.
    replace (s =? 0)%N with false by (symmetry; apply N.eqb_neq; lia).
    change (0 <=? Z.neg places)%Z with false. cbv iota.
    change (- Z.neg places)%Z with (Z.pos places).
    destruct (Pos2Nat.is_succ places) as [fewer Ef].
    change (Z.to_nat (Z.pos places)) with (Pos.to_nat places).
    rewrite Ef. cbn [reduceFraction].
    assert (M : (s mod 10 = lastDigit last)%N /\ (s / 10 = tens)%N).
    { unfold s. split.
      - rewrite N.add_comm, N.mul_comm, N.Div0.mod_add.
        apply N.mod_small. lia.
      - rewrite N.add_comm, N.mul_comm, N.div_add by lia.
        rewrite N.div_small by lia. reflexivity. }
    destruct M as [M1 M2]. rewrite M1, M2.
    replace (lastDigit last =? 0)%N with false
      by (symmetry; apply N.eqb_neq; lia).
    rewrite nonZeroDigit_lastDigit. f_equal.
    apply Pos2Nat.inj. rewrite SuccNat2Pos.id_succ. now rewrite Ef.
Qed.

(** ** Strings *)

Lemma parseChars_quoteChar (c : ascii) (tail : list ascii) :
  parseChars (quoteChar c ++ tail)
  = match parseChars tail with
    | Some (cs, rest) => Some (c :: cs, rest)
    | None => None
    end.
Proof. destruct c as [[] [] [] [] [] [] [] []]; reflexivity. Qed.

Lemma parseChars_quoted (cs rest : list ascii) :
  parseChars (flat_map quoteChar cs ++ quoteMark :: rest) = Some (cs, rest).
Proof.
  induction cs as [|c cs IH].
  - reflexivity.
  - cbn [flat_map]. rewrite <- app_assoc, parseChars_quoteChar, IH.
    reflexivity.
Qed.

Lemma quote_app (s : string) (tail : list ascii) :
  quote s ++ tail
  = quoteMark :: flat_map quoteChar (list_ascii_of_string s)
      ++ quoteMark :: tail.
Proof. unfold quote. cbn [app]. now rewrite <- app_assoc. Qed.

(** ** Values *)

(** Induction on a value, with the items of an array and the values of an
    object as smaller values. *)
Lemma JSON_induction (P : JSON -> Prop) :
  P JNull -> (forall b, P (JBool b)) -> (forall x, P (JNumber x)) ->
  (forall s, P (JString s)) ->
  (forall items, Forall P items -> P (JArray items)) ->
  (forall fields, Forall (fun kv => P (snd kv)) fields -> P (JObject fields)) ->
  forall v, P v.
Proof.
  intros Hnull Hbool Hnum Hstr Harr Hobj.
  fix IH 1. intro v. destruct v as [|b|x|s|items|fields].
  - exact Hnull.
  - apply Hbool.
  - apply Hnum.
  - apply Hstr.
  - apply Harr. induction items as [|item items IHitems];
      constructor; [apply IH | exact IHitems].
  - apply Hobj. induction fields as [|[k v] fields IHfields];
      constructor; [apply IH | exact IHfields].
Qed.

(** How much fuel reading a value takes. *)
Fixpoint size (v : JSON) : nat :=
  match v with
  | JArray items => S (list_sum (map (fun item => S (size item)) items))
  | JObject fields => S (list_sum (map (fun kv => S (size (snd kv))) fields))
  | _ => 1
  end.

(** A character a value can start with. *)
Definition startsValue (c : ascii) : Prop :=
  isWhitespace c = false /\ Ascii.eqb c "]" = false.

Definition startsNumber (c : ascii) : bool := Ascii.eqb c "-" || isDigit c.

Lemma startsNumber_startsValue (c : ascii) :
  startsNumber c = true -> startsValue c.
Proof.
  destruct c as [[] [] [] [] [] [] [] []]; intro H; try discriminate H;
    split; reflexivity.
Qed.

Lemma parseValue_number (fuel : nat) (c : ascii) (tail : list ascii) :
  startsNumber c = true ->
  parseValue (S fuel) (c :: tail)
  = match parseNumber (c :: tail) with
    | Some (x, rest) => Some (JNumber x, rest)
    | None => None
    end.
Proof.
  destruct c as [[] [] [] [] [] [] [] []]; intro H; try discriminate H;
    reflexivity.
Qed.

Lemma numberText_head (x : Number) (text : list ascii) :
  numberText x = Some text ->
  exists c tail, text = c :: tail /\ startsNumber c = true.
Proof.
  assert (G : forall (negative : bool) s n,
             (0 < s)%N ->
             exists c tail,
               (if negative then ["-"%char] else []) ++ decimalText s n
               = c :: tail /\ startsNumber c = true).
  { intros negative s n H. destruct negative.
    - eexists; eexists; split; reflexivity.
    - destruct (decimalText_head s n H) as (c & tail & E & D).
      exists c, tail. split; [exact E|]. unfold startsNumber.
      rewrite D. apply orb_true_r. }
  intro T. destruct x as [z|negative tens last places| |];
    try discriminate T.
  - destruct (Z.eq_dec z 0) as [->|NZ].
    + injection T as <-. eexists; eexists; split; reflexivity.
    + destruct (stripZeros_number (Z.abs_N z) ltac:(lia)) as [_ S0].
      assert (T' : text
                   = (if (z <? 0)%Z then ["-"%char] else [])
                     ++ decimalText
                          (fst (stripZeros (N.size_nat (Z.abs_N z)) (Z.abs_N z)))
                          (Z.of_nat (length (digitsOf
                             (fst (stripZeros (N.size_nat (Z.abs_N z)) (Z.abs_N z)))))
                           + Z.of_nat (snd (stripZeros (N.size_nat (Z.abs_N z)) (Z.abs_N z))))).
      { unfold numberText in T.
        destruct (stripZeros (N.size_nat (Z.abs_N z)) (Z.abs_N z)) as [s t].
        destruct z; [contradiction | |]; cbv zeta in T; cbn [fst snd];
          congruence. }
      rewrite T'. now apply G.
  - pose proof (lastDigit_range last) as R.
    assert (Et : text
                 = (if negative then ["-"%char] else [])
                   ++ decimalText (10 * tens + lastDigit last)%N
                        (Z.of_nat (length (digitsOf
                                     (10 * tens + lastDigit last)%N))
                         - Z.pos places))
      by (unfold numberText in T; cbv zeta in T; congruence).
    rewrite Et. apply G. lia.
Qed.

Lemma numberText_infinite (x : Number) :
  numberText x = None -> written (JNumber x) = JNull.
Proof.
  destruct x as [z|negative tens last places| |]; try reflexivity.
  - unfold numberText.
    destruct (stripZeros (N.size_nat (Z.abs_N z)) (Z.abs_N z)).
    destruct z; discriminate.
  - discriminate.
Qed.

Lemma numberText_finite (x : Number) (text : list ascii) :
  numberText x = Some text -> written (JNumber x) = JNumber x.
Proof. destruct x; try reflexivity; discriminate. Qed.

(** What a written value starts with. *)
Lemma write_head (v : JSON) :
  exists c tail, write v = c :: tail /\ startsValue c.
Proof.
  destruct v as [|[|]|x|s|items|fields];
    try (eexists; eexists; split; [reflexivity | split; reflexivity]).
  cbn [write]. destruct (numberText x) as [text|] eqn:T.
  - destruct (numberText_head x text T) as (c & tail & E & S0).
    exists c, tail. split; [exact E | now apply startsNumber_startsValue].
  - eexists; eexists; split; [reflexivity | split; reflexivity].
Qed.

(** [reads v]: after the text of [v], and with fuel for it, the parser
    has the value that was written and the text that follows. *)
Definition reads (v : JSON) : Prop :=
  forall fuel rest,
    (size v <= fuel)%nat -> delimited rest ->
    parseValue fuel (write v ++ rest) = Some (written v, rest).

Lemma reads_null : reads JNull.
Proof.
  intros fuel rest F D. destruct fuel as [|f]; [simpl in F; lia|]. reflexivity.
Qed.

Lemma reads_bool (b : bool) : reads (JBool b).
Proof.
  intros fuel rest F D. destruct fuel as [|f]; [simpl in F; lia|].
  destruct b; reflexivity.
Qed.

Lemma reads_number (x : Number) : reads (JNumber x).
Proof.
  intros fuel rest F D. destruct fuel as [|f]; [simpl in F; lia|].
  cbn [write]. destruct (numberText x) as [text|] eqn:T.
  - destruct (numberText_head x text T) as (c & tail & E & S0).
    rewrite (numberText_finite x text T).
    rewrite E. cbn [app]. rewrite (parseValue_number f c _ S0).
    change (c :: tail ++ rest) with ((c :: tail) ++ rest). rewrite <- E.
    now rewrite (parseNumber_numberText x text rest T D).
  - rewrite (numberText_infinite x T). reflexivity.
Qed.

Lemma reads_string (s : string) : reads (JString s).
Proof.
  intros fuel rest F D. destruct fuel as [|f]; [simpl in F; lia|].
  cbn [write written]. rewrite quote_app.
  cbn [parseValue skipWhitespace].
  change (isWhitespace quoteMark) with false. cbv iota.
  change (Ascii.eqb quoteMark "n") with false.
  change (Ascii.eqb quoteMark "t") with false.
  change (Ascii.eqb quoteMark "f") with false.
  change (Ascii.eqb quoteMark quoteMark) with true. cbv iota.
  rewrite parseChars_quoted. now rewrite string_of_list_ascii_of_string.
Qed.

Lemma skipWhitespace_value (v : JSON) (rest : list ascii) :
  skipWhitespace (write v ++ rest) = write v ++ rest.
Proof.
  destruct (write_head v) as (c & tail & E & W & _). rewrite E.
  cbn [app skipWhitespace]. now rewrite W.
Qed.

(** The items of an array, the first one read already or not. *)
Lemma parseElements_written (items : list JSON) :
  items <> [] -> Forall reads items ->
  forall fuel rest,
    (list_sum (map (fun item => S (size item)) items) <= fuel)%nat ->
    parseElements fuel (joinWith "," (map write items) ++ "]"%char :: rest)
    = Some (map written items, rest).
Proof.
  intros N F. induction F as [|item items R F IH]; [contradiction|].
  intros fuel rest B. cbn [map list_sum fold_right] in B.
  destruct fuel as [|f]; [lia|]. cbn [parseElements].
  destruct items as [|next more].
  - cbn [map joinWith]. cbn [map list_sum fold_right] in B.
    rewrite (R f ("]"%char :: rest)) by (try lia; repeat split).
    reflexivity.
  - change (joinWith "," (map write (item :: next :: more)))
      with (write item ++ ","%char :: joinWith "," (map write (next :: more))).
    rewrite <- app_assoc. cbn [app].
    rewrite (R f (","%char
                    :: joinWith "," (map write (next :: more))
                    ++ "]"%char :: rest)) by (try lia; repeat split).
    cbn [skipWhitespace]. change (isWhitespace ",") with false. cbv iota.
    change (Ascii.eqb "," ",") with true. cbv iota.
    rewrite (IH ltac:(discriminate) f rest) by (cbn [map list_sum fold_right] in *; lia).
    reflexivity.
Qed.

Lemma reads_array (items : list JSON) :
  Forall reads items -> reads (JArray items).
Proof.
  intros F fuel rest B D. destruct fuel as [|f]; [simpl in B; lia|].
  cbn [size] in B. cbn [write written app].
  cbn [parseValue skipWhitespace].
  change (isWhitespace "[") with false. cbv iota.
  change (Ascii.eqb "[" "n") with false.
  change (Ascii.eqb "[" "t") with false.
  change (Ascii.eqb "[" "f") with false.
  change (Ascii.eqb "[" quoteMark) with false.
  change (Ascii.eqb "[" "[") with true. cbv iota.
  destruct items as [|item more].
  - reflexivity.
  - rewrite <- app_assoc. cbn [app].
    assert (H : exists c tail,
               skipWhitespace (joinWith "," (map write (item :: more))
                                 ++ "]"%char :: rest) = c :: tail
               /\ Ascii.eqb c "]" = false).
    { destruct (write_head item) as (c & tail & E & W & N).
      destruct more as [|next more]; cbn [map joinWith]; rewrite E;
        cbn [app skipWhitespace]; rewrite W; eexists; eexists;
        (split; [reflexivity | exact N]). }
    destruct H as (c & tail & E & N). rewrite E, N.
    rewrite (parseElements_written (item :: more) ltac:(discriminate) F f rest)
      by lia.
    reflexivity.
Qed.

Definition freshFor (seen : list (string * JSON)) (k : string) : Prop :=
  existsb (String.eqb k) (map fst seen) = false.

Lemma setField_fresh (k : string) (v : JSON) (seen : list (string * JSON)) :
  freshFor seen k -> setField k v seen = seen ++ [(k, v)].
Proof.
  unfold freshFor. induction seen as [|[k' v'] seen IH]; intro H.
  - reflexivity.
  - cbn [map fst existsb] in H. apply orb_false_iff in H.
    destruct H as [H1 H2]. cbn [setField app]. rewrite H1.
    now rewrite (IH H2).
Qed.

Definition memberText (kv : string * JSON) : list ascii :=
  quote (fst kv) ++ ":"%char :: write (snd kv).

(** The members of an object, after those read already. *)
Lemma parseMembers_written (fields : list (string * JSON)) :
  fields <> [] -> Forall (fun kv => reads (snd kv)) fields ->
  forall fuel seen rest,
    (list_sum (map (fun kv => S (size (snd kv))) fields) <= fuel)%nat ->
    distinct (map fst fields) = true ->
    (forall k, In k (map fst fields) -> freshFor seen k) ->
    parseMembers fuel seen
      (joinWith "," (map memberText fields) ++ "}"%char :: rest)
    = Some (seen ++ map (fun kv => (fst kv, written (snd kv))) fields, rest).
Proof.
  intros N F. induction F as [|[k v] fields R F IH]; [contradiction|].
  intros fuel seen rest B U Fr. cbn [map list_sum fold_right fst snd] in B.
  cbn [snd] in R.
  destruct fuel as [|f]; [lia|].
  cbn [map fst distinct] in U. apply andb_true_iff in U.
  destruct U as [U1 U2]. apply negb_true_iff in U1.
  assert (Fk : freshFor seen k) by (apply Fr; left; reflexivity).
  assert (Step : forall tail,
            delimited tail ->
            parseMembers (S f) seen (memberText (k, v) ++ tail)
            = match skipWhitespace tail with
              | c :: s5 =>
                  if Ascii.eqb c ","
                  then parseMembers f (seen ++ [(k, written v)]) s5
                  else if Ascii.eqb c "}"
                       then Some (seen ++ [(k, written v)], s5)
                       else None
              | [] => None
              end).
  { intros tail D. unfold memberText. cbn [fst snd].
    rewrite <- app_assoc. rewrite quote_app. cbn [app].
    cbn [parseMembers skipWhitespace].
    change (isWhitespace quoteMark) with false. cbv iota.
    change (Ascii.eqb quoteMark quoteMark) with true. cbv iota.
    rewrite parseChars_quoted. cbn [skipWhitespace].
    change (isWhitespace ":") with false. cbv iota.
    change (Ascii.eqb ":" ":") with true. cbv iota.
    rewrite (R f tail) by (try lia; exact D).
    rewrite string_of_list_ascii_of_string.
    now rewrite (setField_fresh k (written v) seen Fk). }
  destruct fields as [|next more].
  - cbn [map joinWith]. rewrite (Step ("}"%char :: rest)) by (repeat split).
    cbn [skipWhitespace]. change (isWhitespace "}") with false. cbv iota.
    change (Ascii.eqb "}" ",") with false.
    change (Ascii.eqb "}" "}") with true. cbv iota. reflexivity.
  - change (joinWith "," (map memberText ((k, v) :: next :: more)))
      with (memberText (k, v)
              ++ ","%char :: joinWith "," (map memberText (next :: more))).
    rewrite <- app_assoc. cbn [app].
    rewrite Step by (repeat split).
    cbn [skipWhitespace]. change (isWhitespace ",") with false. cbv iota.
    change (Ascii.eqb "," ",") with true. cbv iota.
    rewrite (IH ltac:(discriminate) f (seen ++ [(k, written v)]) rest).
    + rewrite <- app_assoc. reflexivity.
    + cbn [map list_sum fold_right] in *. lia.
    + exact U2.
    + intros k' Hk'. unfold freshFor. rewrite map_app, existsb_app.
      apply orb_false_iff. split.
      * apply Fr. right. exact Hk'.
      * cbn [map fst existsb]. rewrite orb_false_r.
        destruct (String.eqb_spec k' k) as [->|Ne]; [|reflexivity].
        exfalso.
        assert (X : existsb (String.eqb k) (map fst (next :: more)) = true).
        { apply existsb_exists. exists k. split; [exact Hk'|].
          apply String.eqb_refl. }
        congruence.
Qed.

Lemma write_object (fields : list (string * JSON)) :
  write (JObject fields)
  = "{"%char :: joinWith "," (map memberText fields) ++ ["}"%char].
Proof. reflexivity. Qed.

Lemma reads_object (fields : list (string * JSON)) :
  distinct (map fst fields) = true ->
  Forall (fun kv => reads (snd kv)) fields -> reads (JObject fields).
Proof.
  intros U F fuel rest B D. destruct fuel as [|f]; [simpl in B; lia|].
  cbn [size] in B. rewrite write_object. cbn [written app].
  cbn [parseValue skipWhitespace].
  change (isWhitespace "{") with false. cbv iota.
  change (Ascii.eqb "{" "n") with false.
  change (Ascii.eqb "{" "t") with false.
  change (Ascii.eqb "{" "f") with false.
  change (Ascii.eqb "{" quoteMark) with false.
  change (Ascii.eqb "{" "[") with false.
  change (Ascii.eqb "{" "{") with true. cbv iota.
  destruct fields as [|[k v] more].
  - reflexivity.
  - rewrite <- app_assoc. cbn [app].
    assert (H : skipWhitespace (joinWith "," (map memberText ((k, v) :: more))
                                  ++ "}"%char :: rest)
                = joinWith "," (map memberText ((k, v) :: more))
                    ++ "}"%char :: rest
                /\ exists tail,
                     joinWith "," (map memberText ((k, v) :: more))
                       ++ "}"%char :: rest = quoteMark :: tail).
    { destruct more as [|next more]; cbn [map joinWith];
        unfold memberText at 1; cbn [fst snd]; unfold quote;
        cbn [app skipWhitespace]; (split; [reflexivity | eexists; reflexivity]). }
    destruct H as (E & tail & E'). rewrite E. rewrite E'.
    change (Ascii.eqb quoteMark "}") with false. cbv iota. rewrite <- E'.
    rewrite (parseMembers_written ((k, v) :: more) ltac:(discriminate) F
               f [] rest).
    + reflexivity.
    + lia.
    + exact U.
    + intros k' _. reflexivity.
Qed.

(** Every value without a repeated key is read back as it was written. *)
Lemma reads_all (v : JSON) : uniqueKeys v = true -> reads v.
Proof.
  induction v as [|b|x|s|items IH|fields IH] using JSON_induction; intro U.
  - apply reads_null.
  - apply reads_bool.
  - apply reads_number.
  - apply reads_string.
  - apply reads_array. cbn [uniqueKeys] in U.
    rewrite forallb_forall in U. rewrite Forall_forall in *.
    intros item Hi. apply IH; [exact Hi | now apply U].
  - cbn [uniqueKeys] in U. apply andb_true_iff in U. destruct U as [U1 U2].
    apply reads_object; [exact U1|].
    rewrite forallb_forall in U2. rewrite Forall_forall in *.
    intros kv Hk. apply IH; [exact Hk | now apply U2].
Qed.

(** ** The whole text *)

Lemma joinWith_length (sep : ascii) (parts : list (list ascii)) :
  (list_sum (map (fun p => S (length p)) parts)
   <= S (length (joinWith sep parts)))%nat.
Proof.
  induction parts as [|p parts IH]; [simpl; lia|].
  destruct parts as [|q parts].
  - simpl. lia.
  - change (joinWith sep (p :: q :: parts))
      with (p ++ sep :: joinWith sep (q :: parts)).
    rewrite length_app. cbn [map list_sum fold_right length] in *. lia.
Qed.

Lemma list_sum_le {A : Type} (f g : A -> nat) (l : list A) :
  Forall (fun a => (f a <= g a)%nat) l ->
  (list_sum (map f l) <= list_sum (map g l))%nat.
Proof. induction 1; simpl; lia. Qed.

Lemma size_le_length (v : JSON) : (size v <= length (write v))%nat.
Proof.
  induction v as [|b|x|s|items IH|fields IH] using JSON_induction.
  - simpl. lia.
  - destruct b; simpl; lia.
  - destruct (write_head (JNumber x)) as (c & tail & E & _). rewrite E.
    simpl. lia.
  - destruct (write_head (JString s)) as (c & tail & E & _). rewrite E.
    simpl. lia.
  - cbn [size write length]. rewrite length_app. cbn [length].
    pose proof (joinWith_length "," (map write items)) as J.
    rewrite map_map in J.
    pose proof (list_sum_le (fun item => S (size item))
                  (fun item => S (length (write item))) items) as L.
    assert (Fa : Forall (fun a => (S (size a) <= S (length (write a)))%nat) items).
    { rewrite Forall_forall in *. intros a Ha. specialize (IH a Ha). lia. }
    specialize (L Fa). lia.
  - rewrite write_object. cbn [size length]. rewrite length_app. cbn [length].
    pose proof (joinWith_length "," (map memberText fields)) as J.
    rewrite map_map in J.
    pose proof (list_sum_le (fun kv => S (size (snd kv)))
                  (fun kv => S (length (memberText kv))) fields) as L.
    assert (Fa : Forall (fun kv => (S (size (snd kv))
                                    <= S (length (memberText kv)))%nat) fields).
    { rewrite Forall_forall in *. intros kv Hk. specialize (IH kv Hk).
      unfold memberText. rewrite length_app. cbn [length]. lia. }
    specialize (L Fa). lia.
Qed.

(** [JSON.parse(JSON.stringify(v))] is [v] with [null] for every infinity,
    for a value in which no object has a key twice. *)
Lemma parse_stringify (v : JSON) :
  uniqueKeys v = true -> parse (stringify v) = Some (written v).
Proof.
  intro U. unfold parse, stringify.
  rewrite list_ascii_of_string_of_list_ascii.
  pose proof (reads_all v U (S (length (write v))) []
                ltac:(pose proof (size_le_length v); lia) I) as R.
  rewrite app_nil_r in R. rewrite R. reflexivity.
Qed.

End JsonFacts.

Module WireFacts.
Local Open Scope Z_scope.
Local Open Scope string_scope.
Local Open Scope list_scope.

(** ** Schema validation reads back what was written *)

Lemma parseAll_map {A B : Type} (f : JSON -> option B) (g : A -> JSON)
    (h : A -> B) (l : list A) :
  (forall x, f (g x) = Some (h x)) ->
  parseAll f (map g l) = Some (map h l).
Proof.
  intro H. induction l as [|x t IH]; simpl; [reflexivity|].
  now rewrite H, IH.
Qed.

Lemma parseAll_id {A : Type} (f : JSON -> option A) (g : A -> JSON)
    (l : list A) :
  (forall x, f (g x) = Some x) -> parseAll f (map g l) = Some l.
Proof.
  intro H. rewrite (parseAll_map f g (fun x => x)) by exact H.
  now rewrite map_id.
Qed.

Lemma capitalize_colorName (c : Color) :
  capitalize (Ts.colorName c) = Wasm.colorName c.
Proof. now destruct c. Qed.

Lemma Ts_parseColor_name (c : Color) :
  Ts.parseColor (JString (Ts.colorName c)) = Some c.
Proof. now destruct c. Qed.

Lemma Wasm_parseColor_name (c : Color) :
  Wasm.parseColor (JString (Wasm.colorName c)) = Some c.
Proof. now destruct c. Qed.

Lemma parseQuality_name (q : Quality) :
  parseQuality (JString (qualityName q)) = Some q.
Proof. now destruct q. Qed.

Lemma parseNullableNumber_toJSON (n : option Number) :
  parseNullableNumber (nullableNumberToJSON n) = Some n.
Proof. now destruct n. Qed.

Lemma Ts_parseCell_toJSON (c : Cell) : Ts.parseCell (Ts.cellToJSON c) = Some c.
Proof. now destruct c as [[|]|]. Qed.

Lemma Wasm_parseCell_toJSON (c : Wasm.WasmCell) :
  Wasm.parseCell (Wasm.cellToJSON c) = Some c.
Proof. now destruct c as [|[|]]. Qed.

Lemma Ts_parseBoard_toJSON (b : Board) :
  boardShape b = true ->
  Ts.parseBoard
    (JArray (map (fun col => JArray (map Ts.cellToJSON col)) b)) = Some b.
Proof.
  intro H. unfold Ts.parseBoard, parseArray.
  rewrite parseAll_id; [now rewrite H|].
  intro col. apply parseAll_id. apply Ts_parseCell_toJSON.
Qed.

(** Schema validation reads back what [toJSON] wrote, camelCase variant. *)
Lemma Ts_parse_toJSON (s : Ts.ExtendedGameState) :
  boardShape (Ts.board s) = true ->
  Ts.ExtendedGameStateSchema_parse (Ts.toJSON s) = Some s.
Proof.
  intro H. destruct s as [b p o w n c q]. simpl in H.
  unfold Ts.toJSON, Ts.ExtendedGameStateSchema_parse.
  cbn -[Ts.parseBoard Ts.parseColor Ts.colorName Ts.cellToJSON parseQuality
        qualityName parseNullableNumber nullableNumberToJSON Ts.parseWinner
        Ts.winnerToJSON].
  rewrite (Ts_parseBoard_toJSON b H), Ts_parseColor_name.
  rewrite !parseNullableNumber_toJSON, parseQuality_name.
  now destruct w as [[|]|].
Qed.

(** The same for the snake_case variant. *)
Lemma Wasm_parse_toJSON (s : Wasm.ExtendedGameState) :
  Wasm.ExtendedGameStateSchema_parse (Wasm.toJSON s) = Some s.
Proof.
  destruct s as [b p o w n c q].
  unfold Wasm.toJSON, Wasm.ExtendedGameStateSchema_parse.
  assert (B : parseArray (parseArray Wasm.parseCell)
                (JArray (map (fun col => JArray (map Wasm.cellToJSON col)) b))
              = Some b).
  { unfold parseArray. apply parseAll_id. intro col. apply parseAll_id.
    apply Wasm_parseCell_toJSON. }
  destruct w as [[w|]|];
    cbn -[parseArray Wasm.parseColor Wasm.colorName Wasm.cellToJSON
          parseQuality qualityName parseNullableNumber nullableNumberToJSON];
    rewrite B, !Wasm_parseColor_name;
    rewrite !parseNullableNumber_toJSON, parseQuality_name;
    reflexivity.
Qed.

Lemma sameFields_refl (o : list (string * JSON)) :
  sameFields (JObject o) (JObject o).
Proof. simpl. reflexivity. Qed.

(** The schemas read an object by key: two objects with the same fields
    validate alike. *)
Lemma Ts_parse_sameFields (v v' : JSON) :
  sameFields v v' ->
  Ts.ExtendedGameStateSchema_parse v = Ts.ExtendedGameStateSchema_parse v'.
Proof.
  destruct v as [| | | | |o], v' as [| | | | |o']; simpl; try contradiction.
  intro H. now rewrite !H.
Qed.

Lemma Wasm_parse_sameFields (v v' : JSON) :
  sameFields v v' ->
  Wasm.ExtendedGameStateSchema_parse v = Wasm.ExtendedGameStateSchema_parse v'.
Proof.
  destruct v as [| | | | |o], v' as [| | | | |o']; simpl; try contradiction.
  intro H. now rewrite !H.
Qed.

(** ** The text of a state *)

Lemma field_written (k : string) (o : list (string * JSON)) :
  field k (map (fun kv => (fst kv, Json.written (snd kv))) o)
  = option_map Json.written (field k o).
Proof.
  induction o as [|[k' v] o IH]; [reflexivity|].
  cbn [map fst snd field]. destruct (String.eqb k k'); [reflexivity | exact IH].
Qed.

(** Reading by key does not depend on what [JSON.stringify] does to the
    values. *)
Lemma sameFields_written (v v' : JSON) :
  sameFields v v' -> sameFields (Json.written v) (Json.written v').
Proof.
  destruct v as [| | | | |o], v' as [| | | | |o']; simpl; try contradiction.
  intros H k. now rewrite !field_written, H.
Qed.

Lemma written_column (n : option Number) :
  Json.written (nullableNumberToJSON n)
  = nullableNumberToJSON (writtenColumn n).
Proof. now destruct n as [[ | | | ]|]. Qed.

Lemma written_id (l : list JSON) :
  (forall v, In v l -> Json.written v = v) -> map Json.written l = l.
Proof.
  intro H. rewrite <- (map_id l) at 2. apply map_ext_in. exact H.
Qed.

Lemma written_rows {A : Type} (cellToJSON : A -> JSON) (b : list (list A)) :
  (forall c, Json.written (cellToJSON c) = cellToJSON c) ->
  Json.written (JArray (map (fun col => JArray (map cellToJSON col)) b))
  = JArray (map (fun col => JArray (map cellToJSON col)) b).
Proof.
  intro H. cbn [Json.written]. f_equal. apply written_id.
  intros v Hv. apply in_map_iff in Hv. destruct Hv as (col & <- & _).
  cbn [Json.written]. f_equal. apply written_id.
  intros c Hc. apply in_map_iff in Hc. destruct Hc as (x & <- & _). apply H.
Qed.

Lemma Ts_written_toJSON (s : Ts.ExtendedGameState) :
  Json.written (Ts.toJSON s) = Ts.toJSON (tsWritten s).
Proof.
  destruct s as [b p o w n c q]. unfold Ts.toJSON, tsWritten.
  cbn [Ts.board Ts.currentPlayer Ts.isGameOver Ts.winner
       Ts.newestPieceColumn Ts.newestComputerPieceColumn Ts.minimaxQuality].
  change (Json.written (JObject ?f))
    with (JObject (map (fun kv => (fst kv, Json.written (snd kv))) f)).
  cbn [map fst snd].
  rewrite (written_rows Ts.cellToJSON b)
    by (intros [[|]|]; reflexivity).
  rewrite !written_column.
  now destruct w as [[|]|].
Qed.

Lemma Wasm_written_toJSON (s : Wasm.ExtendedGameState) :
  Json.written (Wasm.toJSON s) = Wasm.toJSON (wasmWritten s).
Proof.
  destruct s as [b p o w n c q]. unfold Wasm.toJSON, wasmWritten.
  cbn [Wasm.board Wasm.current_player Wasm.is_game_over Wasm.winner
       Wasm.newestPieceColumn Wasm.newestComputerPieceColumn
       Wasm.minimaxQuality].
  change (Json.written (JObject ?f))
    with (JObject (map (fun kv => (fst kv, Json.written (snd kv))) f)).
  rewrite !map_app. cbn [map fst snd].
  rewrite (written_rows Wasm.cellToJSON b)
    by (intros [|[|]]; reflexivity).
  rewrite !written_column.
  now destruct w as [[[|]|]|].
Qed.

Lemma writtenColumn_finite (n : option Number) :
  isFinite n = true -> writtenColumn n = n.
Proof. now destruct n as [[ | | | ]|]. Qed.

(** The camelCase page reads its own text, whatever [crush] makes of it,
    as long as [uncrush] undoes that. *)
Lemma decodeState_encodeValue (crush : string -> string)
    (uncrush : string -> option string) (ts : Ts.ExtendedGameState)
    (tsObject : JSON) :
  boardShape (Ts.board ts) = true ->
  sameFields tsObject (Ts.toJSON ts) -> Json.uniqueKeys tsObject = true ->
  uncrush (crush (Json.stringify tsObject)) = Some (Json.stringify tsObject) ->
  Page.decodeState uncrush Json.parse
    (Page.encodeValue crush Json.stringify tsObject)
  = Some (tsWritten ts).
Proof.
  intros Hb S U C. unfold Page.decodeState, Page.encodeValue.
  rewrite C, (JsonFacts.parse_stringify tsObject U).
  rewrite (Ts_parse_sameFields _ _ (sameFields_written _ _ S)).
  rewrite Ts_written_toJSON. now apply Ts_parse_toJSON.
Qed.

Lemma decodeWasmState_encodeValue (crush : string -> string)
    (uncrush : string -> option string) (ws : Wasm.ExtendedGameState)
    (wasmObject : JSON) :
  sameFields wasmObject (Wasm.toJSON ws) ->
  Json.uniqueKeys wasmObject = true ->
  uncrush (crush (Json.stringify wasmObject))
  = Some (Json.stringify wasmObject) ->
  Page.decodeWasmState uncrush Json.parse
    (Page.encodeValue crush Json.stringify wasmObject)
  = Some (wasmWritten ws).
Proof.
  intros S U C. unfold Page.decodeWasmState, Page.encodeValue.
  rewrite C, (JsonFacts.parse_stringify wasmObject U).
  rewrite (Wasm_parse_sameFields _ _ (sameFields_written _ _ S)).
  rewrite Wasm_written_toJSON. apply Wasm_parse_toJSON.
Qed.

(** C4, as amended.  Round trip through the wire for both naming
    variants: a state written with [JSON.stringify] and [JSONCrush.crush] and
    read with [JSONCrush.uncrush], [JSON.parse] and the schema is the state
    that was written in every field (board cells, current player, game-over
    flag, winner null, absent or a color as it was, quality, and the two
    column numbers), except that a column number that is an infinity is read
    back as [null]; with both column numbers null or finite it is the state
    that was written; the board cells, the player, the flag and the winner
    are read back as written in every case.  This holds whatever the order
    of the keys in the written object.  [JSON.stringify] and [JSON.parse] are
    the functions of the language; of [JSONCrush], which is not among the
    sources, only that [uncrush] returns the text [crush] was given is used.
    The camelCase board has its 7 x 6 shape. *)
Theorem wire_round_trip
    (crush : string -> string) (uncrush : string -> option string)
    (ts : Ts.ExtendedGameState) (ws : Wasm.ExtendedGameState)
    (tsObject wasmObject : JSON) :
  boardShape (Ts.board ts) = true ->
  objectFor (Ts.toJSON ts) tsObject ->
  objectFor (Wasm.toJSON ws) wasmObject ->
  uncrush (crush (Json.stringify tsObject)) = Some (Json.stringify tsObject) ->
  uncrush (crush (Json.stringify wasmObject))
  = Some (Json.stringify wasmObject) ->
  (Page.decodeState uncrush Json.parse
     (Page.encodeValue crush Json.stringify tsObject) = Some (tsWritten ts) /\
   Page.decodeWasmState uncrush Json.parse
     (Page.encodeValue crush Json.stringify wasmObject)
   = Some (wasmWritten ws)) /\
  (isFinite (Ts.newestPieceColumn ts) = true ->
   isFinite (Ts.newestComputerPieceColumn ts) = true -> tsWritten ts = ts) /\
  (isFinite (Wasm.newestPieceColumn ws) = true ->
   isFinite (Wasm.newestComputerPieceColumn ws) = true ->
   wasmWritten ws = ws) /\
  Ts.board (tsWritten ts) = Ts.board ts /\
  Ts.currentPlayer (tsWritten ts) = Ts.currentPlayer ts /\
  Ts.isGameOver (tsWritten ts) = Ts.isGameOver ts /\
  Ts.winner (tsWritten ts) = Ts.winner ts /\
  Wasm.board (wasmWritten ws) = Wasm.board ws /\
  Wasm.current_player (wasmWritten ws) = Wasm.current_player ws /\
  Wasm.is_game_over (wasmWritten ws) = Wasm.is_game_over ws /\
  Wasm.winner (wasmWritten ws) = Wasm.winner ws.
Proof.
  intros Hb [S1 U1] [S2 U2] C1 C2. split; [split|split; [|split]].
  - now apply decodeState_encodeValue.
  - now apply decodeWasmState_encodeValue.
  - intros F1 F2. destruct ts as [b p o w n c q]. unfold tsWritten.
    cbn in *. now rewrite !writtenColumn_finite.
  - intros F1 F2. destruct ws as [b p o w n c q]. unfold wasmWritten.
    cbn in *. now rewrite !writtenColumn_finite.
  - repeat split.
Qed.

Lemma wire_round_trip_witness :
  Page.decodeState Some Json.parse
    (Page.encodeState (fun t => t) Json.stringify Page.sampleTs)
  = Some Page.sampleTs /\
  Page.decodeWasmState Some Json.parse
    (Page.encodeWasmState (fun t => t) Json.stringify Page.sampleWasm)
  = Some Page.sampleWasm.
Proof.
  exact (proj1 (wire_round_trip (fun t => t) Some Page.sampleTs
                  Page.sampleWasm (Ts.toJSON Page.sampleTs)
                  (Wasm.toJSON Page.sampleWasm)
                  eq_refl (conj (sameFields_refl _) eq_refl)
                  (conj (sameFields_refl _) eq_refl)
                  eq_refl eq_refl)).
Defined.

(** C4, the claim as it was stated, fails.  The state with an infinity
    for [newestPieceColumn] passes the schema; its text has [null] there, and
    whatever [JSONCrush] does, as long as [uncrush] returns that text, the
    state read back has [null] for the column and is another state. *)
Lemma wire_round_trip_loses_infinity :
  Ts.ExtendedGameStateSchema_parse (Ts.toJSON infiniteColumnState)
  = Some infiniteColumnState /\
  Json.stringify (Ts.toJSON infiniteColumnState)
  = Json.stringify (Ts.toJSON nullColumnState) /\
  (forall (crush : string -> string) (uncrush : string -> option string),
     uncrush (crush (Json.stringify (Ts.toJSON infiniteColumnState)))
     = Some (Json.stringify (Ts.toJSON infiniteColumnState)) ->
     Page.decodeState uncrush Json.parse
       (Page.encodeState crush Json.stringify infiniteColumnState)
     = Some nullColumnState) /\
  Page.decodeState Some Json.parse
    (Page.encodeState (fun t => t) Json.stringify infiniteColumnState)
  <> Some infiniteColumnState.
Proof.
  split; [reflexivity|]. split; [reflexivity|]. split.
  - intros crush uncrush C. unfold Page.decodeState, Page.encodeState,
      Page.encodeValue. rewrite C. reflexivity.
  - discriminate.
Qed.

(** ** The bridge between the two naming conventions *)

Lemma tsCellOf_wasmCellOf (c : Cell) : tsCellOf (wasmCellOf c) = c.
Proof. now destruct c. Qed.

Lemma map_map_id {A B : Type} (f : A -> B) (g : B -> A) (l : list (list A)) :
  (forall x, g (f x) = x) -> map (map g) (map (map f) l) = l.
Proof.
  intro H. rewrite map_map. rewrite <- (map_id l) at 2.
  apply map_ext. intro col. rewrite map_map. rewrite <- (map_id col) at 2.
  now apply map_ext.
Qed.

(** What the bridge writes is the serialization of a WASM-variant state. *)
Lemma convert_is_toJSON (ts : Ts.ExtendedGameState) :
  convertTsToWasmGameState ts =
  Wasm.toJSON
    (Wasm.mkExtended (map (map wasmCellOf) (Ts.board ts))
       (Ts.currentPlayer ts) (Ts.isGameOver ts) (Some (Ts.winner ts))
       (Ts.newestPieceColumn ts) (Ts.newestComputerPieceColumn ts)
       (Ts.minimaxQuality ts)).
Proof.
  destruct ts as [b p o w n c q].
  unfold convertTsToWasmGameState, Wasm.toJSON.
  cbn -[capitalize Ts.colorName Wasm.colorName nullableNumberToJSON
        qualityName Wasm.cellToJSON wasmCellOf].
  rewrite !capitalize_colorName.
  replace (map (fun col => JArray (map Wasm.cellToJSON col))
             (map (map wasmCellOf) b))
    with (map (fun column : Column =>
                 JArray (map (fun cell : Cell =>
                   match cell with
                   | None => JString "Empty"
                   | Some c0 =>
                       JObject [("Filled",
                                 JString (capitalize (Ts.colorName c0)))]
                   end) column)) b).
  - now destruct w as [w|]; [rewrite capitalize_colorName|].
  - rewrite map_map. apply map_ext. intro col. f_equal. rewrite map_map.
    apply map_ext. intros [c0|]; [|reflexivity].
    simpl. now rewrite capitalize_colorName.
Qed.

Lemma convert_inverse (ts : Ts.ExtendedGameState) :
  option_map wasmToTs
    (Wasm.ExtendedGameStateSchema_parse (convertTsToWasmGameState ts))
  = Some ts.
Proof.
  rewrite convert_is_toJSON, Wasm_parse_toJSON. simpl. unfold wasmToTs.
  destruct ts as [b p o w n c q]. simpl.
  now rewrite (map_map_id wasmCellOf tsCellOf b tsCellOf_wasmCellOf).
Qed.

(** C5. The bridge [convertTsToWasmGameState] loses nothing.  Capitalizing
    a TypeScript color name gives the WASM color name; the object the bridge
    builds is the serialization of the WASM-variant state with Empty for each
    null cell, Filled of the color for each color cell, the same player,
    flag, columns and quality, and a winner key that is present and holds null
    exactly when the TypeScript winner is null; distinct TypeScript states
    give distinct objects; and a translation back recovers every field. *)
Theorem convertTsToWasmGameState_lossless :
  (forall c, capitalize (Ts.colorName c) = Wasm.colorName c) /\
  (forall ts, exists ws,
     convertTsToWasmGameState ts = Wasm.toJSON ws /\
     Wasm.ExtendedGameStateSchema_parse (convertTsToWasmGameState ts)
       = Some ws /\
     Wasm.board ws = map (map wasmCellOf) (Ts.board ts) /\
     Wasm.current_player ws = Ts.currentPlayer ts /\
     Wasm.is_game_over ws = Ts.isGameOver ts /\
     Wasm.winner ws = Some (Ts.winner ts) /\
     Wasm.newestPieceColumn ws = Ts.newestPieceColumn ts /\
     Wasm.newestComputerPieceColumn ws = Ts.newestComputerPieceColumn ts /\
     Wasm.minimaxQuality ws = Ts.minimaxQuality ts) /\
  (forall a b,
     convertTsToWasmGameState a = convertTsToWasmGameState b -> a = b) /\
  (exists inverse : JSON -> option Ts.ExtendedGameState,
     forall ts, inverse (convertTsToWasmGameState ts) = Some ts).
Proof.
  split; [exact capitalize_colorName|]. split; [|split].
  - intro ts. eexists. split; [apply convert_is_toJSON|].
    split; [rewrite convert_is_toJSON; apply Wasm_parse_toJSON|].
    simpl. repeat split.
  - intros a b H.
    pose proof (convert_inverse a) as Ha. rewrite H in Ha.
    rewrite convert_inverse in Ha. congruence.
  - exists (fun j => option_map wasmToTs (Wasm.ExtendedGameStateSchema_parse j)).
    exact convert_inverse.
Qed.

End WireFacts.

Module PageFacts.
Import Page.
Local Open Scope Z_scope.
Local Open Scope list_scope.

(** ** The engine calls of a request *)

Lemma bind_log {A B : Type} (m : Run A) (f : A -> Run B) :
  fst (bind m f) =
  fst m ++ match snd m with
           | Ok a => fst (f a)
           | Err _ => []
           end.
Proof.
  destruct m as [log [a|e]]; simpl.
  - now destruct (f a).
  - now rewrite app_nil_r.
Qed.

Lemma bind_result {A B : Type} (m : Run A) (f : A -> Run B) :
  snd (bind m f) =
  match snd m with
  | Ok a => snd (f a)
  | Err e => Err e
  end.
Proof.
  destruct m as [log [a|e]]; simpl; [|reflexivity]. now destruct (f a).
Qed.

Section Flow.

Variable placePiece : GameState -> Z -> Result GameState.
Variable getComputerMove : GameState -> Quality -> Result Z.
Variable crush : string -> string.
Variable JSON_stringify : JSON -> string.

(** The engine call [c] ended in the failure [e]. *)
Definition failed (c : Call) (e : EngineError) : Prop :=
  match c with
  | CallGetComputerMove st q => getComputerMove (Ts.baseOf st) q = Err e
  | CallPlacePiece st column => placePiece (Ts.baseOf st) column = Err e
  end.

(** A run all of whose engine calls satisfy [P], and whose failure, if it
    fails, is the failure of one of its calls. *)
Definition sound (P : Call -> Prop) {A : Type} (r : Run A) : Prop :=
  Forall P (fst r) /\
  forall e, snd r = Err e -> exists c, In c (fst r) /\ failed c e.

Lemma sound_ret (P : Call -> Prop) {A : Type} (a : A) : sound P (ret a).
Proof. split; [constructor | discriminate]. Qed.

Lemma sound_bind (P : Call -> Prop) {A B : Type} (m : Run A) (f : A -> Run B) :
  sound P m -> (forall a, snd m = Ok a -> sound P (f a)) ->
  sound P (bind m f).
Proof.
  intros [M1 M2] F. split.
  - rewrite bind_log. apply Forall_app. split; [exact M1|].
    destruct (snd m) as [a|e] eqn:E; [|constructor].
    now apply F.
  - intros e. rewrite bind_result, bind_log.
    destruct (snd m) as [a|e'] eqn:E.
    + intro H. destruct (F a eq_refl) as [_ F2].
      destruct (F2 e H) as (c & Hin & Hc). exists c. split; [|exact Hc].
      apply in_or_app. now right.
    + intros [= ->]. destruct (M2 e eq_refl) as (c & Hin & Hc).
      exists c. split; [|exact Hc]. apply in_or_app. now left.
Qed.

Lemma sound_callPlacePiece (P : Call -> Prop) (gs : Ts.ExtendedGameState)
    (column : Z) :
  P (CallPlacePiece gs column) ->
  sound P (callPlacePiece placePiece gs column).
Proof.
  intro H. split; simpl; [now repeat constructor|].
  intros e He. exists (CallPlacePiece gs column). split; [now left | exact He].
Qed.

Lemma sound_callGetComputerMove (P : Call -> Prop) (gs : Ts.ExtendedGameState)
    (q : Quality) :
  P (CallGetComputerMove gs q) ->
  sound P (callGetComputerMove getComputerMove gs q).
Proof.
  intro H. split; simpl; [now repeat constructor|].
  intros e He. exists (CallGetComputerMove gs q). split; [now left | exact He].
Qed.

(** The calls of the computer block: on [gs], which is not over and has
    yellow to move. *)
Definition computerCall (gs : Ts.ExtendedGameState) (c : Call) : Prop :=
  callState c = gs /\ Ts.isGameOver gs = false /\ Ts.currentPlayer gs = Yellow.

(** The calls of [getNextState]: [placePiece] on [gs], which is not over. *)
Definition playerCall (gs : Ts.ExtendedGameState) (c : Call) : Prop :=
  (exists column, c = CallPlacePiece gs column) /\ Ts.isGameOver gs = false.

Lemma Color_eqb_true (a b : Color) : Color_eqb a b = true -> a = b.
Proof. destruct a, b; simpl; congruence. Qed.

Lemma sound_computerBlock (gs : Ts.ExtendedGameState) :
  sound (computerCall gs) (computerBlock placePiece getComputerMove gs).
Proof.
  unfold computerBlock.
  destruct (Ts.isGameOver gs) eqn:O; cbn [negb andb]; [apply sound_ret|].
  destruct (Color_eqb (Ts.currentPlayer gs) Yellow) eqn:Y; [|apply sound_ret].
  apply Color_eqb_true in Y.
  apply sound_bind; [apply sound_callGetComputerMove; now repeat split|].
  intros col _.
  apply sound_bind; [apply sound_callPlacePiece; now repeat split|].
  intros cs _. apply sound_ret.
Qed.

Lemma sound_nextStateOf (gs : Ts.ExtendedGameState) (column : Z) :
  sound (playerCall gs) (nextStateOf placePiece gs column).
Proof.
  unfold nextStateOf. destruct (Ts.isGameOver gs) eqn:O; [apply sound_ret|].
  apply sound_bind; [apply sound_callPlacePiece; split; eauto|].
  intros ps _. apply sound_ret.
Qed.

Lemma sound_getNextState (gs : Ts.ExtendedGameState) (cache : Cache) (column : Z) :
  sound (playerCall gs) (getNextState placePiece gs cache column).
Proof.
  unfold getNextState. destruct (cacheGet column cache); [apply sound_ret|].
  apply sound_bind; [apply sound_nextStateOf|]. intros st _. apply sound_ret.
Qed.

Lemma sound_renderCell (gs : Ts.ExtendedGameState) (cache : Cache) (cell : Cell)
    (colIndex : Z) :
  sound (playerCall gs)
    (renderCell placePiece crush JSON_stringify gs cache cell colIndex).
Proof.
  unfold renderCell.
  destruct (Engine.isEmpty cell && negb (Ts.isGameOver gs)); [|apply sound_ret].
  apply sound_bind; [apply sound_getNextState|]. intros r _. apply sound_ret.
Qed.

Lemma sound_renderColumn (gs : Ts.ExtendedGameState) (colIndex : Z)
    (column : Column) :
  forall cache,
    sound (playerCall gs)
      (renderColumn placePiece crush JSON_stringify gs cache colIndex column).
Proof.
  induction column as [|cell rest IH]; intro cache; simpl; [apply sound_ret|].
  apply sound_bind; [apply sound_renderCell|]. intros r _.
  apply sound_bind; [apply IH|]. intros rs _. apply sound_ret.
Qed.

Lemma sound_renderBoard (gs : Ts.ExtendedGameState) (columns : Board) :
  forall cache colIndex,
    sound (playerCall gs)
      (renderBoard placePiece crush JSON_stringify gs cache colIndex columns).
Proof.
  induction columns as [|column rest IH]; intros cache colIndex; simpl;
    [apply sound_ret|].
  apply sound_bind; [apply sound_renderColumn|]. intros r _.
  apply sound_bind; [apply IH|]. intros rs _. apply sound_ret.
Qed.

Lemma sound_weaken (P Q : Call -> Prop) {A : Type} (r : Run A) :
  (forall c, P c -> Q c) -> sound P r -> sound Q r.
Proof.
  intros H [S1 S2]. split; [|exact S2].
  eapply Forall_impl; [exact H | exact S1].
Qed.

Variable createInitialState : GameState.
Variable uncrush : string -> option string.
Variable JSON_parse : string -> option JSON.

Local Abbreviation render :=
  (render createInitialState placePiece getComputerMove crush uncrush
     JSON_stringify JSON_parse).
Local Abbreviation loadState := (loadState createInitialState uncrush JSON_parse).
Local Abbreviation computerBlock := (computerBlock placePiece getComputerMove).

(** The engine calls of one request: those of the computer block, on the
    loaded state, and those of the cell links, on the state the computer
    block left. *)
Lemma sound_render (param : option string) :
  sound (fun c =>
           computerCall (loadState param) c \/
           exists shown,
             snd (computerBlock (loadState param)) = Ok shown /\
             playerCall shown c)
        (render param).
Proof.
  unfold Page.render. apply sound_bind.
  - eapply sound_weaken; [|apply sound_computerBlock]. intros c H. now left.
  - intros gs Hgs. apply sound_bind; [|intros cells _; apply sound_ret].
    eapply sound_weaken; [|apply sound_renderBoard].
    intros c H. right. now exists gs.
Qed.

Lemma render_shown (param : option string) (view : View) :
  snd (render param) = Ok view ->
  snd (computerBlock (loadState param)) = Ok (shown view).
Proof.
  unfold Page.render. rewrite bind_result.
  destruct (snd (computerBlock (loadState param))) as [gs|e]; [|discriminate].
  rewrite bind_result.
  destruct (snd (renderBoard _ _ _ _ _ _ _)) as [cells|e]; [|discriminate].
  simpl. now intros [= <-].
Qed.

End Flow.

(** ** The speculative next state, the computer block, the boundary *)

Lemma cacheGet_terminal (placePiece : GameState -> Z -> Result GameState)
    (gs : Ts.ExtendedGameState) (cache : Cache) (column : Z) :
  Ts.isGameOver gs = true ->
  (forall k st, cacheGet k cache = Some st -> st = gs) ->
  exists cache',
    getNextState placePiece gs cache column = ([], Ok (gs, cache')) /\
    (forall k st, cacheGet k cache' = Some st -> st = gs).
Proof.
  intros O C. unfold getNextState.
  destruct (cacheGet column cache) as [st|] eqn:G.
  - rewrite (C _ _ G). exists cache. split; [reflexivity | exact C].
  - unfold nextStateOf. rewrite O. simpl. eexists. split; [reflexivity|].
    intros k st. simpl. destruct (k =? column); [congruence | apply C].
Qed.

Lemma getNextStates_terminal (placePiece : GameState -> Z -> Result GameState)
    (gs : Ts.ExtendedGameState) (columns : list Z) :
  Ts.isGameOver gs = true ->
  forall cache,
    (forall k st, cacheGet k cache = Some st -> st = gs) ->
    exists cache',
      getNextStates placePiece gs cache columns
        = ([], Ok (repeat gs (length columns), cache')) /\
      (forall k st, cacheGet k cache' = Some st -> st = gs).
Proof.
  intro O. induction columns as [|c rest IH]; intros cache C; simpl.
  - exists cache. split; [reflexivity | exact C].
  - destruct (cacheGet_terminal placePiece gs cache c O C) as (c1 & E1 & C1).
    rewrite E1. simpl.
    destruct (IH c1 C1) as (c2 & E2 & C2). rewrite E2. simpl.
    exists c2. split; [reflexivity | exact C2].
Qed.

(** C9. On a terminal state the speculative next-state function gives back
    the state it was called on, for every column: the function under
    [memoize] returns it without calling the engine, and so does the
    memoized function after any earlier calls of the same request. *)
Theorem getNextState_terminal
    (placePiece : GameState -> Z -> Result GameState)
    (gameState : Ts.ExtendedGameState) (earlier : list Z) (column : Z) :
  Ts.isGameOver gameState = true ->
  nextStateOf placePiece gameState column = ([], Ok gameState) /\
  exists cache cache',
    getNextStates placePiece gameState [] earlier
      = ([], Ok (repeat gameState (length earlier), cache)) /\
    getNextState placePiece gameState cache column
      = ([], Ok (gameState, cache')).
Proof.
  intro O. split; [unfold nextStateOf; now rewrite O|].
  destruct (getNextStates_terminal placePiece gameState earlier O [])
    as (cache & E & C); [discriminate|].
  destruct (cacheGet_terminal placePiece gameState cache column O C)
    as (cache' & E' & _).
  now exists cache, cache'.
Qed.

Definition wonState : Ts.ExtendedGameState :=
  Ts.withExtras (Engine.stateAfter [0; 0; 1; 1; 2; 2; 3]) (Some (Integer 3)) (Some (Integer 2)) Best.

Lemma getNextState_terminal_witness :
  nextStateOf Engine.applyMove wonState 4 = ([], Ok wonState) /\
  exists cache cache',
    getNextStates Engine.applyMove wonState [] [0; 1; 2; 3; 4; 5; 6]
      = ([], Ok (repeat wonState 7, cache)) /\
    getNextState Engine.applyMove wonState cache 4 = ([], Ok (wonState, cache')).
Proof.
  apply (getNextState_terminal Engine.applyMove wonState
           [0; 1; 2; 3; 4; 5; 6] 4).
  reflexivity.
Defined.

(** C10. The computer block.  On a state that is not over with yellow to
    move, once the engine has chosen a column and placed the piece, the state
    on display is the engine's successor with [minimaxQuality] and
    [newestPieceColumn] as they came in and [newestComputerPieceColumn] the
    chosen column.  On every other state, over or with red to move, the
    block makes no call and the state is displayed as it came in.  The state
    of a rendered view is the state the block produced. *)
Theorem computerBlock_frame
    (createInitialState : GameState)
    (placePiece : GameState -> Z -> Result GameState)
    (getComputerMove : GameState -> Quality -> Result Z)
    (crush : string -> string) (uncrush : string -> option string)
    (JSON_stringify : JSON -> string) (JSON_parse : string -> option JSON)
    (gameState : Ts.ExtendedGameState) :
  (Ts.isGameOver gameState = false -> Ts.currentPlayer gameState = Yellow ->
   forall computerMove computerState,
     getComputerMove (Ts.baseOf gameState) (Ts.minimaxQuality gameState)
       = Ok computerMove ->
     placePiece (Ts.baseOf gameState) computerMove = Ok computerState ->
     exists displayed,
       snd (computerBlock placePiece getComputerMove gameState) = Ok displayed /\
       Ts.baseOf displayed = computerState /\
       Ts.minimaxQuality displayed = Ts.minimaxQuality gameState /\
       Ts.newestPieceColumn displayed = Ts.newestPieceColumn gameState /\
       Ts.newestComputerPieceColumn displayed = Some (Integer computerMove)) /\
  (Ts.isGameOver gameState = true \/ Ts.currentPlayer gameState = Red ->
   computerBlock placePiece getComputerMove gameState = ([], Ok gameState)) /\
  (forall param view,
     loadState createInitialState uncrush JSON_parse param = gameState ->
     snd (render createInitialState placePiece getComputerMove crush uncrush
            JSON_stringify JSON_parse param) = Ok view ->
     snd (computerBlock placePiece getComputerMove gameState)
       = Ok (shown view)).
Proof.
  split; [|split].
  - intros O Y col cs Hmove Hplace. unfold computerBlock.
    rewrite O, Y. simpl. unfold callGetComputerMove, callPlacePiece.
    rewrite Hmove. simpl. rewrite Hplace. simpl.
    eexists. split; [reflexivity|]. now destruct cs.
  - unfold computerBlock. intros [->| ->]; [reflexivity|].
    now rewrite andb_false_r.
  - intros param view <-. apply render_shown.
Qed.

Definition yellowToMove : Ts.ExtendedGameState :=
  Ts.withExtras (Engine.stateAfter [3]) (Some (Integer 3)) None Medium.

Lemma computerBlock_frame_witness :
  exists displayed,
    snd (computerBlock Engine.applyMove
           (Search.chooseMove SearchFacts.zeroHeuristic 2 4) yellowToMove)
      = Ok displayed /\
    Ts.baseOf displayed = Engine.stateAfter [3; 3] /\
    Ts.minimaxQuality displayed = Medium /\
    Ts.newestPieceColumn displayed = Some (Integer 3) /\
    Ts.newestComputerPieceColumn displayed = Some (Integer 3).
Proof.
  apply (proj1 (computerBlock_frame Engine.createInitialState Engine.applyMove
                  (Search.chooseMove SearchFacts.zeroHeuristic 2 4)
                  (fun t => t) Some sampleStringify sampleParse yellowToMove));
    reflexivity.
Defined.

Lemma applyMove_GameAlreadyOver (s : GameState) (column : Z) :
  Engine.applyMove s column = Err GameAlreadyOver -> isGameOver s = true.
Proof.
  unfold Engine.applyMove. destruct (isGameOver s); [reflexivity|].
  destruct ((column <? 0) || (6 <? column)); [discriminate|].
  destruct (Engine.landingRow _); [|discriminate].
  destruct (Engine.detect _ _ _ _); discriminate.
Qed.

Lemma chooseMove_GameAlreadyOver (heuristic : Board -> Color -> Z)
    (mediumDepth highDepth : nat) (s : GameState) (q : Quality) :
  Search.chooseMove heuristic mediumDepth highDepth s q = Err GameAlreadyOver ->
  isGameOver s = true.
Proof.
  unfold Search.chooseMove. destruct (isGameOver s); [reflexivity|].
  destruct (Search.legalMoves s); discriminate.
Qed.

(** C8. In the control flow of the page no engine operation is invoked on
    a state that is over: [getComputerMove] only on a state that is not over
    with yellow to move, [placePiece] only on a state that is not over.  So,
    with an engine that reports GameAlreadyOver on terminal states only, a
    request never ends in that failure. *)
Theorem engine_never_called_when_over
    (createInitialState : GameState)
    (placePiece : GameState -> Z -> Result GameState)
    (getComputerMove : GameState -> Quality -> Result Z)
    (crush : string -> string) (uncrush : string -> option string)
    (JSON_stringify : JSON -> string) (JSON_parse : string -> option JSON)
    (param : option string) :
  let run := render createInitialState placePiece getComputerMove crush
               uncrush JSON_stringify JSON_parse param in
  (forall c, In c (fst run) -> Ts.isGameOver (callState c) = false) /\
  (forall st q, In (CallGetComputerMove st q) (fst run) ->
                Ts.isGameOver st = false /\ Ts.currentPlayer st = Yellow) /\
  ((forall st column,
      placePiece st column = Err GameAlreadyOver -> isGameOver st = true) ->
   (forall st q,
      getComputerMove st q = Err GameAlreadyOver -> isGameOver st = true) ->
   snd run <> Err GameAlreadyOver).
Proof.
  intro run.
  destruct (sound_render placePiece getComputerMove crush JSON_stringify
              createInitialState uncrush JSON_parse param) as [S1 S2].
  fold run in S1, S2. rewrite Forall_forall in S1.
  assert (L : forall c, In c (fst run) -> Ts.isGameOver (callState c) = false).
  { intros c Hin. destruct (S1 c Hin) as [(E & O & _)|(gs & _ & (col & ->) & O)].
    - now rewrite E.
    - exact O. }
  split; [exact L|]. split.
  - intros st q Hin.
    destruct (S1 _ Hin) as [(E & O & Y)|(gs & _ & (col & E) & _)];
      [|discriminate].
    simpl in E. subst. auto.
  - intros Hp Hm Hfail. destruct (S2 _ Hfail) as (c & Hin & Hc).
    pose proof (L c Hin) as O.
    destruct c as [st q|st col]; simpl in Hc, O.
    + apply Hm in Hc. simpl in Hc. congruence.
    + apply Hp in Hc. simpl in Hc. congruence.
Qed.

Lemma engine_never_called_when_over_witness :
  snd (render Engine.createInitialState Engine.applyMove
         (Search.chooseMove SearchFacts.zeroHeuristic 2 4)
         (fun t => t) Some sampleStringify sampleParse (Some "ts"%string))
  <> Err GameAlreadyOver.
Proof.
  apply (proj2 (proj2 (engine_never_called_when_over
                  Engine.createInitialState Engine.applyMove
                  (Search.chooseMove SearchFacts.zeroHeuristic 2 4)
                  (fun t => t) Some sampleStringify sampleParse
                  (Some "ts"%string)))).
  - exact applyMove_GameAlreadyOver.
  - exact (chooseMove_GameAlreadyOver SearchFacts.zeroHeuristic 2 4).
Defined.

(** C6. The boundary of the page.  The initial state is the empty board
    with the first player to move, not over, quality best.  When the state
    parameter is absent or empty, or decompression, JSON parsing or schema
    validation fails, the page works on the initial state, on which the
    computer block makes no call.  In every request the state the page works
    on is the initial state or the state schema validation returned, and
    every engine call is made on that state or on the state the computer
    block built from the engine's answer to it. *)
Theorem invalid_state_falls_back
    (placePiece : GameState -> Z -> Result GameState)
    (getComputerMove : GameState -> Quality -> Result Z)
    (crush : string -> string) (uncrush : string -> option string)
    (JSON_stringify : JSON -> string) (JSON_parse : string -> option JSON)
    (param : option string) :
  let initial := initialState Engine.createInitialState in
  let loaded := loadState Engine.createInitialState uncrush JSON_parse param in
  let run := render Engine.createInitialState placePiece getComputerMove crush
               uncrush JSON_stringify JSON_parse param in
  (Ts.board initial = repeat (repeat None 6) 7 /\
   Ts.currentPlayer initial = Red /\ Ts.isGameOver initial = false /\
   Ts.winner initial = None /\ Ts.minimaxQuality initial = Best /\
   Ts.newestPieceColumn initial = None /\
   Ts.newestComputerPieceColumn initial = None) /\
  (param = None \/ param = Some EmptyString -> loaded = initial) /\
  (forall text, param = Some text -> uncrush text = None -> loaded = initial) /\
  (forall text json, param = Some text -> uncrush text = Some json ->
     JSON_parse json = None -> loaded = initial) /\
  (forall text json v, param = Some text -> uncrush text = Some json ->
     JSON_parse json = Some v -> Ts.ExtendedGameStateSchema_parse v = None ->
     loaded = initial) /\
  (loaded = initial ->
   computerBlock placePiece getComputerMove loaded = ([], Ok initial)) /\
  (loaded = initial \/
   exists text json v,
     param = Some text /\ uncrush text = Some json /\
     JSON_parse json = Some v /\
     Ts.ExtendedGameStateSchema_parse v = Some loaded) /\
  (forall c, In c (fst run) ->
     callState c = loaded \/
     exists displayed,
       snd (computerBlock placePiece getComputerMove loaded) = Ok displayed /\
       callState c = displayed).
Proof.
  intros initial loaded run. unfold loaded, loadState, decodeState.
  split; [repeat split|]. split; [|split; [|split; [|split; [|split; [|split]]]]].
  - intros [->| ->]; reflexivity.
  - intros text -> U. rewrite U. now destruct (String.eqb text EmptyString).
  - intros text json -> U P. rewrite U, P. now destruct (String.eqb text EmptyString).
  - intros text json v -> U P V. rewrite U, P, V.
    now destruct (String.eqb text EmptyString).
  - intros ->. reflexivity.
  - destruct param as [text|]; [|now left].
    destruct (String.eqb text EmptyString); [now left|].
    destruct (uncrush text) as [json|] eqn:U; [|now left].
    destruct (JSON_parse json) as [v|] eqn:P; [|now left].
    destruct (Ts.ExtendedGameStateSchema_parse v) as [st|] eqn:V; [|now left].
    right. now exists text, json, v.
  - intros c Hin.
    destruct (sound_render placePiece getComputerMove crush JSON_stringify
                Engine.createInitialState uncrush JSON_parse param) as [S1 _].
    rewrite Forall_forall in S1.
    destruct (S1 c Hin) as [(E & _)|(gs & Hgs & (col & ->) & _)].
    + now left.
    + right. exists gs. split; [exact Hgs | reflexivity].
Qed.

Lemma invalid_state_falls_back_witness :
  loadState Engine.createInitialState (fun _ => None) sampleParse
    (Some "%%%"%string)
  = initialState Engine.createInitialState.
Proof.
  refine (proj1 (proj2 (proj2 (invalid_state_falls_back Engine.applyMove
            (Search.chooseMove SearchFacts.zeroHeuristic 2 4)
            (fun t => t) (fun _ => None) sampleStringify sampleParse
            (Some "%%%"%string)))) "%%%"%string eq_refl eq_refl).
Defined.

End PageFacts.

Module ViewFacts.
Import Page PageView.
Local Open Scope Z_scope.
Local Open Scope list_scope.

(** ** Memoization of the next state *)

Section Memo.

Variable placePiece : GameState -> Z -> Result GameState.
Variable crush : string -> string.
Variable JSON_stringify : JSON -> string.

Local Abbreviation nextStateOf := (nextStateOf placePiece).
Local Abbreviation getNextState := (getNextState placePiece).
Local Abbreviation renderCell := (renderCell placePiece crush JSON_stringify).
Local Abbreviation renderColumn :=
  (renderColumn placePiece crush JSON_stringify).
Local Abbreviation renderBoard := (renderBoard placePiece crush JSON_stringify).
Local Abbreviation cellLink := (cellLink placePiece crush JSON_stringify).
Local Abbreviation columnLinks := (columnLinks placePiece crush JSON_stringify).
Local Abbreviation boardLinks := (boardLinks placePiece crush JSON_stringify).

(** Every cached state is the state the function under [memoize] gives
    for its column. *)
Definition cacheOk (gs : Ts.ExtendedGameState) (cache : Cache) : Prop :=
  forall k st, cacheGet k cache = Some st -> snd (nextStateOf gs k) = Ok st.

(** A run that threads the cache computes [spec] and keeps the cache
    sound. *)
Definition computes {A : Type} (gs : Ts.ExtendedGameState)
    (r : Run (A * Cache)) (spec : Result A) : Prop :=
  match snd r with
  | Ok (a, cache') => spec = Ok a /\ cacheOk gs cache'
  | Err e => spec = Err e
  end.

Lemma cacheGet_cons (k k' : Z) (st : Ts.ExtendedGameState) (cache : Cache) :
  cacheGet k ((k', st) :: cache) =
  if k =? k' then Some st else cacheGet k cache.
Proof. reflexivity. Qed.

Lemma getNextState_computes (gs : Ts.ExtendedGameState) (cache : Cache)
    (column : Z) :
  cacheOk gs cache ->
  computes gs (getNextState gs cache column) (snd (nextStateOf gs column)).
Proof.
  intro C. unfold computes, Page.getNextState.
  destruct (cacheGet column cache) as [st|] eqn:G.
  - simpl. split; [now apply C | exact C].
  - rewrite PageFacts.bind_result.
    destruct (snd (nextStateOf gs column)) as [st|e] eqn:N; [|reflexivity].
    simpl. split; [reflexivity|]. intros k st'. rewrite cacheGet_cons.
    destruct (k =? column) eqn:E; [|apply C].
    apply Z.eqb_eq in E. subst k. now intros [= <-].
Qed.

Lemma nextStateOf_result (gs : Ts.ExtendedGameState) (column : Z) :
  snd (nextStateOf gs column) =
  if Ts.isGameOver gs then Ok gs
  else match placePiece (Ts.baseOf gs) column with
       | Ok playerState =>
           Ok (Ts.withExtras playerState (Some (Integer column)) None
                 (Ts.minimaxQuality gs))
       | Err e => Err e
       end.
Proof.
  unfold Page.nextStateOf. destruct (Ts.isGameOver gs); [reflexivity|].
  rewrite PageFacts.bind_result. simpl.
  now destruct (placePiece (Ts.baseOf gs) column).
Qed.

Lemma renderCell_computes (gs : Ts.ExtendedGameState) (cache : Cache)
    (cell : Cell) (colIndex : Z) :
  cacheOk gs cache ->
  computes gs (renderCell gs cache cell colIndex) (cellLink gs cell colIndex).
Proof.
  intro C. unfold Page.renderCell, PageView.cellLink.
  destruct (Engine.isEmpty cell && negb (Ts.isGameOver gs)) eqn:G;
    [|split; [reflexivity | exact C]].
  pose proof (getNextState_computes gs cache colIndex C) as H.
  unfold computes in *. rewrite PageFacts.bind_result.
  rewrite nextStateOf_result in H.
  apply andb_true_iff in G. destruct G as [_ G].
  apply negb_true_iff in G. rewrite G in H.
  destruct (snd (getNextState gs cache colIndex)) as [[st cache']|e].
  - destruct H as [H C']. simpl.
    destruct (placePiece (Ts.baseOf gs) colIndex); [|discriminate].
    injection H as <-. split; [reflexivity | exact C'].
  - simpl. destruct (placePiece (Ts.baseOf gs) colIndex);
      [discriminate | congruence].
Qed.

Lemma renderColumn_computes (gs : Ts.ExtendedGameState) (colIndex : Z)
    (column : Column) :
  forall cache,
    cacheOk gs cache ->
    computes gs (renderColumn gs cache colIndex column)
             (columnLinks gs colIndex column).
Proof.
  induction column as [|cell rest IH]; intros cache C; simpl.
  - split; [reflexivity | exact C].
  - pose proof (renderCell_computes gs cache cell colIndex C) as H.
    unfold computes in *. rewrite PageFacts.bind_result.
    destruct (snd (renderCell gs cache cell colIndex)) as [[l c1]|e];
      [|now rewrite H].
    destruct H as [-> C1]. rewrite PageFacts.bind_result. simpl.
    specialize (IH c1 C1).
    destruct (snd (renderColumn gs c1 colIndex rest)) as [[ls c2]|e];
      [|now rewrite IH].
    destruct IH as [-> C2]. split; [reflexivity | exact C2].
Qed.

Lemma renderBoard_computes (gs : Ts.ExtendedGameState) (columns : Board) :
  forall cache colIndex,
    cacheOk gs cache ->
    computes gs (renderBoard gs cache colIndex columns)
             (boardLinks gs colIndex columns).
Proof.
  induction columns as [|column rest IH]; intros cache colIndex C; simpl.
  - split; [reflexivity | exact C].
  - pose proof (renderColumn_computes gs colIndex column cache C) as H.
    unfold computes in *. rewrite PageFacts.bind_result.
    destruct (snd (renderColumn gs cache colIndex column)) as [[l c1]|e];
      [|now rewrite H].
    destruct H as [-> C1]. rewrite PageFacts.bind_result. simpl.
    specialize (IH c1 (colIndex + 1) C1).
    destruct (snd (renderBoard gs c1 (colIndex + 1) rest)) as [[ls c2]|e];
      [|now rewrite IH].
    destruct IH as [-> C2]. split; [reflexivity | exact C2].
Qed.

Lemma cacheOk_nil (gs : Ts.ExtendedGameState) : cacheOk gs [].
Proof. intros k st. discriminate. Qed.

End Memo.

Section MemoOnce.

Variable placePiece : GameState -> Z -> Result GameState.
Variable crush : string -> string.
Variable JSON_stringify : JSON -> string.

Local Abbreviation nextStateOf := (nextStateOf placePiece).
Local Abbreviation getNextState := (getNextState placePiece).
Local Abbreviation renderCell := (renderCell placePiece crush JSON_stringify).
Local Abbreviation renderColumn :=
  (renderColumn placePiece crush JSON_stringify).
Local Abbreviation renderBoard := (renderBoard placePiece crush JSON_stringify).

Lemma placedColumns_app (l1 l2 : list Call) :
  placedColumns (l1 ++ l2) = placedColumns l1 ++ placedColumns l2.
Proof. unfold placedColumns. apply flat_map_app. Qed.

(** A run from [cache] calls [placePiece] on columns that are not cached,
    on each once, and leaves them cached. *)
Definition fresh {A : Type} (cache : Cache) (r : Run (A * Cache)) : Prop :=
  NoDup (placedColumns (fst r)) /\
  (forall col, In col (placedColumns (fst r)) -> cacheGet col cache = None) /\
  (forall x, snd r = Ok x ->
   forall col, cacheGet col cache <> None \/ In col (placedColumns (fst r)) ->
               cacheGet col (snd x) <> None).

Lemma fresh_ret {A : Type} (cache : Cache) (a : A) : fresh cache (ret (a, cache)).
Proof.
  split; [constructor|]. split; [intros col []|].
  intros x [= <-] col [H|[]]. exact H.
Qed.

Lemma fresh_bind {A B : Type} (cache : Cache) (m : Run (A * Cache))
    (f : A * Cache -> Run (B * Cache)) :
  fresh cache m ->
  (forall r, snd m = Ok r -> fresh (snd r) (f r)) ->
  fresh cache (bind m f).
Proof.
  intros (M1 & M2 & M3) F. unfold fresh.
  rewrite PageFacts.bind_log, PageFacts.bind_result, placedColumns_app.
  destruct (snd m) as [r|e] eqn:E.
  - destruct (F r eq_refl) as (F1 & F2 & F3).
    assert (D : forall col, In col (placedColumns (fst m)) ->
                            ~ In col (placedColumns (fst (f r)))).
    { intros col H1 H2. apply (M3 r eq_refl col); [now right | now apply F2]. }
    split; [|split].
    + apply NoDup_app; auto.
    + intros col H. apply in_app_or in H. destruct H as [H|H]; [now apply M2|].
      destruct (cacheGet col cache) eqn:G; [|reflexivity].
      exfalso. apply (M3 r eq_refl col); [left; congruence | now apply F2].
    + intros x Hx col H. apply (F3 x Hx col).
      destruct H as [H|H].
      * left. apply (M3 r eq_refl). now left.
      * apply in_app_or in H. destruct H as [H|H]; [|now right].
        left. apply (M3 r eq_refl). now right.
  - simpl. rewrite app_nil_r. split; [exact M1|]. split; [exact M2|].
    discriminate.
Qed.

Lemma nextStateOf_log (gs : Ts.ExtendedGameState) (column : Z) :
  fst (nextStateOf gs column) =
  if Ts.isGameOver gs then [] else [CallPlacePiece gs column].
Proof.
  unfold Page.nextStateOf. destruct (Ts.isGameOver gs); [reflexivity|].
  rewrite PageFacts.bind_log. simpl.
  now destruct (placePiece (Ts.baseOf gs) column).
Qed.

Lemma getNextState_placed (gs : Ts.ExtendedGameState) (cache : Cache)
    (column : Z) :
  placedColumns (fst (getNextState gs cache column)) =
  match cacheGet column cache with
  | Some _ => []
  | None => if Ts.isGameOver gs then [] else [column]
  end.
Proof.
  unfold Page.getNextState. destruct (cacheGet column cache); [reflexivity|].
  rewrite PageFacts.bind_log, placedColumns_app, nextStateOf_log.
  destruct (Ts.isGameOver gs), (snd (nextStateOf gs column)); reflexivity.
Qed.

Lemma getNextState_cache (gs : Ts.ExtendedGameState) (cache : Cache)
    (column : Z) (x : Ts.ExtendedGameState * Cache) :
  snd (getNextState gs cache column) = Ok x ->
  cacheGet column (snd x) <> None /\
  forall col, cacheGet col cache <> None -> cacheGet col (snd x) <> None.
Proof.
  unfold Page.getNextState.
  destruct (cacheGet column cache) as [st|] eqn:G.
  - intros [= <-]. simpl. split; [congruence | auto].
  - rewrite PageFacts.bind_result.
    destruct (snd (nextStateOf gs column)) as [st|e]; [|discriminate].
    intros [= <-]. simpl. rewrite Z.eqb_refl. split; [discriminate|].
    intros col H. now destruct (col =? column).
Qed.

Lemma fresh_getNextState (gs : Ts.ExtendedGameState) (cache : Cache)
    (column : Z) :
  fresh cache (getNextState gs cache column).
Proof.
  unfold fresh. rewrite getNextState_placed. split; [|split].
  - destruct (cacheGet column cache); [constructor|].
    destruct (Ts.isGameOver gs); repeat constructor. intros [].
  - intros col H. destruct (cacheGet column cache) eqn:G; [destruct H|].
    destruct (Ts.isGameOver gs); [destruct H|]. destruct H as [<-|[]].
    exact G.
  - intros x Hx col H. destruct (getNextState_cache _ _ _ _ Hx) as [K1 K2].
    destruct H as [H|H]; [now apply K2|].
    destruct (cacheGet column cache); [destruct H|].
    destruct (Ts.isGameOver gs); [destruct H|]. destruct H as [<-|[]].
    exact K1.
Qed.

Lemma fresh_renderCell (gs : Ts.ExtendedGameState) (cache : Cache)
    (cell : Cell) (colIndex : Z) :
  fresh cache (renderCell gs cache cell colIndex).
Proof.
  unfold Page.renderCell.
  destruct (Engine.isEmpty cell && negb (Ts.isGameOver gs)); [|apply fresh_ret].
  apply fresh_bind; [apply fresh_getNextState|]. intros r _. apply fresh_ret.
Qed.

Lemma fresh_renderColumn (gs : Ts.ExtendedGameState) (colIndex : Z)
    (column : Column) :
  forall cache, fresh cache (renderColumn gs cache colIndex column).
Proof.
  induction column as [|cell rest IH]; intro cache; simpl; [apply fresh_ret|].
  apply fresh_bind; [apply fresh_renderCell|]. intros r _.
  apply fresh_bind; [apply IH|]. intros rs _. apply fresh_ret.
Qed.

Lemma fresh_renderBoard (gs : Ts.ExtendedGameState) (columns : Board) :
  forall cache colIndex, fresh cache (renderBoard gs cache colIndex columns).
Proof.
  induction columns as [|column rest IH]; intros cache colIndex; simpl;
    [apply fresh_ret|].
  apply fresh_bind; [apply fresh_renderColumn|]. intros r _.
  apply fresh_bind; [apply IH|]. intros rs _. apply fresh_ret.
Qed.

(** Where the calls of the board rendering go: to the index of a column
    that has an empty cell. *)
Lemma placed_renderCell (gs : Ts.ExtendedGameState) (cache : Cache)
    (cell : Cell) (colIndex col : Z) :
  In col (placedColumns (fst (renderCell gs cache cell colIndex))) ->
  col = colIndex /\ cell = None.
Proof.
  unfold Page.renderCell.
  destruct (Engine.isEmpty cell && negb (Ts.isGameOver gs)) eqn:G;
    [|intros []].
  rewrite PageFacts.bind_log, placedColumns_app. intro H.
  apply in_app_or in H. destruct H as [H|H].
  - unfold Page.getNextState in H.
    destruct (cacheGet colIndex cache); [destruct H|].
    rewrite PageFacts.bind_log, placedColumns_app in H.
    apply in_app_or in H. destruct H as [H|H].
    + rewrite nextStateOf_log in H.
      destruct (Ts.isGameOver gs); [destruct H|]. destruct H as [<-|[]].
      split; [reflexivity|]. destruct cell; [discriminate|reflexivity].
    + destruct (snd (nextStateOf gs colIndex)); destruct H.
  - destruct (snd (getNextState gs cache colIndex)); destruct H.
Qed.

Lemma placed_renderColumn (gs : Ts.ExtendedGameState) (colIndex col : Z)
    (column : Column) :
  forall cache,
    In col (placedColumns (fst (renderColumn gs cache colIndex column))) ->
    col = colIndex /\ In None column.
Proof.
  induction column as [|cell rest IH]; intros cache; simpl; [intros []|].
  rewrite PageFacts.bind_log, placedColumns_app. intro H.
  apply in_app_or in H. destruct H as [H|H].
  - apply placed_renderCell in H. destruct H as [-> ->]. auto.
  - destruct (snd (renderCell gs cache cell colIndex)) as [r|e]; [|destruct H].
    rewrite PageFacts.bind_log, placedColumns_app in H.
    apply in_app_or in H. destruct H as [H|H].
    + apply IH in H. tauto.
    + destruct (snd (renderColumn gs (snd r) colIndex rest)); destruct H.
Qed.

Lemma placed_renderBoard (gs : Ts.ExtendedGameState) (col : Z)
    (columns : Board) :
  forall cache colIndex,
    In col (placedColumns (fst (renderBoard gs cache colIndex columns))) ->
    colIndex <= col < colIndex + Z.of_nat (length columns) /\
    In None (nth (Z.to_nat (col - colIndex)) columns []).
Proof.
  induction columns as [|column rest IH]; intros cache colIndex;
    [intros []|].
  cbn [Page.renderBoard].
  rewrite PageFacts.bind_log, placedColumns_app. intro H.
  apply in_app_or in H. destruct H as [H|H].
  - apply placed_renderColumn in H. destruct H as [-> H].
    rewrite Z.sub_diag. simpl length. split; [lia | exact H].
  - destruct (snd (renderColumn gs cache colIndex column)) as [r|e];
      [|destruct H].
    rewrite PageFacts.bind_log, placedColumns_app in H.
    apply in_app_or in H. destruct H as [H|H].
    + apply IH in H. destruct H as [R H]. simpl length. split; [lia|].
      replace (Z.to_nat (col - colIndex))
        with (S (Z.to_nat (col - (colIndex + 1)))) by lia.
      exact H.
    + destruct (snd (renderBoard gs (snd r) (colIndex + 1) rest)); destruct H.
Qed.

End MemoOnce.

Lemma NoDup_range_length (l : list Z) (n : nat) :
  NoDup l -> (forall x, In x l -> 0 <= x < Z.of_nat n) -> (length l <= n)%nat.
Proof.
  intros D R.
  assert (I : incl l (map Z.of_nat (seq 0 n))).
  { intros x Hx. apply in_map_iff. exists (Z.to_nat x).
    specialize (R x Hx). split; [lia|]. apply in_seq. lia. }
  pose proof (NoDup_incl_length D I) as L.
  now rewrite length_map, length_seq in L.
Qed.

(** X1. [memoize] at work: while the board is rendered, [placePiece] is
    called at most once for a column, only for the index of a column that
    has an empty cell, and so no more often than the board has columns,
    however many empty cells carry a link. *)
Theorem memoize_calls_once
    (placePiece : GameState -> Z -> Result GameState)
    (crush : string -> string) (JSON_stringify : JSON -> string)
    (gameState : Ts.ExtendedGameState) :
  let placed :=
    placedColumns
      (fst (renderBoard placePiece crush JSON_stringify gameState [] 0
              (Ts.board gameState))) in
  NoDup placed /\
  (forall column, In column placed ->
     0 <= column < Z.of_nat (length (Ts.board gameState)) /\
     In None (nth (Z.to_nat column) (Ts.board gameState) [])) /\
  (length placed <= length (Ts.board gameState))%nat.
Proof.
  intro placed.
  destruct (fresh_renderBoard placePiece crush JSON_stringify gameState
              (Ts.board gameState) [] 0) as (D & _).
  assert (R : forall column, In column placed ->
     0 <= column < Z.of_nat (length (Ts.board gameState)) /\
     In None (nth (Z.to_nat column) (Ts.board gameState) [])).
  { intros column H. apply placed_renderBoard in H.
    rewrite Z.sub_0_r in H. simpl in H. exact H. }
  split; [exact D|]. split; [exact R|].
  apply NoDup_range_length; [exact D|]. intros x Hx. now apply R.
Qed.

(** X2. [memoize] changes no link.  A request ends as the computer block
    followed by the links computed cell by cell without a cache: when both
    succeed the view shows the state of the computer block with exactly
    those links (none on a finished game or a filled cell); when one fails
    the request fails with that failure. *)
Theorem memoize_is_transparent
    (createInitialState : GameState)
    (placePiece : GameState -> Z -> Result GameState)
    (getComputerMove : GameState -> Quality -> Result Z)
    (crush : string -> string) (uncrush : string -> option string)
    (JSON_stringify : JSON -> string) (JSON_parse : string -> option JSON)
    (param : option string) :
  let run := render createInitialState placePiece getComputerMove crush
               uncrush JSON_stringify JSON_parse param in
  match snd (computerBlock placePiece getComputerMove
               (loadState createInitialState uncrush JSON_parse param)) with
  | Ok gameState =>
      match boardLinks placePiece crush JSON_stringify gameState 0
              (Ts.board gameState) with
      | Ok links =>
          exists view, snd run = Ok view /\ shown view = gameState /\
                       cellLinks view = links
      | Err e => snd run = Err e
      end
  | Err e => snd run = Err e
  end.
Proof.
  intro run. unfold run, render. rewrite PageFacts.bind_result.
  destruct (snd (computerBlock placePiece getComputerMove _)) as [gs|e];
    [|reflexivity].
  rewrite PageFacts.bind_result.
  pose proof (renderBoard_computes placePiece crush JSON_stringify gs
                (Ts.board gs) [] 0 (cacheOk_nil placePiece gs)) as H.
  unfold computes in H.
  destruct (snd (renderBoard placePiece crush JSON_stringify gs [] 0
                   (Ts.board gs))) as [[links cache]|e].
  - destruct H as [-> _]. simpl. eexists. split; [reflexivity|]. now split.
  - now rewrite H.
Qed.

Section Contract.

Variable placePiece : GameState -> Z -> Result GameState.
Variable crush : string -> string.
Variable JSON_stringify : JSON -> string.

(** The failures of [placePiece] happen only where its contract puts
    them. *)
Definition honoursContract : Prop :=
  (forall st c, placePiece st c = Err ColumnFull ->
                ~ In None (nth (Z.to_nat c) (board st) [])) /\
  (forall st c, placePiece st c = Err InvalidColumn -> c < 0 \/ 6 < c) /\
  (forall st c, placePiece st c = Err GameAlreadyOver -> isGameOver st = true) /\
  (forall st c, placePiece st c <> Err NoLegalMoves).

Lemma renderBoard_never_fails (gs : Ts.ExtendedGameState) :
  honoursContract ->
  (length (Ts.board gs) <= 7)%nat ->
  exists r,
    snd (renderBoard placePiece crush JSON_stringify gs [] 0 (Ts.board gs))
    = Ok r.
Proof.
  intros (H1 & H2 & H3 & H4) L.
  destruct (snd (renderBoard placePiece crush JSON_stringify gs [] 0
                   (Ts.board gs))) as [r|e] eqn:E; [now exists r|exfalso].
  destruct (PageFacts.sound_renderBoard placePiece (fun _ _ => Ok 0) crush
              JSON_stringify gs (Ts.board gs) [] 0) as [S1 S2].
  destruct (S2 e E) as (c & Hin & Hc).
  rewrite Forall_forall in S1. destruct (S1 c Hin) as ((col & ->) & O).
  simpl in Hc.
  assert (P : In col (placedColumns
                (fst (renderBoard placePiece crush JSON_stringify gs [] 0
                        (Ts.board gs))))).
  { unfold placedColumns. apply in_flat_map.
    exists (CallPlacePiece gs col). split; [exact Hin | now left]. }
  apply placed_renderBoard in P. rewrite Z.sub_0_r in P.
  destruct P as [R N]. simpl in R.
  destruct e.
  - apply H2 in Hc. lia.
  - apply H1 in Hc. apply Hc. exact N.
  - apply H3 in Hc. simpl in Hc. congruence.
  - exact (H4 _ _ Hc).
Qed.

End Contract.

Lemma applyMove_honoursContract : honoursContract Engine.applyMove.
Proof.
  split; [|split; [|split]].
  - intros st c H N. unfold Engine.applyMove in H.
    destruct (isGameOver st); [discriminate|].
    destruct ((c <? 0) || (6 <? c)); [discriminate|].
    destruct (Engine.landingRow (nth (Z.to_nat c) (board st) [])) eqn:L.
    + destruct (Engine.detect _ _ _ _); discriminate.
    + apply EngineFacts.landingRow_None in L. contradiction.
  - intros st c H. unfold Engine.applyMove in H.
    destruct (isGameOver st); [discriminate|].
    destruct ((c <? 0) || (6 <? c)) eqn:E.
    + apply orb_true_iff in E. destruct E as [E|E]; apply Z.ltb_lt in E; lia.
    + destruct (Engine.landingRow _); [|discriminate].
      destruct (Engine.detect _ _ _ _); discriminate.
  - exact PageFacts.applyMove_GameAlreadyOver.
  - intros st c H. unfold Engine.applyMove in H.
    destruct (isGameOver st); [discriminate|].
    destruct ((c <? 0) || (6 <? c)); [discriminate|].
    destruct (Engine.landingRow _); [|discriminate].
    destruct (Engine.detect _ _ _ _); discriminate.
Qed.

(** X3. Rendering the board of a state with at most seven columns never
    fails, whatever the cells hold, when [placePiece] fails only where its
    contract says: the page asks for a move only in a column index below
    seven that has an empty cell, on a state that is not over. *)
Theorem board_rendering_never_fails
    (placePiece : GameState -> Z -> Result GameState)
    (crush : string -> string) (JSON_stringify : JSON -> string)
    (gameState : Ts.ExtendedGameState) :
  honoursContract placePiece ->
  (length (Ts.board gameState) <= 7)%nat ->
  exists links cache,
    snd (renderBoard placePiece crush JSON_stringify gameState [] 0
           (Ts.board gameState)) = Ok (links, cache) /\
    boardLinks placePiece crush JSON_stringify gameState 0
      (Ts.board gameState) = Ok links.
Proof.
  intros H L.
  destruct (renderBoard_never_fails placePiece crush JSON_stringify
              gameState H L) as ([links cache] & E).
  exists links, cache. split; [exact E|].
  pose proof (renderBoard_computes placePiece crush JSON_stringify gameState
                (Ts.board gameState) [] 0 (cacheOk_nil placePiece gameState))
    as C.
  unfold computes in C. rewrite E in C. tauto.
Qed.

(** A game in progress with a full first column. *)
Definition fullColumnState : Ts.ExtendedGameState :=
  Ts.withExtras (Engine.stateAfter [0; 0; 0; 0; 0; 0]) (Some (Integer 0)) (Some (Integer 0)) Best.

Lemma board_rendering_never_fails_witness :
  exists links cache,
    snd (renderBoard Engine.applyMove (fun t => t) sampleStringify
           fullColumnState [] 0 (Ts.board fullColumnState))
    = Ok (links, cache) /\
    boardLinks Engine.applyMove (fun t => t) sampleStringify fullColumnState 0
      (Ts.board fullColumnState) = Ok links.
Proof.
  apply (board_rendering_never_fails Engine.applyMove (fun t => t)
           sampleStringify fullColumnState applyMove_honoursContract).
  vm_compute. lia.
Defined.

(** ** The prefetch links *)

Section PrefetchFacts.

Variable placePiece : GameState -> Z -> Result GameState.
Variable crush : string -> string.
Variable JSON_stringify : JSON -> string.

(** The next states of a list of columns, one after the other, without a
    cache. *)
Fixpoint nextStates (gs : Ts.ExtendedGameState) (columns : list Z)
    : Result (list Ts.ExtendedGameState) :=
  match columns with
  | [] => Ok []
  | c :: rest =>
      match snd (nextStateOf placePiece gs c) with
      | Ok st =>
          match nextStates gs rest with
          | Ok l => Ok (st :: l)
          | Err e => Err e
          end
      | Err e => Err e
      end
  end.

Lemma getNextStates_computes (gs : Ts.ExtendedGameState) (columns : list Z) :
  forall cache,
    cacheOk placePiece gs cache ->
    computes placePiece gs (getNextStates placePiece gs cache columns)
             (nextStates gs columns).
Proof.
  induction columns as [|c rest IH]; intros cache C; simpl.
  - split; [reflexivity | exact C].
  - pose proof (getNextState_computes placePiece gs cache c C) as H.
    unfold computes in *. rewrite PageFacts.bind_result.
    destruct (snd (getNextState placePiece gs cache c)) as [[st c1]|e];
      [|now rewrite H].
    destruct H as [-> C1]. rewrite PageFacts.bind_result. simpl.
    specialize (IH c1 C1).
    destruct (snd (getNextStates placePiece gs c1 rest)) as [[l c2]|e];
      [|now rewrite IH].
    destruct IH as [-> C2]. split; [reflexivity | exact C2].
Qed.

Lemma nextStates_first_failure (gs : Ts.ExtendedGameState) (e : EngineError)
    (c : Z) (post : list Z) :
  forall pre,
    (forall c', In c' pre ->
       exists st, snd (nextStateOf placePiece gs c') = Ok st) ->
    snd (nextStateOf placePiece gs c) = Err e ->
    nextStates gs (pre ++ c :: post) = Err e.
Proof.
  induction pre as [|p pre IH]; intros Hpre Hc; simpl.
  - now rewrite Hc.
  - destruct (Hpre p (or_introl eq_refl)) as [st ->].
    rewrite IH; [reflexivity | | exact Hc].
    intros c' H. apply Hpre. now right.
Qed.

Lemma nextStates_all (gs : Ts.ExtendedGameState) (columns : list Z) :
  (forall c, In c columns ->
     exists st, snd (nextStateOf placePiece gs c) = Ok st) ->
  exists l, nextStates gs columns = Ok l /\ length l = length columns.
Proof.
  induction columns as [|c rest IH]; intro H; simpl.
  - now exists [].
  - destruct (H c (or_introl eq_refl)) as [st ->].
    destruct IH as (l & -> & L); [intros c' Hc'; apply H; now right|].
    exists (st :: l). simpl. now rewrite L.
Qed.

End PrefetchFacts.

(** X4. [generatePrefetchLinks] of the Astro page asks for the next state
    of each of the seven columns, whether the column has room or not: on a
    finished game it makes no call and gives no link; on a game in progress
    it fails with the failure of the first column, from 0 to 6, on which
    [placePiece] fails, and gives seven links when none does. *)
Theorem prefetch_asks_every_column
    (placePiece : GameState -> Z -> Result GameState)
    (crush : string -> string) (JSON_stringify : JSON -> string)
    (gameState : Ts.ExtendedGameState) :
  (Ts.isGameOver gameState = true ->
   forall cache,
     generatePrefetchLinks placePiece crush JSON_stringify gameState cache
     = ([], Ok [])) /\
  (Ts.isGameOver gameState = false ->
   forall c e,
     0 <= c <= 6 ->
     (forall c', 0 <= c' < c ->
        exists st, placePiece (Ts.baseOf gameState) c' = Ok st) ->
     placePiece (Ts.baseOf gameState) c = Err e ->
     snd (generatePrefetchLinks placePiece crush JSON_stringify gameState [])
     = Err e) /\
  (Ts.isGameOver gameState = false ->
   (forall c, 0 <= c <= 6 ->
      exists st, placePiece (Ts.baseOf gameState) c = Ok st) ->
   exists links,
     snd (generatePrefetchLinks placePiece crush JSON_stringify gameState [])
     = Ok links /\ length links = 7%nat).
Proof.
  split; [|split].
  - intros O cache. unfold generatePrefetchLinks. now rewrite O.
  - intros O c e Hc Hpre Hfail. unfold generatePrefetchLinks. rewrite O.
    rewrite PageFacts.bind_result.
    pose proof (getNextStates_computes placePiece gameState
                  [0; 1; 2; 3; 4; 5; 6] [] (cacheOk_nil placePiece gameState))
      as H.
    unfold computes in H.
    assert (F : nextStates placePiece gameState [0; 1; 2; 3; 4; 5; 6] = Err e).
    { assert (N : snd (nextStateOf placePiece gameState c) = Err e)
        by (rewrite nextStateOf_result, O, Hfail; reflexivity).
      assert (P : forall c', 0 <= c' < c ->
                exists st, snd (nextStateOf placePiece gameState c') = Ok st).
      { intros c' Hc'. destruct (Hpre c' Hc') as [ps Hps].
        rewrite nextStateOf_result, O, Hps. eauto. }
      assert (K : c = 0 \/ c = 1 \/ c = 2 \/ c = 3 \/ c = 4 \/ c = 5 \/ c = 6)
        by lia.
      destruct K as [->|[->|[->|[->|[->|[->| ->]]]]]].
      - apply (nextStates_first_failure placePiece gameState e 0
                 [1; 2; 3; 4; 5; 6] []); [intros c' []|exact N].
      - apply (nextStates_first_failure placePiece gameState e 1
                 [2; 3; 4; 5; 6] [0]); [|exact N].
        intros c' H'. apply P. simpl in H'. lia.
      - apply (nextStates_first_failure placePiece gameState e 2
                 [3; 4; 5; 6] [0; 1]); [|exact N].
        intros c' H'. apply P. simpl in H'. lia.
      - apply (nextStates_first_failure placePiece gameState e 3
                 [4; 5; 6] [0; 1; 2]); [|exact N].
        intros c' H'. apply P. simpl in H'. lia.
      - apply (nextStates_first_failure placePiece gameState e 4
                 [5; 6] [0; 1; 2; 3]); [|exact N].
        intros c' H'. apply P. simpl in H'. lia.
      - apply (nextStates_first_failure placePiece gameState e 5
                 [6] [0; 1; 2; 3; 4]); [|exact N].
        intros c' H'. apply P. simpl in H'. lia.
      - apply (nextStates_first_failure placePiece gameState e 6
                 [] [0; 1; 2; 3; 4; 5]); [|exact N].
        intros c' H'. apply P. simpl in H'. lia. }
    destruct (snd (getNextStates placePiece gameState []
                     [0; 1; 2; 3; 4; 5; 6])) as [[l c1]|e'].
    + destruct H as [H _]. congruence.
    + congruence.
  - intros O Hall. unfold generatePrefetchLinks. rewrite O.
    rewrite PageFacts.bind_result.
    pose proof (getNextStates_computes placePiece gameState
                  [0; 1; 2; 3; 4; 5; 6] [] (cacheOk_nil placePiece gameState))
      as H.
    unfold computes in H.
    destruct (nextStates_all placePiece gameState [0; 1; 2; 3; 4; 5; 6])
      as (l & E & L).
    { intros c Hc. destruct (Hall c) as [ps Hps]; [simpl in Hc; lia|].
      rewrite nextStateOf_result, O, Hps. eauto. }
    destruct (snd (getNextStates placePiece gameState []
                     [0; 1; 2; 3; 4; 5; 6])) as [[l' c1]|e'].
    + destruct H as [H _]. rewrite E in H. injection H as <-.
      eexists. split; [reflexivity|]. simpl. now rewrite length_map.
    + congruence.
Qed.

Lemma prefetch_asks_every_column_witness :
  snd (generatePrefetchLinks Engine.applyMove (fun t => t) sampleStringify
         fullColumnState []) = Err ColumnFull.
Proof.
  apply (proj1 (proj2 (prefetch_asks_every_column Engine.applyMove
                         (fun t => t) sampleStringify fullColumnState))
           eq_refl 0 ColumnFull).
  - lia.
  - intros c' H. lia.
  - reflexivity.
Defined.

(** ** The animation classes *)

Lemma findIndex_range {A : Type} (pred : A -> bool) (l : list A) :
  -1 <= findIndex pred l < Z.of_nat (length l).
Proof.
  induction l as [|x rest IH]; simpl; [lia|].
  destruct (pred x); [lia|].
  destruct (findIndex pred rest <? 0) eqn:E; lia.
Qed.

(** [findIndex] finds the first element that passes. *)
Lemma findIndex_found {A : Type} (pred : A -> bool) (l : list A) (i : nat) :
  findIndex pred l = Z.of_nat i ->
  (exists x, nth_error l i = Some x /\ pred x = true) /\
  forall j y, (j < i)%nat -> nth_error l j = Some y -> pred y = false.
Proof.
  revert i; induction l as [|x rest IH]; intros i; simpl; [lia|].
  destruct (pred x) eqn:P.
  - intro H. assert (i = O) by lia. subst i. split; [now exists x|].
    intros j y Hj. lia.
  - destruct (findIndex pred rest <? 0) eqn:E; [lia|].
    intro H. destruct i as [|i]; [apply Z.ltb_ge in E; lia|].
    destruct (IH i ltac:(lia)) as [F1 F2]. split; [exact F1|].
    intros [|j] y Hj Hy; simpl in Hy.
    + now injection Hy as <-.
    + apply (F2 j y); [lia | exact Hy].
Qed.

Lemma isNewPieceAt_true (b : Board) (newest : option Number)
    (arrayIndex colIndex : Z) :
  isNewPieceAt b newest (5 - arrayIndex) colIndex = true ->
  newest = Some (Integer colIndex) /\
  exists col, nth_error b (Z.to_nat colIndex) = Some col /\
              0 <= colIndex /\ findIndex isPiece col = arrayIndex.
Proof.
  unfold isNewPieceAt, pieceRowIn.
  destruct newest as [[column| | |]|]; try discriminate.
  destruct (column <? 0) eqn:N; [discriminate|].
  destruct (nth_error b (Z.to_nat column)) as [col|] eqn:E; [|discriminate].
  cbn [option_map]. intro H. apply andb_true_iff in H. destruct H as [H1 H2].
  apply Z.eqb_eq in H1. apply Z.eqb_eq in H2. subst column.
  apply Z.ltb_ge in N. split; [reflexivity|]. exists col.
  split; [exact E|]. split; [exact N | lia].
Qed.

Lemma animation_cases (gs : Ts.ExtendedGameState) (arrayIndex colIndex : Z) :
  (cellAnimation gs arrayIndex colIndex = "animate-computer-slide-down"%string
   /\ isNewPieceAt (Ts.board gs) (Ts.newestComputerPieceColumn gs)
        (5 - arrayIndex) colIndex = true) \/
  (cellAnimation gs arrayIndex colIndex = "animate-slide-down"%string
   /\ isNewPieceAt (Ts.board gs) (Ts.newestComputerPieceColumn gs)
        (5 - arrayIndex) colIndex = false
   /\ isNewPieceAt (Ts.board gs) (Ts.newestPieceColumn gs)
        (5 - arrayIndex) colIndex = true) \/
  cellAnimation gs arrayIndex colIndex = EmptyString.
Proof.
  unfold cellAnimation, animationClass.
  destruct (isNewPieceAt (Ts.board gs) (Ts.newestComputerPieceColumn gs) _ _);
    [now left|].
  destruct (isNewPieceAt (Ts.board gs) (Ts.newestPieceColumn gs) _ _);
    [right; left; auto | now right; right].
Qed.

Lemma animated_position (gs : Ts.ExtendedGameState) (arrayIndex colIndex : Z) :
  cellAnimation gs arrayIndex colIndex <> EmptyString ->
  exists col, nth_error (Ts.board gs) (Z.to_nat colIndex) = Some col /\
              0 <= colIndex /\ findIndex isPiece col = arrayIndex.
Proof.
  intro H.
  destruct (animation_cases gs arrayIndex colIndex) as [[_ N]|[(_ & _ & N)|E]];
    [| |contradiction]; apply isNewPieceAt_true in N; tauto.
Qed.

Lemma animation_source (gs : Ts.ExtendedGameState) (arrayIndex colIndex : Z)
    (k : string) :
  cellAnimation gs arrayIndex colIndex = k -> k <> EmptyString ->
  isNewPieceAt (Ts.board gs)
    (if String.eqb k "animate-computer-slide-down"
     then Ts.newestComputerPieceColumn gs else Ts.newestPieceColumn gs)
    (5 - arrayIndex) colIndex = true.
Proof.
  intros E N.
  destruct (animation_cases gs arrayIndex colIndex) as [[A H]|[(A & _ & H)|A]];
    rewrite A in E; subst k; [exact H | exact H | contradiction].
Qed.

(** X5. A cell that gets an animation class holds a piece, the first one
    of its column in array order, and therefore is never one of the
    clickable cells. *)
Theorem animated_cell_is_a_piece
    (placePiece : GameState -> Z -> Result GameState)
    (crush : string -> string) (JSON_stringify : JSON -> string)
    (gameState : Ts.ExtendedGameState) (colIndex rowIndex : nat)
    (column : Column) (cell : Cell) :
  nth_error (Ts.board gameState) colIndex = Some column ->
  nth_error column rowIndex = Some cell ->
  cellAnimation gameState (Z.of_nat rowIndex) (Z.of_nat colIndex)
    <> EmptyString ->
  cell <> None /\
  (forall above cell', (above < rowIndex)%nat ->
     nth_error column above = Some cell' -> cell' = None) /\
  forall cache,
    renderCell placePiece crush JSON_stringify gameState cache cell
      (Z.of_nat colIndex) = ([], Ok (None, cache)).
Proof.
  intros Hcol Hcell A. apply animated_position in A.
  destruct A as (col & E & _ & F). rewrite Nat2Z.id in E.
  rewrite Hcol in E. injection E as <-.
  apply findIndex_found in F. destruct F as [(x & Hx & Px) F].
  rewrite Hcell in Hx. injection Hx as <-.
  assert (N : cell <> None) by (intros ->; discriminate).
  split; [exact N|]. split.
  - intros above cell' L H. specialize (F above cell' L H).
    destruct cell'; [discriminate | reflexivity].
  - intro cache. unfold Page.renderCell.
    destruct cell; [reflexivity | contradiction].
Qed.

Lemma animated_cell_is_a_piece_witness :
  Some Red <> None /\
  (forall above cell', (above < 0)%nat ->
     nth_error [Some Red; None; None; None; None; None] above = Some cell' ->
     cell' = None) /\
  forall cache,
    renderCell Engine.applyMove (fun t => t) sampleStringify sampleTs cache
      (Some Red) 4 = ([], Ok (None, cache)).
Proof.
  apply (animated_cell_is_a_piece Engine.applyMove (fun t => t)
           sampleStringify sampleTs 4 0
           [Some Red; None; None; None; None; None] (Some Red)).
  - reflexivity.
  - reflexivity.
  - vm_compute. discriminate.
Defined.

(** X6. Each of the two animation classes marks at most one cell of the
    board, and when the computer has answered in the player's column the
    player's animation is on no cell at all: the computer's class is
    assigned last and both look for the same first piece. *)
Theorem animation_marks_one_cell (gameState : Ts.ExtendedGameState) :
  (forall rowIndex colIndex rowIndex' colIndex',
     cellAnimation gameState rowIndex colIndex <> EmptyString ->
     cellAnimation gameState rowIndex colIndex
       = cellAnimation gameState rowIndex' colIndex' ->
     rowIndex = rowIndex' /\ colIndex = colIndex') /\
  (Ts.newestPieceColumn gameState = Ts.newestComputerPieceColumn gameState ->
   forall rowIndex colIndex,
     cellAnimation gameState rowIndex colIndex
       <> "animate-slide-down"%string).
Proof.
  split.
  - intros i c i' c' N E.
    pose proof (animation_source gameState i c _ eq_refl N) as H1.
    assert (N' : cellAnimation gameState i' c' <> EmptyString) by congruence.
    pose proof (animation_source gameState i' c' _ eq_refl N') as H2.
    rewrite <- E in H2.
    apply isNewPieceAt_true in H1. apply isNewPieceAt_true in H2.
    destruct H1 as (K1 & col1 & E1 & _ & F1).
    destruct H2 as (K2 & col2 & E2 & _ & F2).
    rewrite K1 in K2. injection K2 as <-.
    rewrite E1 in E2. injection E2 as <-. split; [lia | reflexivity].
  - intros Same i c A.
    destruct (animation_cases gameState i c) as [[A1 _]|[(_ & H1 & H2)|A1]].
    + rewrite A1 in A. discriminate.
    + rewrite Same in H2. congruence.
    + rewrite A1 in A. discriminate.
Qed.

Lemma animation_marks_one_cell_witness :
  Ts.newestPieceColumn fullColumnState
  = Ts.newestComputerPieceColumn fullColumnState /\
  cellAnimation fullColumnState 0 0 <> "animate-slide-down"%string.
Proof.
  split; [reflexivity|].
  apply (proj2 (animation_marks_one_cell fullColumnState)). reflexivity.
Defined.

(** ** Following the links of the page *)

Section Links.

Variable createInitialState : GameState.
Variable placePiece : GameState -> Z -> Result GameState.
Variable getComputerMove : GameState -> Quality -> Result Z.
Variable crush : string -> string.
Variable uncrush : string -> option string.
Variable JSON_stringify : JSON -> string.
Variable JSON_parse : string -> option JSON.

Local Abbreviation loadState := (loadState createInitialState uncrush JSON_parse).
Local Abbreviation encodeState := (encodeState crush JSON_stringify).
Local Abbreviation textLossless :=
  (textLossless crush uncrush JSON_stringify JSON_parse).

(** The next request loads the state a link was written for. *)
Lemma loadState_encodeState (st : Ts.ExtendedGameState) :
  boardShape (Ts.board st) = true ->
  textLossless (Ts.toJSON st) ->
  encodeState st <> EmptyString ->
  loadState (Some (encodeState st)) = st.
Proof.
  intros Hs (text & U & P) N. unfold Page.loadState.
  destruct (String.eqb (encodeState st) EmptyString) eqn:E;
    [apply String.eqb_eq in E; contradiction|].
  unfold decodeState, Page.encodeState, encodeValue in *.
  rewrite U, P. now rewrite WireFacts.Ts_parse_toJSON.
Qed.

End Links.

(** X7. A quality link leads to the same game at the chosen quality: the
    next request loads a state that has the requested [minimaxQuality] and
    every other field of the displayed state, and it is the displayed state
    itself exactly for the link marked active.  The codecs are assumed to
    give back what was written, and the link not to be the empty text. *)
Theorem quality_link_changes_only_quality
    (createInitialState : GameState)
    (crush : string -> string) (uncrush : string -> option string)
    (JSON_stringify : JSON -> string) (JSON_parse : string -> option JSON)
    (gameState : Ts.ExtendedGameState) (quality : Quality) :
  let target :=
    Ts.mkExtended (Ts.board gameState) (Ts.currentPlayer gameState)
      (Ts.isGameOver gameState) (Ts.winner gameState)
      (Ts.newestPieceColumn gameState)
      (Ts.newestComputerPieceColumn gameState) quality in
  boardShape (Ts.board gameState) = true ->
  textLossless crush uncrush JSON_stringify JSON_parse (Ts.toJSON target) ->
  renderQualityLink crush JSON_stringify gameState quality <> EmptyString ->
  loadState createInitialState uncrush JSON_parse
    (Some (renderQualityLink crush JSON_stringify gameState quality)) = target /\
  (qualityLinkActive gameState quality = true <-> target = gameState).
Proof.
  intros target Hs L N. split.
  - unfold renderQualityLink. now apply loadState_encodeState.
  - unfold qualityLinkActive, target. destruct gameState as [b p o w n c q].
    simpl. destruct q, quality; simpl; split; intro H;
      try reflexivity; try discriminate.
Qed.

Definition echoOf (st : Ts.ExtendedGameState) (s : string) : option JSON :=
  Some (Ts.toJSON st).

Lemma quality_link_changes_only_quality_witness :
  loadState Engine.createInitialState Some
    (echoOf (Ts.withExtras (Engine.stateAfter [3; 3; 4]) (Some (Integer 4)) (Some (Integer 3)) Bad))
    (Some (renderQualityLink (fun t => t) sampleStringify sampleTs Bad))
  = Ts.withExtras (Engine.stateAfter [3; 3; 4]) (Some (Integer 4)) (Some (Integer 3)) Bad.
Proof.
  apply (proj1 (quality_link_changes_only_quality Engine.createInitialState
                  (fun t => t) Some sampleStringify
                  (echoOf (Ts.withExtras (Engine.stateAfter [3; 3; 4])
                             (Some (Integer 4)) (Some (Integer 3)) Bad))
                  sampleTs Bad eq_refl
                  (ex_intro _ "ts"%string (conj eq_refl eq_refl))
                  ltac:(discriminate))).
Defined.

(** X8. One round of play across two requests.  On a displayed game in
    progress the link of an empty cell of column [c] carries the engine's
    successor for [c].  Provided that successor has a 7 x 6 board, the
    codecs give back what was written for the state of the link, and the
    link is not the empty text, the request that follows the link loads that
    state; when it is not over with yellow to move the computer answers at
    once, so that the state on display records the player's column as
    [newestPieceColumn] and the computer's as [newestComputerPieceColumn];
    when it is over or red is to move it is displayed as loaded. *)
Theorem one_round_of_play
    (createInitialState : GameState)
    (placePiece : GameState -> Z -> Result GameState)
    (getComputerMove : GameState -> Quality -> Result Z)
    (crush : string -> string) (uncrush : string -> option string)
    (JSON_stringify : JSON -> string) (JSON_parse : string -> option JSON)
    (gameState : Ts.ExtendedGameState) (c : Z) (playerState : GameState) :
  let quality := Ts.minimaxQuality gameState in
  let next := Ts.withExtras playerState (Some (Integer c)) None quality in
  let link := encodeState crush JSON_stringify next in
  Ts.isGameOver gameState = false ->
  placePiece (Ts.baseOf gameState) c = Ok playerState ->
  boardShape (board playerState) = true ->
  textLossless crush uncrush JSON_stringify JSON_parse (Ts.toJSON next) ->
  link <> EmptyString ->
  cellLink placePiece crush JSON_stringify gameState None c = Ok (Some link) /\
  loadState createInitialState uncrush JSON_parse (Some link) = next /\
  (isGameOver playerState = false -> currentPlayer playerState = Yellow ->
   forall computerMove computerState,
     getComputerMove playerState quality = Ok computerMove ->
     placePiece playerState computerMove = Ok computerState ->
     snd (computerBlock placePiece getComputerMove
            (loadState createInitialState uncrush JSON_parse (Some link)))
     = Ok (Ts.withExtras computerState (Some (Integer c))
            (Some (Integer computerMove)) quality)) /\
  (isGameOver playerState = true \/ currentPlayer playerState = Red ->
   computerBlock placePiece getComputerMove
     (loadState createInitialState uncrush JSON_parse (Some link))
   = ([], Ok next)).
Proof.
  intros quality next link O P Hs L N.
  assert (Hload : loadState createInitialState uncrush JSON_parse (Some link)
                  = next).
  { apply loadState_encodeState; [|exact L|exact N].
    unfold next. now destruct playerState. }
  assert (B : Ts.baseOf next = playerState)
    by (unfold next; now destruct playerState).
  assert (Q : Ts.minimaxQuality next = quality)
    by (unfold next; now destruct playerState).
  assert (O' : Ts.isGameOver next = isGameOver playerState)
    by (unfold next; now destruct playerState).
  assert (Y : Ts.currentPlayer next = currentPlayer playerState)
    by (unfold next; now destruct playerState).
  split; [|split; [exact Hload|split]].
  - unfold cellLink. rewrite O, P. reflexivity.
  - intros Ov Ye m cs Hm Hp. rewrite Hload. unfold computerBlock.
    rewrite O', Y, Ov, Ye. simpl.
    unfold callGetComputerMove, callPlacePiece. rewrite B, Q, Hm. simpl.
    rewrite Hp. simpl. unfold next. now destruct playerState.
  - intros H. rewrite Hload. unfold computerBlock. rewrite O', Y.
    destruct H as [-> | ->]; [reflexivity|]. now rewrite andb_false_r.
Qed.

Lemma one_round_of_play_witness :
  snd (computerBlock Engine.applyMove
         (Search.chooseMove SearchFacts.zeroHeuristic 2 4)
         (loadState Engine.createInitialState Some
            (echoOf (Ts.withExtras (Engine.stateAfter [3]) (Some (Integer 3)) None Best))
            (Some (encodeState (fun t => t) sampleStringify
                     (Ts.withExtras (Engine.stateAfter [3]) (Some (Integer 3)) None
                        Best)))))
  = Ok (Ts.withExtras (Engine.stateAfter [3; 3]) (Some (Integer 3)) (Some (Integer 3)) Best).
Proof.
  apply (proj1 (proj2 (proj2 (one_round_of_play Engine.createInitialState
           Engine.applyMove (Search.chooseMove SearchFacts.zeroHeuristic 2 4)
           (fun t => t) Some sampleStringify
           (echoOf (Ts.withExtras (Engine.stateAfter [3]) (Some (Integer 3)) None Best))
           (initialState Engine.createInitialState) 3 (Engine.stateAfter [3])
           eq_refl eq_refl eq_refl
           (ex_intro _ "ts"%string (conj eq_refl eq_refl))
           ltac:(discriminate)))) eq_refl eq_refl 3 (Engine.stateAfter [3; 3]));
    reflexivity.
Defined.

(** X9. Switching the engine keeps the game.  Of the two links of the
    engine toggle, the TypeScript one reads back, with the camelCase schema,
    as the displayed state, and the WASM one reads back, with the snake_case
    schema of the WASM page, as the state with the same cells, player, flag,
    columns and quality and a winner that is [null] or the same color. *)
Theorem engine_toggle_keeps_the_game
    (crush : string -> string) (uncrush : string -> option string)
    (JSON_stringify : JSON -> string) (JSON_parse : string -> option JSON)
    (gameState : Ts.ExtendedGameState) :
  boardShape (Ts.board gameState) = true ->
  textLossless crush uncrush JSON_stringify JSON_parse (Ts.toJSON gameState) ->
  textLossless crush uncrush JSON_stringify JSON_parse
    (convertTsToWasmGameState gameState) ->
  decodeState uncrush JSON_parse
    (fst (renderEngineToggle crush JSON_stringify gameState)) = Some gameState /\
  exists wasmState,
    decodeWasmState uncrush JSON_parse
      (snd (renderEngineToggle crush JSON_stringify gameState))
    = Some wasmState /\
    wasmToTs wasmState = gameState /\
    Wasm.winner wasmState = Some (Ts.winner gameState) /\
    Wasm.board wasmState = map (map wasmCellOf) (Ts.board gameState).
Proof.
  intros Hs (t1 & U1 & P1) (t2 & U2 & P2). unfold renderEngineToggle. simpl.
  split.
  - unfold decodeState, encodeState, encodeValue. rewrite U1, P1.
    now apply WireFacts.Ts_parse_toJSON.
  - unfold decodeWasmState, encodeValue. rewrite U2, P2.
    rewrite WireFacts.convert_is_toJSON, WireFacts.Wasm_parse_toJSON.
    eexists. split; [reflexivity|]. simpl. split; [|split; reflexivity].
    unfold wasmToTs. destruct gameState as [b p o w n c q]. simpl.
    now rewrite (WireFacts.map_map_id wasmCellOf tsCellOf b
                   WireFacts.tsCellOf_wasmCellOf).
Qed.

Definition toggleParse (text : string) : option JSON :=
  if String.eqb text "ts" then Some (Ts.toJSON sampleTs)
  else Some (convertTsToWasmGameState sampleTs).

Lemma engine_toggle_keeps_the_game_witness :
  decodeState Some toggleParse
    (fst (renderEngineToggle (fun t => t) sampleStringify sampleTs))
  = Some sampleTs /\
  exists wasmState,
    decodeWasmState Some toggleParse
      (snd (renderEngineToggle (fun t => t) sampleStringify sampleTs))
    = Some wasmState /\
    wasmToTs wasmState = sampleTs /\
    Wasm.winner wasmState = Some (Ts.winner sampleTs) /\
    Wasm.board wasmState = map (map wasmCellOf) (Ts.board sampleTs).
Proof.
  apply (engine_toggle_keeps_the_game (fun t => t) Some sampleStringify
           toggleParse sampleTs).
  - reflexivity.
  - exists "ts"%string. split; reflexivity.
  - exists "wasm"%string. split; reflexivity.
Defined.

End ViewFacts.

Module HashFacts.
Import PageView.
Local Open Scope Z_scope.
Local Open Scope list_scope.

(** ** The board hash *)

Lemma toInt32_range (z : Z) : -2147483648 <= toInt32 z < 2147483648.
Proof.
  unfold toInt32.
  pose proof (Z.mod_pos_bound (z + 2147483648) 4294967296 ltac:(lia)). lia.
Qed.

Lemma toInt32_shift (z k : Z) : toInt32 (z + k * 4294967296) = toInt32 z.
Proof.
  unfold toInt32.
  replace (z + k * 4294967296 + 2147483648)
    with (z + 2147483648 + k * 4294967296) by ring.
  now rewrite Z_mod_plus_full.
Qed.

Lemma toInt32_wraps (z : Z) : exists k, toInt32 z = z + k * 4294967296.
Proof.
  unfold toInt32. exists (- ((z + 2147483648) / 4294967296)).
  pose proof (Z.div_mod (z + 2147483648) 4294967296 ltac:(lia)). lia.
Qed.

Lemma toInt32_small (z : Z) :
  -2147483648 <= z < 2147483648 -> toInt32 z = z.
Proof.
  intro H. unfold toInt32. rewrite Z.mod_small by lia. lia.
Qed.

(** One step of the reduction is multiplication by 31 and addition of the
    character code, in 32-bit arithmetic. *)
Lemma hashStep_31 (hash : Z) (char : ascii) :
  hashStep hash char = toInt32 (31 * hash + Z.of_nat (nat_of_ascii char)).
Proof.
  unfold hashStep, shiftLeft32. rewrite Z.shiftl_mul_pow2 by lia.
  destruct (toInt32_wraps hash) as [k Hk].
  destruct (toInt32_wraps (toInt32 hash * 2 ^ 5)) as [j Hj].
  rewrite Hj, Hk.
  replace ((hash + k * 4294967296) * 2 ^ 5 + j * 4294967296 - hash
           + Z.of_nat (nat_of_ascii char))
    with (31 * hash + Z.of_nat (nat_of_ascii char)
          + (32 * k + j) * 4294967296) by ring.
  apply toInt32_shift.
Qed.

Lemma hashStep_congruent (H : Z) (char : ascii) :
  hashStep (toInt32 H) char
  = toInt32 (31 * H + Z.of_nat (nat_of_ascii char)).
Proof.
  rewrite hashStep_31. destruct (toInt32_wraps H) as [k ->].
  replace (31 * (H + k * 4294967296) + Z.of_nat (nat_of_ascii char))
    with (31 * H + Z.of_nat (nat_of_ascii char) + (31 * k) * 4294967296)
    by ring.
  apply toInt32_shift.
Qed.

Lemma fold_hashStep (chars : list ascii) :
  forall H,
    fold_left hashStep chars (toInt32 H)
    = toInt32 (fold_left (fun acc c => 31 * acc + Z.of_nat (nat_of_ascii c))
                 chars H).
Proof.
  induction chars as [|c rest IH]; intro H; simpl; [reflexivity|].
  rewrite hashStep_congruent. apply IH.
Qed.

Lemma hashOf_polynomial (str : string) :
  hashOf str = toInt32 (polynomial31 str).
Proof.
  unfold hashOf, polynomial31.
  rewrite <- (toInt32_small 0) at 1 by lia. apply fold_hashStep.
Qed.

Lemma hashOf_range (str : string) : -2147483648 <= hashOf str < 2147483648.
Proof. rewrite hashOf_polynomial. apply toInt32_range. Qed.

(** X10. The reduction of [getGameStateHash] computes the polynomial hash
    with multiplier 31 of the character codes, wrapped into the signed
    32-bit range: whatever the text, the hash is the 32-bit image of
    c0 * 31^(n-1) + ... + c(n-1), and appending a character multiplies by 31
    and adds its code. *)
Theorem hash_is_polynomial (str : string) :
  hashOf str = toInt32 (polynomial31 str) /\
  -2147483648 <= hashOf str < 2147483648 /\
  forall char,
    hashOf (str ++ String char EmptyString)
    = toInt32 (31 * hashOf str + Z.of_nat (nat_of_ascii char)).
Proof.
  split; [apply hashOf_polynomial|]. split; [apply hashOf_range|].
  intro char. unfold hashOf at 1.
  assert (L : forall s t, list_ascii_of_string (s ++ t)
                          = list_ascii_of_string s ++ list_ascii_of_string t).
  { induction s as [|a s IH]; intro t; simpl; [reflexivity|]. now rewrite IH. }
  rewrite L, fold_left_app. simpl. fold (hashOf str). apply hashStep_31.
Qed.

(** ** The hexadecimal text *)

Lemma hexDigitValue_hexDigit (d : Z) :
  0 <= d < 16 -> hexDigitValue (hexDigit d) = d.
Proof.
  intro H.
  assert (K : d = 0 \/ d = 1 \/ d = 2 \/ d = 3 \/ d = 4 \/ d = 5 \/ d = 6
              \/ d = 7 \/ d = 8 \/ d = 9 \/ d = 10 \/ d = 11 \/ d = 12
              \/ d = 13 \/ d = 14 \/ d = 15) by lia.
  repeat (destruct K as [->|K]; [reflexivity|]). now subst.
Qed.

Lemma hexDigits_value (fuel : nat) :
  forall n acc,
    0 <= n < 16 ^ Z.of_nat fuel ->
    fold_left (fun v a => 16 * v + hexDigitValue a)
      (list_ascii_of_string (hexDigits fuel n acc)) 0
    = fold_left (fun v a => 16 * v + hexDigitValue a)
        (list_ascii_of_string acc) n.
Proof.
  induction fuel as [|f IH]; intros n acc H.
  - simpl in H. assert (n = 0) by lia. now subst.
  - simpl hexDigits. destruct (n <? 16) eqn:E.
    + apply Z.ltb_lt in E. simpl. rewrite hexDigitValue_hexDigit by lia.
      reflexivity.
    + apply Z.ltb_ge in E.
      rewrite Nat2Z.inj_succ, Z.pow_succ_r in H by lia.
      rewrite IH.
      * simpl. rewrite hexDigitValue_hexDigit
          by (apply Z.mod_pos_bound; lia).
        f_equal. rewrite (Z.div_mod n 16) at 3 by lia. reflexivity.
      * split; [apply Z.div_pos; lia|].
        apply Z.div_lt_upper_bound; lia.
Qed.

Lemma hexDigits_length (fuel : nat) :
  forall (k : nat) n acc,
    (1 <= k <= fuel)%nat -> 0 <= n < 16 ^ Z.of_nat k ->
    (1 + String.length acc <= String.length (hexDigits fuel n acc)
     <= k + String.length acc)%nat.
Proof.
  induction fuel as [|f IH]; intros k n acc Hk H; [lia|].
  simpl hexDigits. destruct (n <? 16) eqn:E; [simpl; lia|].
  apply Z.ltb_ge in E.
  destruct k as [|k]; [lia|].
  destruct k as [|k]; [simpl in H; lia|].
  rewrite Nat2Z.inj_succ, Z.pow_succ_r in H by lia.
  assert (B : 0 <= n / 16 < 16 ^ Z.of_nat (S k)).
  { split; [apply Z.div_pos; lia|]. apply Z.div_lt_upper_bound; lia. }
  pose proof (IH (S k) (n / 16) (String (hexDigit (n mod 16)) acc)
                ltac:(lia) B) as L.
  simpl String.length in L. lia.
Qed.

Lemma hexDigits_nonempty (fuel : nat) :
  forall n acc,
    (1 + String.length acc <= String.length (hexDigits (S fuel) n acc))%nat.
Proof.
  induction fuel as [|f IH]; intros n acc.
  - simpl. destruct (n <? 16); simpl; lia.
  - change (hexDigits (S (S f)) n acc)
      with (if n <? 16 then String (hexDigit n) acc
            else hexDigits (S f) (n / 16) (String (hexDigit (n mod 16)) acc)).
    destruct (n <? 16); [simpl; lia|].
    pose proof (IH (n / 16) (String (hexDigit (n mod 16)) acc)) as L.
    change (String.length (String (hexDigit (n mod 16)) acc))
      with (S (String.length acc)) in L.
    lia.
Qed.

Lemma hexDigits_grows (fuel : nat) :
  forall n acc,
    (String.length acc <= String.length (hexDigits fuel n acc))%nat.
Proof.
  induction fuel as [|f IH]; intros n acc; simpl; [lia|].
  destruct (n <? 16); [simpl; lia|].
  pose proof (IH (n / 16) (String (hexDigit (n mod 16)) acc)) as L.
  change (String.length (String (hexDigit (n mod 16)) acc))
    with (S (String.length acc)) in L.
  lia.
Qed.

(** A number of at least [16 ^ k] has more than [k] digits. *)
Lemma hexDigits_long (fuel : nat) :
  forall (k : nat) n acc,
    (k < fuel)%nat -> 16 ^ Z.of_nat k <= n ->
    (k + 1 + String.length acc <= String.length (hexDigits fuel n acc))%nat.
Proof.
  induction fuel as [|f IH]; intros k n acc Hk H; [lia|].
  change (hexDigits (S f) n acc)
    with (if n <? 16 then String (hexDigit n) acc
          else hexDigits f (n / 16) (String (hexDigit (n mod 16)) acc)).
  destruct (Z.ltb_spec n 16) as [L|L].
  - destruct k as [|k]; [simpl; lia|].
    rewrite Nat2Z.inj_succ, Z.pow_succ_r in H by lia.
    pose proof (Z.pow_pos_nonneg 16 (Z.of_nat k) ltac:(lia) ltac:(lia)). lia.
  - destruct k as [|k].
    + pose proof (hexDigits_grows f (n / 16)
                    (String (hexDigit (n mod 16)) acc)) as G.
      change (String.length (String (hexDigit (n mod 16)) acc))
        with (S (String.length acc)) in G.
      lia.
    + rewrite Nat2Z.inj_succ, Z.pow_succ_r in H by lia.
      assert (B : 16 ^ Z.of_nat k <= n / 16)
        by (apply Z.div_le_lower_bound; lia).
      pose proof (IH k (n / 16) (String (hexDigit (n mod 16)) acc)
                    ltac:(lia) B) as G.
      change (String.length (String (hexDigit (n mod 16)) acc))
        with (S (String.length acc)) in G.
      lia.
Qed.

Lemma substring_length (m : nat) (s : string) :
  (String.length (substring 0 m s) <= m)%nat /\
  ((String.length s <= m)%nat -> substring 0 m s = s) /\
  ((1 <= m)%nat -> (1 <= String.length s)%nat ->
   (1 <= String.length (substring 0 m s))%nat /\
   String.get 0 (substring 0 m s) = String.get 0 s).
Proof.
  revert s; induction m as [|m IH]; intro s.
  - split; [destruct s; simpl; lia|]. split; [|lia].
    destruct s; simpl; [reflexivity | lia].
  - destruct s as [|a s]; simpl.
    + split; [lia|]. split; [reflexivity | lia].
    + destruct (IH s) as (I1 & I2 & _). split; [lia|]. split.
      * intro L. f_equal. apply I2. lia.
      * intros _ _. split; [lia | reflexivity].
Qed.

(** The numeral of a number in range reads back as the number. *)
Lemma hexMagnitude_hexDigits (n : Z) :
  0 <= n < 4294967296 -> hexMagnitude (hexDigits 8 n EmptyString) = n.
Proof.
  intro H. unfold hexMagnitude.
  rewrite hexDigits_value by (change (16 ^ Z.of_nat 8) with 4294967296; lia).
  reflexivity.
Qed.

Lemma hexDigit_not_minus (d : Z) : 0 <= d < 16 -> hexDigit d <> "-"%char.
Proof.
  intro H.
  assert (K : d = 0 \/ d = 1 \/ d = 2 \/ d = 3 \/ d = 4 \/ d = 5 \/ d = 6
              \/ d = 7 \/ d = 8 \/ d = 9 \/ d = 10 \/ d = 11 \/ d = 12
              \/ d = 13 \/ d = 14 \/ d = 15) by lia.
  repeat (destruct K as [->|K]; [discriminate|]). subst. discriminate.
Qed.

(** The first character of a numeral is a digit. *)
Lemma hexDigits_head (fuel : nat) :
  forall n acc,
    0 <= n ->
    (forall a rest, acc = String a rest -> a <> "-"%char) ->
    forall a rest, hexDigits (S fuel) n acc = String a rest -> a <> "-"%char.
Proof.
  induction fuel as [|f IH]; intros n acc Hn Hacc a rest.
  - simpl. destruct (Z.ltb_spec n 16) as [L|L]; intro E;
      injection E as <- _; apply hexDigit_not_minus;
      [lia | apply Z.mod_pos_bound; lia].
  - change (hexDigits (S (S f)) n acc)
      with (if n <? 16 then String (hexDigit n) acc
            else hexDigits (S f) (n / 16) (String (hexDigit (n mod 16)) acc)).
    destruct (Z.ltb_spec n 16) as [L|L].
    + intro E. injection E as <- _. apply hexDigit_not_minus. lia.
    + apply IH; [apply Z.div_pos; lia|].
      intros a' rest' E. injection E as <- _.
      apply hexDigit_not_minus. apply Z.mod_pos_bound. lia.
Qed.

Lemma hexValue_unsigned (a : ascii) (rest : string) :
  a <> "-"%char -> hexValue (String a rest) = hexMagnitude (String a rest).
Proof.
  intro N. unfold hexValue.
  destruct a as [[] [] [] [] [] [] [] []]; try reflexivity.
  exfalso. apply N. reflexivity.
Qed.

Lemma hexValue_toString16 (n : Z) :
  -4294967296 < n < 4294967296 -> hexValue (toString16 n) = n.
Proof.
  intro H. unfold toString16.
  destruct (Z.ltb_spec n 0) as [L|L].
  - unfold hexValue. rewrite hexMagnitude_hexDigits by lia. lia.
  - destruct (hexDigits 8 n EmptyString) as [|a rest] eqn:E.
    + pose proof (hexDigits_nonempty 7 n EmptyString) as K.
      rewrite E in K. simpl in K. lia.
    + rewrite hexValue_unsigned.
      * rewrite <- E. apply hexMagnitude_hexDigits. lia.
      * apply (hexDigits_head 7 n EmptyString L) with (rest := rest);
          [discriminate | exact E].
Qed.

Lemma toString16_length (hash : Z) :
  -2147483648 <= hash < 2147483648 ->
  ((String.length (toString16 hash) <= 6)%nat
   <-> -1048576 < hash < 16777216).
Proof.
  intro R. unfold toString16.
  destruct (Z.ltb_spec hash 0) as [L|L];
    change (String.length (String "-" ?s)) with (S (String.length s)).
  - change (String.length (String "-" (hexDigits 8 (- hash) EmptyString)))
      with (S (String.length (hexDigits 8 (- hash) EmptyString))).
    split; intro H.
    + destruct (Z_lt_le_dec (-1048576) hash) as [G|G]; [lia|].
      pose proof (hexDigits_long 8 5 (- hash) EmptyString ltac:(lia)
                    ltac:(change (16 ^ Z.of_nat 5) with 1048576; lia)) as K.
      change (String.length EmptyString) with 0%nat in K. lia.
    + pose proof (hexDigits_length 8 5 (- hash) EmptyString ltac:(lia)
                    ltac:(change (16 ^ Z.of_nat 5) with 1048576; lia)) as K.
      change (String.length EmptyString) with 0%nat in K. lia.
  - split; intro H.
    + destruct (Z_lt_le_dec hash 16777216) as [G|G]; [lia|].
      pose proof (hexDigits_long 8 6 hash EmptyString ltac:(lia)
                    ltac:(change (16 ^ Z.of_nat 6) with 16777216; lia)) as K.
      change (String.length EmptyString) with 0%nat in K. lia.
    + pose proof (hexDigits_length 8 6 hash EmptyString ltac:(lia)
                    ltac:(change (16 ^ Z.of_nat 6) with 16777216; lia)) as K.
      change (String.length EmptyString) with 0%nat in K. lia.
Qed.

(** X11. The text of the hash has between one and six characters.  It is
    the complete hexadecimal numeral of the hash exactly when the hash lies
    strictly between -16^5 and 16^6, and then it reads back as the hash;
    outside that range characters of the numeral are cut off.  A negative
    hash starts with the minus sign, which takes one of the six places. *)
Theorem hash_text_is_cut_to_six (JSON_stringify : JSON -> string)
    (state : Ts.ExtendedGameState) :
  let hash :=
    hashOf (JSON_stringify
              (JArray (map (fun col => JArray (map Ts.cellToJSON col))
                         (Ts.board state)))) in
  let text := getGameStateHash JSON_stringify state in
  (1 <= String.length text <= 6)%nat /\
  (text = toString16 hash <-> -1048576 < hash < 16777216) /\
  (-1048576 < hash < 16777216 -> hexValue text = hash) /\
  (hash < 0 -> String.get 0 text = Some "-"%char).
Proof.
  intros hash text.
  assert (R : -2147483648 <= hash < 2147483648)
    by (unfold hash; apply hashOf_range).
  unfold text, getGameStateHash. fold hash.
  destruct (substring_length 6 (toString16 hash)) as (S1 & S2 & S3).
  assert (N : (1 <= String.length (toString16 hash))%nat).
  { unfold toString16. destruct (hash <? 0).
    - simpl String.length. lia.
    - pose proof (hexDigits_nonempty 7 hash EmptyString). lia. }
  destruct (S3 ltac:(lia) N) as [S4 S5].
  pose proof (toString16_length hash R) as [L1 L2].
  assert (W : -1048576 < hash < 16777216 ->
              substring 0 6 (toString16 hash) = toString16 hash).
  { intro H. apply S2. apply L2. exact H. }
  split; [lia|]. split; [|split].
  - split; [|exact W].
    intro E. apply L1. rewrite <- E. exact S1.
  - intro H. rewrite (W H). apply hexValue_toString16. lia.
  - intro H. rewrite S5. unfold toString16.
    replace (hash <? 0) with true by (symmetry; apply Z.ltb_lt; lia).
    reflexivity.
Qed.

Lemma hash_text_is_cut_to_six_witness :
  hexValue (getGameStateHash (fun _ => "[]"%string) Page.sampleTs) = 2914.
Proof.
  apply (proj1 (proj2 (proj2 (hash_text_is_cut_to_six
                                (fun _ => "[]"%string) Page.sampleTs)))).
  split; [apply Z.ltb_lt | apply Z.ltb_lt]; vm_compute; reflexivity.
Defined.

End HashFacts.

Local Open Scope Z_scope.
Local Open Scope list_scope.

(** ** The edge timer *)

Module TimerFacts.
Import EdgeTimer.

Lemma mapGet_mapSet (label : string) (v : Z) (m : list (string * Z)) :
  mapGet label (mapSet label v m) = Some v.
Proof.
  induction m as [|[k x] rest IH]; simpl.
  - now rewrite String.eqb_refl.
  - destruct (String.eqb k label) eqn:E; simpl; rewrite E; [reflexivity | exact IH].
Qed.

Lemma mapGet_mapSet_other (label other : string) (v : Z)
    (m : list (string * Z)) :
  other <> label -> mapGet other (mapSet label v m) = mapGet other m.
Proof.
  intro N. induction m as [|[k x] rest IH]; simpl.
  - destruct (String.eqb_spec label other) as [->|_]; [congruence | reflexivity].
  - destruct (String.eqb_spec k label) as [->|D]; simpl.
    + destruct (String.eqb_spec label other) as [->|_]; [congruence | reflexivity].
    + destruct (String.eqb k other); [reflexivity | exact IH].
Qed.

Lemma mapGet_mapDelete (label : string) (m : list (string * Z)) :
  mapGet label (mapDelete label m) = None.
Proof.
  induction m as [|[k x] rest IH]; simpl; [reflexivity|].
  destruct (String.eqb k label) eqn:E; simpl; [exact IH|].
  rewrite E. exact IH.
Qed.

Lemma mapGet_mapDelete_other (label other : string) (m : list (string * Z)) :
  other <> label -> mapGet other (mapDelete label m) = mapGet other m.
Proof.
  intro N. induction m as [|[k x] rest IH]; simpl; [reflexivity|].
  destruct (String.eqb_spec k label) as [->|D]; simpl.
  - destruct (String.eqb_spec label other) as [->|_]; [congruence | exact IH].
  - destruct (String.eqb k other); [reflexivity | exact IH].
Qed.

Lemma mapSet_length (label : string) (v : Z) (m : list (string * Z)) :
  (length (mapSet label v m) <= S (length m))%nat.
Proof.
  induction m as [|[k x] rest IH]; simpl; [lia|].
  destruct (String.eqb k label); simpl; lia.
Qed.

Lemma mapDelete_length (label : string) (m : list (string * Z)) :
  (length (mapDelete label m) <= length m)%nat.
Proof.
  induction m as [|[k x] rest IH]; simpl; [lia|].
  destruct (String.eqb k label); simpl; lia.
Qed.

Lemma mapDelete_shrinks (label : string) (v : Z) (m : list (string * Z)) :
  mapGet label m = Some v -> (S (length (mapDelete label m)) <= length m)%nat.
Proof.
  induction m as [|[k x] rest IH]; simpl; [discriminate|].
  destruct (String.eqb k label); simpl; intro H.
  - pose proof (mapDelete_length label rest). lia.
  - specialize (IH H). lia.
Qed.

(** An event on another label leaves the timer of [label] alone. *)
Lemma step_other (label : string) (ev : TimerEvent) (st : Timers) :
  labelOf ev <> Some label ->
  mapGet label (timers (fst (timerStep ev st))) = mapGet label (timers st).
Proof.
  destruct ev as [t | l s e f | l e f]; simpl; intro N.
  - reflexivity.
  - apply mapGet_mapSet_other. congruence.
  - unfold timeEnd. destruct (mapGet l (timers st)); simpl; [|reflexivity].
    apply mapGet_mapDelete_other. congruence.
Qed.

Lemma run_others (label : string) (evs : list TimerEvent) :
  forall st,
    (forall ev, In ev evs -> labelOf ev <> Some label) ->
    mapGet label (timers (fst (timerRun evs st))) = mapGet label (timers st).
Proof.
  induction evs as [|ev rest IH]; intros st N; simpl; [reflexivity|].
  pose proof (step_other label ev st (N ev (or_introl eq_refl))) as S.
  destruct (timerStep ev st) as [st1 e1]. simpl in S.
  specialize (IH st1 (fun ev' H => N ev' (or_intror H))).
  destruct (timerRun rest st1) as [st2 e2]. simpl in *. congruence.
Qed.

(** X12. The timer of a label runs from the end of the report that
    [timeStart] sends, not from its first clock reading: whatever happens
    to other labels in between, [timeEnd] returns and reports its own
    reading minus the second reading of [timeStart], and removes the label,
    so that ending it once more returns 0, warns, and sends nothing. *)
Theorem timer_runs_from_the_end_of_its_report
    (label : string) (startTime fetchEndTime endTime : Z)
    (fetchFailed fetchFailed' : bool) (others : list TimerEvent) (st : Timers) :
  (forall ev, In ev others -> labelOf ev <> Some label) ->
  let started :=
    fst (timeStart_resume label startTime fetchEndTime fetchFailed st) in
  let later := fst (timerRun others started) in
  exists st',
    timeEnd label endTime fetchFailed' later
    = (st',
       Fetch endTime (Some (endTime - fetchEndTime)) :: caught fetchFailed',
       endTime - fetchEndTime) /\
    mapGet label (timers st') = None /\
    forall endTime2 fetchFailed2,
      timeEnd label endTime2 fetchFailed2 st' = (st', [ConsoleWarn label], 0).
Proof.
  intros N started later.
  assert (G : mapGet label (timers later) = Some fetchEndTime).
  { unfold later. rewrite (run_others label others started N).
    unfold started, timeStart_resume. simpl. rewrite mapGet_mapSet.
    f_equal. lia. }
  exists (mkTimers (mapDelete label (timers later)) (fetchStartTime later)).
  split; [|split].
  - unfold timeEnd. rewrite G. reflexivity.
  - simpl. apply mapGet_mapDelete.
  - intros endTime2 fetchFailed2. unfold timeEnd. simpl.
    rewrite mapGet_mapDelete. reflexivity.
Qed.

Lemma timer_runs_from_the_end_of_its_report_witness :
  exists st',
    timeEnd "page"%string 130 false
      (fst (timerRun [StartBegins 105; Ends "move"%string 120 true]
              (fst (timeStart_resume "page"%string 100 110 false
                      (mkTimers [("move"%string, 90)] (Some 100)))))) 
    = (st', [Fetch 130 (Some 20)], 20) /\
    mapGet "page"%string (timers st') = None.
Proof.
  destruct (timer_runs_from_the_end_of_its_report "page"%string 100 110 130
              false false [StartBegins 105; Ends "move"%string 120 true]
              (mkTimers [("move"%string, 90)] (Some 100))) as (st' & H1 & H2 & _).
  - intros ev [<-|[<-|[]]]; simpl; discriminate.
  - exists st'. split; [exact H1 | exact H2].
Defined.

Lemma caught_reports (fetchFailed : bool) :
  filter isReport (caught fetchFailed) = [].
Proof. now destruct fetchFailed. Qed.

Lemma step_reports (ev : TimerEvent) (st : Timers) :
  (length (filter isReport (snd (timerStep ev st)))
   + length (timers (fst (timerStep ev st)))
   <= (if isStart ev then 1 else 0) + length (timers st))%nat.
Proof.
  destruct ev as [t | l s e f | l e f]; simpl.
  - lia.
  - rewrite caught_reports. pose proof (mapSet_length l (s + (e - s)) (timers st)).
    simpl. lia.
  - unfold timeEnd. destruct (mapGet l (timers st)) as [v|] eqn:G; simpl.
    + rewrite caught_reports.
      pose proof (mapDelete_shrinks l v (timers st) G). simpl. lia.
    + lia.
Qed.

(** X13. No start is reported twice: over any timerRun of events from any
    state, the duration reports sent and the timers still running together
    number at most the starts completed and the timers that were running at
    the beginning. *)
Theorem every_start_is_reported_at_most_once (evs : list TimerEvent) (st : Timers) :
  (length (filter isReport (snd (timerRun evs st)))
   + length (timers (fst (timerRun evs st)))
   <= length (filter isStart evs) + length (timers st))%nat.
Proof.
  revert st. induction evs as [|ev rest IH]; intro st; simpl; [lia|].
  pose proof (step_reports ev st) as S.
  destruct (timerStep ev st) as [st1 e1]. simpl in S.
  specialize (IH st1). destruct (timerRun rest st1) as [st2 e2]. simpl in *.
  rewrite filter_app, length_app.
  destruct (isStart ev); simpl; lia.
Qed.

End TimerFacts.

(** ** The loader of the WASM engine *)

Module LoaderFacts.
Import ConnectFourWasm.

Section Loader.

Variable InitOutput : Type.
Variable ConnectFour : Type.
Variable newConnectFour : ConnectFour.

Local Abbreviation Statics := (ConnectFourWasm.Statics InitOutput ConnectFour).
Local Abbreviation initRun := (ConnectFourWasm.initRun newConnectFour).
Local Abbreviation initStep := (ConnectFourWasm.initStep newConnectFour).

(** Once the instance exists, [init] calls nothing. *)
Lemma run_with_instance (evs : list (InitEvent InitOutput)) :
  forall st : Statics,
    instance st <> None ->
    snd (fst (initRun evs st)) = 0%nat /\ instance (fst (fst (initRun evs st))) <> None.
Proof.
  induction evs as [|ev rest IH]; intros st I; simpl; [now split|].
  assert (S : snd (fst (initStep ev st)) = 0%nat
              /\ instance (fst (fst (initStep ev st))) <> None).
  { destruct ev as [|result]; simpl.
    - unfold init. destruct (instance st) eqn:E; [|congruence].
      simpl. split; [reflexivity | congruence].
    - unfold settle. destruct (loading st); [|now split].
      destruct result; simpl; split; congruence. }
  destruct (initStep ev st) as [[st1 c1] r1]. simpl in S. destruct S as [-> I1].
  destruct (IH st1 I1) as [C I2].
  destruct (initRun rest st1) as [[st2 c2] rs]. simpl in *. now subst.
Qed.

Lemma run_calls_at_most_once (evs : list (InitEvent InitOutput)) :
  forall st : Statics, (snd (fst (initRun evs st)) <= 1)%nat.
Proof.
  induction evs as [|ev rest IH]; intro st; simpl; [lia|].
  destruct ev as [|result]; simpl.
  - unfold init. destruct (instance st) eqn:I.
    + destruct (run_with_instance rest st ltac:(congruence)) as [C _].
      destruct (initRun rest st) as [[st2 c2] rs]. simpl in *. lia.
    + destruct (run_with_instance rest
                  (mkStatics (Some None) (game st) true) ltac:(discriminate))
        as [C _].
      destruct (initRun rest _) as [[st2 c2] rs]. simpl in *. lia.
  - unfold settle. destruct (loading st).
    + destruct result.
      * destruct (run_with_instance rest
                    (mkStatics (Some (Some i)) (Some newConnectFour) false)
                    ltac:(discriminate)) as [C _].
        destruct (initRun rest _) as [[st2 c2] rs]. simpl in *. lia.
      * specialize (IH (mkStatics (instance st) (game st) false)).
        destruct (initRun rest _) as [[st2 c2] rs]. simpl in *. lia.
    + specialize (IH st).
      destruct (initRun rest st) as [[st2 c2] rs]. simpl in *. lia.
Qed.

Lemma run_before_init (evs : list (InitEvent InitOutput)) :
  forall st : Statics,
    instance st = None -> loading st = false ->
    snd (fst (initRun evs st)) = if existsb isInit evs then 1%nat else 0%nat.
Proof.
  induction evs as [|ev rest IH]; intros st I L; simpl; [reflexivity|].
  destruct ev as [|result]; simpl.
  - unfold init. rewrite I.
    destruct (run_with_instance rest
                (mkStatics (Some None) (game st) true) ltac:(discriminate))
      as [C _].
    destruct (initRun rest _) as [[st2 c2] rs]. simpl in *. lia.
  - unfold settle. rewrite L. specialize (IH st I L).
    destruct (initRun rest st) as [[st2 c2] rs]. simpl in *. exact IH.
Qed.

(** Calls of [init] made while the module loads resolve at once. *)
Lemma run_while_loading (waiting rest : list (InitEvent InitOutput)) :
  forall st : Statics,
    instance st <> None ->
    (forall ev, In ev waiting -> ev = Init) ->
    initRun (waiting ++ rest) st
    = (fst (fst (initRun rest st)), snd (fst (initRun rest st)),
       map (fun _ => Resolves) waiting ++ snd (initRun rest st)).
Proof.
  induction waiting as [|ev more IH]; intros st I W; simpl.
  - now destruct (initRun rest st) as [[st2 c2] rs].
  - rewrite (W ev (or_introl eq_refl)). simpl. unfold init.
    destruct (instance st) eqn:E; [|congruence].
    rewrite (IH st ltac:(congruence) (fun ev' H => W ev' (or_intror H))).
    reflexivity.
Qed.

(** With the load settled, nothing changes any more. *)
Lemma run_settled (evs : list (InitEvent InitOutput)) :
  forall st : Statics,
    instance st <> None -> loading st = false ->
    initRun evs st
    = (st, 0%nat, map (fun ev => if isInit ev then Resolves else NoReply) evs).
Proof.
  induction evs as [|ev rest IH]; intros st I L; simpl; [reflexivity|].
  destruct ev as [|result]; simpl.
  - unfold init. destruct (instance st) eqn:E; [|congruence].
    rewrite (IH st ltac:(congruence) L). reflexivity.
  - unfold settle. rewrite L. rewrite (IH st I L). reflexivity.
Qed.

End Loader.

(** X14. [initWasm] is called at most once, whatever calls of [init] and
    settlements follow each other and from whatever state; from the initial
    state it is called exactly once as soon as there is a call of [init]. *)
Theorem initWasm_is_called_at_most_once
    (InitOutput ConnectFour : Type) (newConnectFour : ConnectFour)
    (evs : list (InitEvent InitOutput)) :
  (forall st : Statics InitOutput ConnectFour,
     (snd (fst (initRun newConnectFour evs st)) <= 1)%nat) /\
  snd (fst (initRun newConnectFour evs initialStatics))
  = if existsb isInit evs then 1%nat else 0%nat.
Proof.
  split.
  - apply run_calls_at_most_once.
  - apply run_before_init; reflexivity.
Qed.

(** X15. The first load decides for good.  The first [init] waits for
    [initWasm]; calls of [init] made meanwhile resolve at once, before the
    game object exists.  When the load fails, that first [init] rejects, and
    from then on every [init] resolves without loading again while every
    static method throws a [TypeError]; when it succeeds, every static
    method reaches the game object. *)
Theorem the_first_load_decides_for_good
    (InitOutput ConnectFour : Type) (newConnectFour : ConnectFour)
    (result : option InitOutput)
    (waiting more : list (InitEvent InitOutput)) :
  (forall ev, In ev waiting -> ev = Init) ->
  exists st,
    initRun newConnectFour (Init :: waiting ++ Settles result :: more)
      initialStatics
    = (st, 1%nat,
       Awaits :: map (fun _ => Resolves) waiting
       ++ (match result with Some _ => Resolves | None => Rejects end)
       :: map (fun ev => if isInit ev then Resolves else NoReply) more) /\
    (forall (A : Type) (method : ConnectFour -> A),
       delegate method
         (fst (fst (initRun newConnectFour (Init :: waiting) initialStatics)))
       = TypeError) /\
    (forall (A : Type) (method : ConnectFour -> A),
       delegate method st
       = match result with
         | Some _ => Returned (method newConnectFour)
         | None => TypeError
         end).
Proof.
  intro W.
  set (loadingSt := mkStatics (InitOutput := InitOutput)
                      (ConnectFour := ConnectFour) (Some None) None true).
  assert (P : initRun newConnectFour (Init :: waiting) initialStatics
              = (loadingSt, 1%nat, Awaits :: map (fun _ => Resolves) waiting)).
  { simpl.
    pose proof (run_while_loading InitOutput ConnectFour newConnectFour
                  waiting [] loadingSt ltac:(discriminate) W) as R.
    rewrite app_nil_r in R. simpl in R. unfold loadingSt in R.
    rewrite R. rewrite app_nil_r. reflexivity. }
  set (settledSt :=
         match result with
         | Some output => mkStatics (Some (Some output)) (Some newConnectFour) false
         | None => mkStatics (InitOutput := InitOutput) (Some None) None false
         end).
  exists settledSt. split; [|split].
  - simpl. fold loadingSt.
    rewrite (run_while_loading InitOutput ConnectFour newConnectFour
               waiting (Settles result :: more) loadingSt
               ltac:(discriminate) W).
    simpl.
    assert (Q : initRun newConnectFour more settledSt
                = (settledSt, 0%nat,
                   map (fun ev => if isInit ev then Resolves else NoReply) more)).
    { apply run_settled; unfold settledSt; destruct result; simpl;
        congruence. }
    unfold settle. simpl. unfold settledSt in *.
    destruct result; rewrite Q; reflexivity.
  - intros A method. rewrite P. reflexivity.
  - intros A method. unfold settledSt. destruct result; reflexivity.
Qed.

Lemma the_first_load_decides_for_good_witness :
  exists st,
    initRun tt [Init; Init; Settles (None : option unit); Init] initialStatics
    = (st, 1%nat, [Awaits; Resolves; Rejects; Resolves]) /\
    delegate (fun g : unit => g) st = TypeError.
Proof.
  destruct (the_first_load_decides_for_good unit unit tt None [Init] [Init])
    as (st & R & _ & D).
  - intros ev [<-|[]]. reflexivity.
  - exists st. split; [exact R | exact (D unit (fun g => g))].
Defined.

End LoaderFacts.

Module WasmPageFacts.
Import WasmPage.
Local Open Scope Z_scope.
Local Open Scope list_scope.

(** ** The WASM page *)

(** X16. Switching to the WASM engine shows the same game and makes no
    move of its own.  The WASM link of the engine toggle, for a board of
    any shape, is loaded by the WASM page as the displayed state in its
    own naming; when that game is over or red is to move the page displays
    it as loaded without an engine call, and when yellow is to move its
    first engine call asks for the computer's move on the loaded state at
    the same quality.  The codecs are assumed to give back what was written,
    and the link not to be the empty text. *)
Theorem switching_to_wasm_shows_the_same_game
    (create_initial_state : GameStateJS)
    (place_piece : Wasm.ExtendedGameState -> Z -> Result GameStateJS)
    (get_computer_move : Wasm.ExtendedGameState -> Quality -> Result Z)
    (crush : string -> string) (uncrush : string -> option string)
    (JSON_stringify : JSON -> string) (JSON_parse : string -> option JSON)
    (gameState : Ts.ExtendedGameState) :
  let link := snd (Page.renderEngineToggle crush JSON_stringify gameState) in
  let loaded := loadState create_initial_state uncrush JSON_parse (Some link) in
  Page.textLossless crush uncrush JSON_stringify JSON_parse
    (convertTsToWasmGameState gameState) ->
  link <> EmptyString ->
  wasmToTs loaded = gameState /\
  (Ts.isGameOver gameState = true \/ Ts.currentPlayer gameState = Red ->
   computerBlock place_piece get_computer_move loaded = ([], Ok loaded)) /\
  (Ts.isGameOver gameState = false -> Ts.currentPlayer gameState = Yellow ->
   exists calls,
     fst (computerBlock place_piece get_computer_move loaded)
     = CallGetComputerMove loaded (Ts.minimaxQuality gameState) :: calls).
Proof.
  intros link loaded (t & U & P) N.
  assert (L : loaded
              = Wasm.mkExtended (map (map wasmCellOf) (Ts.board gameState))
                  (Ts.currentPlayer gameState) (Ts.isGameOver gameState)
                  (Some (Ts.winner gameState))
                  (Ts.newestPieceColumn gameState)
                  (Ts.newestComputerPieceColumn gameState)
                  (Ts.minimaxQuality gameState)).
  { unfold loaded, loadState.
    destruct (String.eqb_spec link EmptyString) as [E|_]; [contradiction|].
    unfold link, Page.renderEngineToggle, Page.decodeWasmState,
      Page.encodeValue. simpl snd. rewrite U, P.
    rewrite WireFacts.convert_is_toJSON, WireFacts.Wasm_parse_toJSON.
    reflexivity. }
  rewrite L. split; [|split].
  - unfold wasmToTs. destruct gameState as [b p o w n c q]. simpl.
    now rewrite (WireFacts.map_map_id wasmCellOf tsCellOf b
                   WireFacts.tsCellOf_wasmCellOf).
  - intros [O|R]; unfold computerBlock; simpl.
    + rewrite O. reflexivity.
    + rewrite R. now rewrite andb_false_r.
  - intros O Y. unfold computerBlock. simpl. rewrite O, Y. simpl.
    destruct (get_computer_move _ _) as [m|e]; simpl.
    + destruct (place_piece _ m) as [s|e]; simpl; eexists; reflexivity.
    + eexists; reflexivity.
Qed.

Definition wasmSampleParse (text : string) : option JSON :=
  Some (convertTsToWasmGameState Page.sampleTs).

Lemma switching_to_wasm_shows_the_same_game_witness :
  wasmToTs
    (loadState (mkGameStateJS [] Red false None) Some wasmSampleParse
       (Some (snd (Page.renderEngineToggle (fun t => t) Page.sampleStringify
                     Page.sampleTs))))
  = Page.sampleTs.
Proof.
  apply (switching_to_wasm_shows_the_same_game
           (mkGameStateJS [] Red false None)
           (fun _ _ => Err ColumnFull) (fun _ _ => Err NoLegalMoves)
           (fun t => t) Some Page.sampleStringify wasmSampleParse
           Page.sampleTs).
  - exists "wasm"%string. split; reflexivity.
  - vm_compute. discriminate.
Defined.

(** X17. The WASM page never hands a finished game to its engine: every
    call made by the computer block or by the function under [memoize]
    carries the state the page holds at that point, and that state is not
    over; on a finished game neither makes a call, and the function under
    [memoize] returns the state itself. *)
Theorem wasm_page_never_moves_a_finished_game
    (place_piece : Wasm.ExtendedGameState -> Z -> Result GameStateJS)
    (get_computer_move : Wasm.ExtendedGameState -> Quality -> Result Z)
    (gameState : Wasm.ExtendedGameState) (column : Z) :
  (forall c,
     In c (fst (computerBlock place_piece get_computer_move gameState)
           ++ fst (nextStateOf place_piece gameState column)) ->
     handedState c = gameState /\ Wasm.is_game_over gameState = false) /\
  (Wasm.is_game_over gameState = true ->
   computerBlock place_piece get_computer_move gameState = ([], Ok gameState)
   /\ nextStateOf place_piece gameState column = ([], Ok gameState)).
Proof.
  split.
  - intros c H. apply in_app_or in H. destruct H as [H|H].
    + unfold computerBlock in H.
      destruct (Wasm.is_game_over gameState) eqn:O;
        [simpl in H; tauto|].
      destruct (Color_eqb (Wasm.current_player gameState) Yellow);
        [|simpl in H; tauto].
      cbn [negb andb] in H. unfold bind, ret in H.
      destruct (get_computer_move gameState (Wasm.minimaxQuality gameState))
        as [m|e]; [destruct (place_piece gameState m) as [s|e]|];
        simpl in H; intuition (subst; auto).
    + unfold nextStateOf in H.
      destruct (Wasm.is_game_over gameState) eqn:O;
        [simpl in H; tauto|].
      unfold bind, ret in H.
      destruct (place_piece gameState column) as [s|e];
        simpl in H; intuition (subst; auto).
  - intro O. unfold computerBlock, nextStateOf. rewrite O. now split.
Qed.

Lemma wasm_page_never_moves_a_finished_game_witness :
  computerBlock (fun _ _ => Err GameAlreadyOver)
    (fun _ _ => Err GameAlreadyOver)
    (Wasm.mkExtended [] Yellow true None None None Best)
  = ([], Ok (Wasm.mkExtended [] Yellow true None None None Best)).
Proof.
  apply (proj2 (wasm_page_never_moves_a_finished_game
                  (fun _ _ => Err GameAlreadyOver)
                  (fun _ _ => Err GameAlreadyOver)
                  (Wasm.mkExtended [] Yellow true None None None Best) 0)).
  reflexivity.
Defined.

End WasmPageFacts.
